(** * KGX: meta knowledge graph aggregation, provenance normalisation and
      record filters

    A shallow embedding of

    - [kgx/graph_operations/meta_knowledge_graph.py]
      (class [MetaKnowledgeGraph] and its nested class [Category]), and
    - [kgx/source/source.py]
      ([Source._infores_processor], [Source.check_node_filter],
      [Source.check_edge_filter], [Source.set_node_filter],
      [Source.set_edge_filter], [Source.set_node_filters],
      [Source.set_edge_filters]),

    together with the properties of these functions.

    Python dictionaries are finite maps ([gmap]), Python sets are finite
    sets ([gset]), Python integers are [Z], Python lists are lists.  Code
    that mutates [self] is a state transformer; a raised exception is a
    result of the transformer, and every mutation performed before the
    exception is kept in the state, as in Python. *)

From stdpp Require Import gmap strings list fin_maps.
From Stdlib Require Import ZArith Ascii.
From Stdlib Require String.

Local Open Scope string_scope.
Local Open Scope list_scope.
Local Open Scope Z_scope.

(** ** Python runtime: exceptions and the state-and-exception monad *)

Module Py.

Inductive exn : Type :=
| KeyError (key : string)
| AttributeError (attr : string)
| IndexError
| ValueError.

Inductive result (A : Type) : Type :=
| Ok (a : A)
| Raise (e : exn).
Global Arguments Ok {A} a.
Global Arguments Raise {A} e.

(** A method body over mutable state [S]. *)
Definition M (S A : Type) : Type := S → S * result A.

Definition ret {S A} (a : A) : M S A := λ s, (s, Ok a).

Definition bind {S A B} (m : M S A) (k : A → M S B) : M S B :=
  λ s, match m s with
       | (s', Ok a) => k a s'
       | (s', Raise e) => (s', Raise e)
       end.

Definition raise {S A} (e : exn) : M S A := λ s, (s, Raise e).
Definition get {S} : M S S := λ s, (s, Ok s).
Definition modify {S} (f : S → S) : M S unit := λ s, (f s, Ok tt).

(** Run a body written against a component [T] of the state [S]. *)
Definition zoom {S T A} (proj : S → T) (upd : T → S → S) (m : M T A) : M S A :=
  λ s, let '(t', r) := m (proj s) in (upd t' s, r).

(** Control flow of a loop body: it fell through to the next iteration,
    or it executed a [return] statement of the enclosing function. *)
Inductive flow : Type := Next | Return.

(** With these instances the bodies below are written [x ← m; k] and
    [m ;; k]. *)
Global Instance M_ret {S} : MRet (M S) := λ A, ret.
Global Instance M_bind {S} : MBind (M S) := λ A B k m, bind m k.

(** [for x in l: body]; an exception or a [return] ends the loop. *)
Fixpoint for_each {S A} (l : list A) (body : A → M S flow) : M S flow :=
  match l with
  | [] => mret Next
  | x :: l' =>
      f ← body x;
      match f with
      | Next => for_each l' body
      | Return => mret Return
      end
  end.

(** [l.index(x)]: position of the first occurrence. *)
Fixpoint list_index (x : string) (l : list string) : option nat :=
  match l with
  | [] => None
  | y :: l' => if decide (x = y) then Some 0%nat else S <$> list_index x l'
  end.

(** *** Reasoning about method bodies

    [hoare P m Q E]: run in a state that satisfies [P], the body [m]
    returns a value [a] in a state that satisfies [Q a], or raises an
    exception in a state that satisfies [E]. *)
Definition hoare {S A} (P : S → Prop) (m : M S A) (Q : A → S → Prop)
    (E : S → Prop) : Prop :=
  ∀ s, P s →
    match m s with
    | (s', Ok a) => Q a s'
    | (s', Raise _) => E s'
    end.

End Py.
Import Py.

(** ** The class-level category catalog

    [Category._category_curie_map] is a class attribute: one list for the
    whole process, shared by every [Category] object and therefore by every
    [MetaKnowledgeGraph] instance. *)

Module Catalog.

(** Lines 117-118 of [Category.__init__]:
    [if category not in self._category_curie_map: ....append(category)]. *)
Definition curie_map_add (c : string) (cm : list string) : list string :=
  if decide (c ∈ cm) then cm else cm ++ [c].

(** [Category.get_cid]: [self._category_curie_map.index(self.category)];
    [list.index] raises [ValueError] when the value is absent. *)
Definition get_cid (c : string) : M (list string) nat :=
  cm ← get;
  match list_index c cm with
  | Some i => mret i
  | None => raise ValueError
  end.

(** [Category.get_category_curie]: [cls._category_curie_map[cid]].  The
    indices that reach it come from [get_cid] and are never negative. *)
Definition get_category_curie (cid : nat) : M (list string) string :=
  cm ← get;
  match cm !! cid with
  | Some c => mret c
  | None => raise IndexError
  end.

(** Registration as [analyse_node] performs it: construct the
    [Category] (which appends to the catalog) and ask for its index. *)
Definition register (c : string) : M (list string) nat :=
  modify (curie_map_add c);; get_cid c.

Fixpoint register_all (cs : list string) : M (list string) (list nat) :=
  match cs with
  | [] => mret []
  | c :: cs' =>
      i ← register c;
      rest ← register_all cs';
      mret (i :: rest)
  end.

End Catalog.

(** ** [MetaKnowledgeGraph] *)

Module MKG.

(** The [data] dictionary of a node record: the two keys that
    [analyse_node] reads, each present or absent. *)
Record node_data : Type := NodeData {
  n_category : option (list string);
  n_provided_by : option (list string) }.

(** The [data] dictionary of an edge record: the three keys that
    [analyse_edge] reads.  [data['predicate']] and [data['relation']] are
    plain subscripts, so an absent key raises [KeyError]. *)
Record edge_data : Type := EdgeData {
  e_predicate : option string;
  e_relation : option string;
  e_provided_by : option (list string) }.

(** A [Category] object: its [category] attribute and the three entries
    of its [category_stats] dictionary. *)
Record Category : Type := mkCategory {
  category : string;
  id_prefixes : gset string;
  count : Z;
  count_by_source : gmap string Z }.

(** The [relations] entry of an association record is created as a set;
    [get_edge_stats] replaces it by a list. *)
Inductive relations_t : Type :=
| RelSet (s : gset string)
| RelList (l : list string).

(** The key of [association_map]: subject category, predicate, object
    category. *)
Abbreviation triple := (string * string * string)%type.

(** A value of [association_map]. *)
Record association : Type := mkAssociation {
  a_subject : string;
  a_predicate : string;
  a_object : string;
  a_relations : relations_t;
  a_count : Z;
  a_count_by_source : gmap string Z }.

(** The attributes of one [MetaKnowledgeGraph] instance.

    [edge_stats] is a list of references to the records held by
    [association_map]; a reference is the key of the record, which is
    sound because no record is ever removed or replaced.  [graph_stats]
    is [{}] ([None]) until the summary is built; afterwards it holds the
    name, and its ['nodes'] and ['edges'] entries are the objects
    [node_stats] and [edge_stats] themselves.  [error_log] is the stream
    the diagnostics are printed to, one line per [print]. *)
Record mkg : Type := Mkg {
  name : string;
  node_catalog : gmap string (list nat);
  node_stats : gmap string Category;
  edge_record_count : Z;
  predicates : gmap string Z;
  association_map : gmap triple association;
  edge_stats : list triple;
  graph_stats : option string;
  error_log : list string }.

(** The process as one instance sees it: the class-level catalog and the
    instance itself. *)
Record world : Type := World {
  curie_map : list string;
  self : mkg }.

Definition set_node_catalog (f : gmap string (list nat) → gmap string (list nat)) (m : mkg) : mkg :=
  Mkg (name m) (f (node_catalog m)) (node_stats m) (edge_record_count m)
      (predicates m) (association_map m) (edge_stats m) (graph_stats m) (error_log m).
Definition set_node_stats (f : gmap string Category → gmap string Category) (m : mkg) : mkg :=
  Mkg (name m) (node_catalog m) (f (node_stats m)) (edge_record_count m)
      (predicates m) (association_map m) (edge_stats m) (graph_stats m) (error_log m).
Definition set_edge_record_count (f : Z → Z) (m : mkg) : mkg :=
  Mkg (name m) (node_catalog m) (node_stats m) (f (edge_record_count m))
      (predicates m) (association_map m) (edge_stats m) (graph_stats m) (error_log m).
Definition set_predicates (f : gmap string Z → gmap string Z) (m : mkg) : mkg :=
  Mkg (name m) (node_catalog m) (node_stats m) (edge_record_count m)
      (f (predicates m)) (association_map m) (edge_stats m) (graph_stats m) (error_log m).
Definition set_association_map (f : gmap triple association → gmap triple association) (m : mkg) : mkg :=
  Mkg (name m) (node_catalog m) (node_stats m) (edge_record_count m)
      (predicates m) (f (association_map m)) (edge_stats m) (graph_stats m) (error_log m).
Definition set_edge_stats (f : list triple → list triple) (m : mkg) : mkg :=
  Mkg (name m) (node_catalog m) (node_stats m) (edge_record_count m)
      (predicates m) (association_map m) (f (edge_stats m)) (graph_stats m) (error_log m).
Definition set_graph_stats (f : option string → option string) (m : mkg) : mkg :=
  Mkg (name m) (node_catalog m) (node_stats m) (edge_record_count m)
      (predicates m) (association_map m) (edge_stats m) (f (graph_stats m)) (error_log m).
Definition set_error_log (f : list string → list string) (m : mkg) : mkg :=
  Mkg (name m) (node_catalog m) (node_stats m) (edge_record_count m)
      (predicates m) (association_map m) (edge_stats m) (graph_stats m) (f (error_log m)).

Definition on_self (f : mkg → mkg) (w : world) : world :=
  World (curie_map w) (f (self w)).

(** A class-level operation run from inside a method. *)
Definition on_catalog {A} (m : M (list string) A) : M world A :=
  zoom curie_map (λ cm w, World cm (self w)) m.

(** [print(msg, file=self.error_log)] inside a [MetaKnowledgeGraph]
    method. *)
Definition print (msg : string) : M world unit :=
  modify (on_self (set_error_log (λ l, l ++ [msg]))).

(** [category_data.split("|")]. *)
Fixpoint split_pipe (s : string) : list string :=
  match s with
  | EmptyString => [""]
  | String c s' =>
      if Ascii.eqb c "|"%char then "" :: split_pipe s'
      else match split_pipe s' with
           | [] => [String c ""]
           | t :: ts => String c t :: ts
           end
  end.

(** ["|" in s]. *)
Fixpoint has_pipe (s : string) : bool :=
  match s with
  | EmptyString => false
  | String c s' => Ascii.eqb c "|"%char || has_pipe s'
  end.

(** One provenance source counted in a [count_by_source] dictionary:
    [if s in d: d[s] += 1 else: d[s] = 1]. *)
Definition tally_source (d : gmap string Z) (s : string) : gmap string Z :=
  match d !! s with
  | Some k => <[s := k + 1]> d
  | None => <[s := 1]> d
  end.

(** [d[key] += delta]; the read raises [KeyError] on an absent key. *)
Definition add_at (key : string) (delta : Z) : M (gmap string Z) unit :=
  d ← get;
  match d !! key with
  | Some k => modify (<[key := k + delta]>)
  | None => raise (KeyError key)
  end.

(** [Category.__init__]. *)
Definition Category_init (c : string) : M (list string) Category :=
  modify (Catalog.curie_map_add c);;
  mret (mkCategory c ∅ 0 {["unknown" := 0]}).

Section WithPrefixManager.

(** [PrefixManager.get_prefix] of [kgx.prefix_manager], which is not
    among the sources: the prefix of a CURIE, or [None]. *)
Variable get_prefix : string → option string.

(** [not prefix]: [None] and the empty string are false. *)
Definition truthy (o : option string) : option string :=
  match o with
  | Some "" => None
  | _ => o
  end.

(** [Category.analyse_node_category].  The warning for an identifier
    without prefix is printed to [self.error_log], and [self] is the
    [Category] object, whose [__init__] sets [category] and
    [category_stats] only and whose class defines no [error_log]:
    evaluating the attribute raises [AttributeError]. *)
Definition analyse_node_category (n : string) (data : node_data) : M Category unit :=
  modify (λ c, mkCategory (category c) (id_prefixes c) (count c + 1) (count_by_source c));;
  match truthy (get_prefix n) with
  | None => raise (AttributeError "error_log")
  | Some prefix =>
      modify (λ c, mkCategory (category c) (id_prefixes c ∪ {[prefix]}) (count c) (count_by_source c))
  end;;
  match n_provided_by data with
  | Some sources =>
      modify (λ c, mkCategory (category c) (id_prefixes c) (count c)
                              (foldl tally_source (count_by_source c) sources))
  | None =>
      zoom count_by_source
           (λ d c, mkCategory (category c) (id_prefixes c) (count c) d)
           (add_at "unknown" 1)
  end.

(** A method call on the object [self.node_stats[key]]. *)
Definition on_category {A} (key : string) (m : M Category A) : M world A :=
  λ w, match node_stats (self w) !! key with
       | None => (w, Raise (KeyError key))
       | Some c =>
           let '(c', r) := m c in
           (on_self (set_node_stats (<[key := c']>)) w, r)
       end.

(** [MetaKnowledgeGraph.__init__]; the monitor callback is only used by
    [__call__] and is left out. *)
Definition init (name : string) : M (list string) mkg :=
  unknown ← Category_init "unknown";
  mret (Mkg name ∅ {["unknown" := unknown]} 0 ∅ ∅ [] None []).

(** The body of the inner loop of [analyse_node], for one category
    CURIE of the node [n]. *)
Definition analyse_node_curie (n : string) (data : node_data)
    (category_curie : string) : M world flow :=
  w ← get;
  match node_stats (self w) !! category_curie with
  | Some _ => mret tt
  | None =>
      c ← on_catalog (Category_init category_curie);
      modify (on_self (set_node_stats (<[category_curie := c]>)))
  end;;
  w ← get;
  match node_stats (self w) !! category_curie with
  | None => raise (KeyError category_curie)
  | Some cat =>
      category_idx ← on_catalog (Catalog.get_cid (category cat));
      w ← get;
      match node_catalog (self w) !! n with
      | None => raise (KeyError n)
      | Some cids =>
          if bool_decide (category_idx ∈ cids) then mret tt
          else modify (on_self (set_node_catalog (<[n := cids ++ [category_idx]]>)))
      end;;
      on_category category_curie (analyse_node_category n data);;
      mret Next
  end.

(** [MetaKnowledgeGraph.analyse_node]. *)
Definition analyse_node (n : string) (data : node_data) : M world unit :=
  w ← get;
  match node_catalog (self w) !! n with
  | Some _ =>
      print ("Duplicate node identifier '" +:+ n +:+
             "' encountered in input node data? Ignoring...")
  | None =>
      modify (on_self (set_node_catalog (<[n := []]>)));;
      match n_category data with
      | None =>
          on_category "unknown" (analyse_node_category n data);;
          print ("Node with identifier '" +:+ n +:+ "' is missing its 'category' value? " +:+
                 "Counting it as 'unknown', but otherwise ignoring in the analysis...")
      | Some categories =>
          for_each categories (λ category_data,
            for_each (split_pipe category_data) (analyse_node_curie n data));;
          mret tt
      end
  end.

End WithPrefixManager.

(** *** Edges *)

(** [data[key]] for a key of the edge dictionary. *)
Definition subscript {S A} (key : string) (field : option A) : M S A :=
  match field with
  | Some a => mret a
  | None => raise (KeyError key)
  end.

(** [self.predicates[predicate] += delta]. *)
Definition add_predicate (predicate : string) (delta : Z) : M world unit :=
  zoom (λ w, predicates (self w))
       (λ d, on_self (set_predicates (λ _, d)))
       (add_at predicate delta).

(** The record created for a triple seen for the first time. *)
Definition new_association (t : triple) : association :=
  mkAssociation t.1.1 t.1.2 t.2 (RelSet ∅) 0 {["unknown" := 0]}.

(** [if relation not in rels: rels.add(relation)].  A list has no
    method [add]. *)
Definition add_relation (relation : string) : M association unit :=
  a ← get;
  match a_relations a with
  | RelSet s =>
      if bool_decide (relation ∈ s) then mret tt
      else modify (λ a, mkAssociation (a_subject a) (a_predicate a) (a_object a)
                          (RelSet (s ∪ {[relation]})) (a_count a) (a_count_by_source a))
  | RelList l =>
      if bool_decide (relation ∈ l) then mret tt
      else raise (AttributeError "add")
  end.

(** Lines 255-266 of [analyse_edge], on the record
    [self.association_map[triple]]. *)
Definition count_association (data : edge_data) : M association unit :=
  relation ← subscript "relation" (e_relation data);
  add_relation relation;;
  modify (λ a, mkAssociation (a_subject a) (a_predicate a) (a_object a)
                 (a_relations a) (a_count a + 1) (a_count_by_source a));;
  match e_provided_by data with
  | Some sources =>
      modify (λ a, mkAssociation (a_subject a) (a_predicate a) (a_object a)
                     (a_relations a) (a_count a)
                     (foldl tally_source (a_count_by_source a) sources))
  | None =>
      zoom a_count_by_source
           (λ d a, mkAssociation (a_subject a) (a_predicate a) (a_object a)
                     (a_relations a) (a_count a) d)
           (add_at "unknown" 1)
  end.

(** Statements run on the object [self.association_map[t]]. *)
Definition on_association {A} (t : triple) (m : M association A) : M world A :=
  λ w, match association_map (self w) !! t with
       | None => (w, Raise (KeyError "triple"))
       | Some a =>
           let '(a', r) := m a in
           (on_self (set_association_map (<[t := a']>)) w, r)
       end.

(** The body of the inner loop of [analyse_edge]. *)
Definition analyse_edge_object (data : edge_data) (subject_category predicate : string)
    (obj_cat_idx : nat) : M world flow :=
  object_category ← on_catalog (Catalog.get_category_curie obj_cat_idx);
  let t : triple := (subject_category, predicate, object_category) in
  w ← get;
  match association_map (self w) !! t with
  | Some _ => mret tt
  | None => modify (on_self (set_association_map (<[t := new_association t]>)))
  end;;
  on_association t (count_association data);;
  mret Next.

(** The body of the outer loop of [analyse_edge]. *)
Definition analyse_edge_subject (v : string) (data : edge_data) (predicate : string)
    (subj_cat_idx : nat) : M world flow :=
  subject_category ← on_catalog (Catalog.get_category_curie subj_cat_idx);
  w ← get;
  match node_catalog (self w) !! v with
  | None =>
      print ("Edge 'object' node ID '" +:+ v +:+ "' not found in node catalog? Ignoring...");;
      modify (on_self (set_edge_record_count (λ c, c - 1)));;
      add_predicate predicate (-1);;
      mret Return
  | Some obj_cats =>
      for_each obj_cats (analyse_edge_object data subject_category predicate)
  end.

(** [MetaKnowledgeGraph.analyse_edge]; the key [k] of the edge is not
    used by the body. *)
Definition analyse_edge (u v k : string) (data : edge_data) : M world unit :=
  modify (on_self (set_edge_record_count (λ c, c + 1)));;
  predicate ← subscript "predicate" (e_predicate data);
  w ← get;
  match predicates (self w) !! predicate with
  | Some _ => mret tt
  | None => modify (on_self (set_predicates (<[predicate := 0]>)))
  end;;
  add_predicate predicate 1;;
  w ← get;
  match node_catalog (self w) !! u with
  | None =>
      print ("Edge 'subject' node ID '" +:+ u +:+ "' not found in node catalog? Ignoring...");;
      modify (on_self (set_edge_record_count (λ c, c - 1)));;
      add_predicate predicate (-1)
  | Some subj_cats =>
      for_each subj_cats (analyse_edge_subject v data predicate);;
      mret tt
  end.

(** *** Reading the counters *)

(** [get_total_edges_count]. *)
Definition get_total_edges_count (m : mkg) : Z := edge_record_count m.

(** [get_edge_count_by_predicate], for a non-empty [predicate_curie]. *)
Definition get_edge_count_by_predicate (m : mkg) (predicate_curie : string) : Z :=
  match predicates m !! predicate_curie with
  | Some k => k
  | None => 0
  end.

(** [get_node_count_by_category], for a non-empty [category_curie]. *)
Definition get_node_count_by_category (m : mkg) (category_curie : string) : Z :=
  match node_stats m !! category_curie with
  | Some c => count c
  | None => 0
  end.

(** The counter of a triple: the [count] of its record, 0 while the
    record does not exist. *)
Definition triple_count (m : mkg) (t : triple) : Z :=
  match association_map m !! t with
  | Some a => a_count a
  | None => 0
  end.

(** Membership in the [relations] of a triple's record. *)
Definition has_relation (m : mkg) (t : triple) (relation : string) : Prop :=
  match association_map m !! t with
  | Some a => match a_relations a with
              | RelSet s => relation ∈ s
              | RelList l => relation ∈ l
              end
  | None => False
  end.

(** *** The summary *)

(** [get_node_stats] drops the ['unknown'] category when nothing was
    counted under it, and returns [self.node_stats] itself. *)
Definition get_node_stats : M world (gmap string Category) :=
  w ← get;
  match node_stats (self w) !! "unknown" with
  | Some c =>
      if bool_decide (count c = 0)
      then modify (on_self (set_node_stats (delete "unknown")))
      else mret tt
  | None => mret tt
  end;;
  w ← get;
  mret (node_stats (self w)).

(** [kedge['relations'] = list(v['relations'])], in place. *)
Definition listify (a : association) : association :=
  mkAssociation (a_subject a) (a_predicate a) (a_object a)
    (RelList match a_relations a with
             | RelSet s => elements s
             | RelList l => l
             end)
    (a_count a) (a_count_by_source a).

(** The records a list of references stands for. *)
Definition deref (am : gmap triple association) (refs : list triple) : list association :=
  omap (λ t, am !! t) refs.

(** [get_edge_stats]: computed when [self.edge_stats] is empty, and then
    it rewrites every record of [association_map] and appends a reference
    to it.  Python visits the records in the order in which their keys
    were inserted; a finite map does not keep that order, and here the
    records are listed in the key order of the map.  What is stated
    about this list is therefore stated up to its order. *)
Definition get_edge_stats : M world (list association) :=
  w ← get;
  match edge_stats (self w) with
  | [] =>
      modify (on_self (set_association_map (fmap listify)));;
      modify (on_self (set_edge_stats (λ _, (map_to_list (association_map (self w))).*1)))
  | _ :: _ => mret tt
  end;;
  w ← get;
  mret (deref (association_map (self w)) (edge_stats (self w))).

(** The dictionary [self.graph_stats] as a value: its ['nodes'] and
    ['edges'] entries read through the objects they refer to. *)
Record graph_summary : Type := GraphSummary {
  s_nodes : gmap string Category;
  s_edges : list association;
  s_name : string }.

Definition read_graph_stats (m : mkg) : option graph_summary :=
  match graph_stats m with
  | Some nm =>
      Some (GraphSummary (node_stats m) (deref (association_map m) (edge_stats m)) nm)
  | None => None
  end.

(** [get_graph_summary]; [None] is returned only for the empty
    dictionary, which the method never returns. *)
Definition get_graph_summary (name_arg : option string) : M world (option graph_summary) :=
  w ← get;
  match graph_stats (self w) with
  | None =>
      get_node_stats;;
      get_edge_stats;;
      modify (on_self (set_graph_stats (λ _,
        Some match truthy name_arg with
             | Some nm => nm
             | None => name (self w)
             end)))
  | Some _ => mret tt
  end;;
  w ← get;
  mret (read_graph_stats (self w)).

(** *** The states of an instance that is taking records

    What holds of the class-level catalog and of an instance from its
    construction on, as long as only [analyse_node] and [analyse_edge]
    are called: the catalog has no duplicates; the indices of a node
    are distinct and assigned; a [Category] object is filed under its
    own identifier, which is in the catalog; every [count_by_source] has
    the key ['unknown']; every [relations] is still a set. *)
Record accepting (w : world) : Prop := Accepting {
  acc_curie_map : NoDup (curie_map w);
  acc_node_catalog : ∀ n cids, node_catalog (self w) !! n = Some cids →
    NoDup cids ∧ ∀ i, i ∈ cids → (i < length (curie_map w))%nat;
  acc_node_stats : ∀ key c, node_stats (self w) !! key = Some c →
    category c = key ∧ key ∈ curie_map w
    ∧ is_Some (count_by_source c !! "unknown");
  acc_association_map : ∀ t a, association_map (self w) !! t = Some a →
    is_Some (a_count_by_source a !! "unknown")
    ∧ ∃ s, a_relations a = RelSet s }.

(** [MetaKnowledgeGraph(name)] evaluated when the catalog is [cm]: the
    catalog afterwards, and the new object.  [__init__] raises nothing, so
    the second branch is never taken. *)
Definition construct (name : string) (cm : list string) : world :=
  match init name cm with
  | (cm', Ok m) => World cm' m
  | (cm', Raise _) => World cm' (Mkg name ∅ ∅ 0 ∅ ∅ [] None [])
  end.

Section Observations.
Variable get_prefix : string → option string.

(** The states reached by observing records: a new instance, created
    when the catalog of the process is [cm]; a node or an edge given to
    that instance; a category registered in the meantime by another
    instance of the process. *)
Inductive observed : world → Prop :=
| observed_new nm cm :
    NoDup cm → observed (construct nm cm)
| observed_node w n data :
    observed w → observed (analyse_node get_prefix n data w).1
| observed_edge w u v k data :
    observed w → observed (analyse_edge u v k data w).1
| observed_elsewhere w c :
    observed w → observed (World (Catalog.curie_map_add c (curie_map w)) (self w)).

End Observations.

(** *** The triples of an edge *)

(** The triples of a subject with categories [scs] and an object with
    categories [ocs], in the order in which the two loops of
    [analyse_edge] visit them. *)
Definition triples_of (p : string) (scs ocs : list string) : list triple :=
  scs ≫= λ sc, (λ oc, (sc, p, oc)) <$> ocs.

(** The state [w'] differs from [w] in [association_map] at most. *)
Definition same_but_associations (w w' : world) : Prop :=
  w' = on_self (set_association_map (λ _, association_map (self w'))) w.

(** A method keeps the property [I] of the state, whether it returns or
    raises. *)
Definition keeps (I : world → Prop) {A} (m : M world A) : Prop :=
  hoare I m (λ _, I) I.

(** *** Independence of [graph_stats] *)



End MKG.

(** ** Several instances in one process *)

Module Process.
Import MKG.

(** Two [MetaKnowledgeGraph] objects of one Python process.  Instance
    attributes are created by [__init__] and belong to one object; the
    class attribute [_category_curie_map] exists once. *)
Record process : Type := Proc {
  shared_curie_map : list string;
  first : mkg;
  second : mkg }.

(** A method called on the first, respectively the second, object. *)
Definition in_first {A} (m : M world A) : M process A :=
  λ p, let '(w, r) := m (World (shared_curie_map p) (first p)) in
       (Proc (curie_map w) (self w) (second p), r).

Definition in_second {A} (m : M world A) : M process A :=
  λ p, let '(w, r) := m (World (shared_curie_map p) (second p)) in
       (Proc (curie_map w) (first p) (self w), r).

(** The second object is created by [MetaKnowledgeGraph(name)] while
    the first exists. *)
Definition construct_second (name : string) (p : process) : process :=
  let w := construct name (shared_curie_map p) in
  Proc (curie_map w) (first p) (self w).

End Process.

(** ** Provenance normalisation ([Source._infores_processor])

    Text is modelled over the ASCII range (code points below 128), where
    the classes [\s] and [\W] and [str.lower] are as defined here. *)

Module Infores.

Definition code (c : ascii) : nat := nat_of_ascii c.

Definition between (lo hi : nat) (c : ascii) : bool :=
  (lo <=? code c)%nat && (code c <=? hi)%nat.

(** [\s], and the characters removed by [str.strip()]: tab, newline,
    vertical tab, form feed, carriage return, the four separators
    0x1c-0x1f, and the space. *)
Definition is_space (c : ascii) : bool :=
  between 9 13 c || between 28 32 c.

(** [\w]: letters, digits and the underscore; [\W] is its complement. *)
Definition is_word (c : ascii) : bool :=
  between 48 57 c || between 65 90 c || between 97 122 c || (code c =? 95)%nat.

Definition lower_char (c : ascii) : ascii :=
  if between 65 90 c then ascii_of_nat (code c + 32) else c.

(** [str.lower()]. *)
Fixpoint lower (s : string) : string :=
  match s with
  | EmptyString => ""
  | String c s' => String (lower_char c) (lower s')
  end.

Fixpoint lstrip (s : string) : string :=
  match s with
  | EmptyString => ""
  | String c s' => if is_space c then lstrip s' else s
  end.

Fixpoint rstrip (s : string) : string :=
  match s with
  | EmptyString => ""
  | String c s' =>
      match rstrip s' with
      | EmptyString => if is_space c then "" else String c ""
      | r => String c r
      end
  end.

(** [str.strip()]. *)
Definition strip (s : string) : string := rstrip (lstrip s).

(** The regular expressions that occur: a pattern without
    metacharacters, which denotes its own text; a character class; a
    character class repeated one or more times. *)
Inductive regex : Type :=
| Literal (text : string)
| OneOf (class : ascii → bool)
| OneOrMore (class : ascii → bool).

Fixpoint run_length (class : ascii → bool) (s : string) : nat :=
  match s with
  | EmptyString => 0
  | String c s' => if class c then S (run_length class s') else 0
  end.

(** Length of the match of [r] at the head of [s], if there is one. *)
Definition match_length (r : regex) (s : string) : option nat :=
  match r with
  | Literal text => if String.prefix text s then Some (String.length text) else None
  | OneOf class =>
      match s with
      | String c _ => if class c then Some 1%nat else None
      | EmptyString => None
      end
  | OneOrMore class =>
      match run_length class s with
      | O => None
      | n => Some n
      end
  end.

(** [re.sub]: scan from the left, replace each match by [repl] and go on
    behind it.  [skip] counts the characters of the current match that
    remain to be passed over.  None of the expressions above is used
    with an empty match.  The replacement is inserted as it is, which is
    what [re.sub] does with a replacement without backslash; no other
    replacement reaches this function (see [re_template]). *)
Fixpoint sub_from (r : regex) (repl : string) (skip : nat) (s : string) : string :=
  match s with
  | EmptyString => ""
  | String c s' =>
      match skip with
      | S k => sub_from r repl k s'
      | O =>
          match match_length r s with
          | Some (S k) => repl +:+ sub_from r repl k s'
          | _ => String c (sub_from r repl 0 s')
          end
      end
  end.

Definition re_sub (r : regex) (repl : string) (s : string) : string :=
  sub_from r repl 0 s.

Definition is_meta (c : ascii) : bool :=
  bool_decide (c ∈ [("."%char); "^"%char; "$"%char; "*"%char; "+"%char; "?"%char;
                    "{"%char; "}"%char; "["%char; "]"%char; "\"%char; "|"%char;
                    "("%char; ")"%char]).

Fixpoint has_meta (s : string) : bool :=
  match s with
  | EmptyString => false
  | String c s' => is_meta c || has_meta s'
  end.

(** [re.compile] on the patterns without metacharacters; the other
    patterns are outside this model ([None]). *)
Definition re_compile (pattern : string) : option regex :=
  if has_meta pattern then None else Some (Literal pattern).

(** ["\\" in s]. *)
Fixpoint has_backslash (s : string) : bool :=
  match s with
  | EmptyString => false
  | String c s' => Ascii.eqb c "\"%char || has_backslash s'
  end.

(** The replacement that [_filter.sub] is given is a template, in which
    a backslash starts an escape or a reference to a group.  A
    replacement without backslash denotes its own text; the others are
    outside this model ([None]). *)
Definition re_template (repl : string) : option string :=
  if has_backslash repl then None else Some repl.

(** The three variables [_filter], [_substr] and [_prefix] that
    [_infores_processor] derives from its [infores_rewrite_filter]
    argument and that its inner functions close over. *)
Record rewrite : Type := Rewrite {
  _filter : option regex;
  _substr : string;
  _prefix : string }.

(** Lines 64-71.  The argument is [None] or a tuple of strings; an empty
    tuple and an empty pattern are false.  The outer [None] is a pattern,
    or a replacement for the matches of a pattern, outside the model. *)
Definition rewrite_of (infores_rewrite_filter : option (list string)) : option rewrite :=
  match infores_rewrite_filter with
  | None | Some [] => Some (Rewrite None "" "")
  | Some (pattern :: rest) =>
      let substr := match rest with s :: _ => s | [] => "" end in
      let prefix := match rest with _ :: p :: _ => p | _ => "" end in
      match pattern with
      | EmptyString => Some (Rewrite None substr prefix)
      | _ =>
          f ← re_compile pattern;
          repl ← re_template substr;
          Some (Rewrite (Some f) repl prefix)
      end
  end.

(** The inner function [_process_infores]. *)
Definition _process_infores (rw : rewrite) (source : string) : string :=
  let infores := match _filter rw with
                 | Some f => re_sub f (_substr rw) source
                 | None => source
                 end in
  let infores := _prefix rw +:+ " " +:+ infores in
  let infores := strip infores in
  let infores := lower infores in
  let infores := re_sub (OneOrMore is_space) "_" infores in
  let infores := re_sub (OneOf (λ c, negb (is_word c))) "" infores in
  let infores := re_sub (Literal "_") "-" infores in
  infores.

(** The attributes of a [Source] that the parsers use. *)
Record source_state : Type := SourceState {
  default_provenance : string;
  _infores_catalog : gmap string (gset string) }.

(** [Source._infores_to_catalog]. *)
Definition _infores_to_catalog (infores source : string) : M source_state unit :=
  modify (λ s, SourceState (default_provenance s)
    (<[infores := default ∅ (_infores_catalog s !! infores) ∪ {[source]}]> (_infores_catalog s))).

(** The inner function [parser_list]. *)
Fixpoint parser_list_loop (rw : rewrite) (sources : list string) : M source_state (list string) :=
  match sources with
  | [] => mret []
  | source :: rest =>
      let infores := _process_infores rw source in
      match infores with
      | EmptyString => parser_list_loop rw rest
      | _ =>
          _infores_to_catalog infores source;;
          results ← parser_list_loop rw rest;
          mret (infores :: results)
      end
  end.

Definition parser_list (rw : rewrite) (sources : option (list string)) : M source_state (list string) :=
  match sources with
  | None | Some [] => s ← get; mret [default_provenance s]
  | Some sources => parser_list_loop rw sources
  end.

(** The inner function [parser_scalar]; the result [None] is Python's
    [None]. *)
Definition parser_scalar (rw : rewrite) (source : option string) : M source_state (option string) :=
  match source with
  | None | Some EmptyString => s ← get; mret (Some (default_provenance s))
  | Some source =>
      let infores := _process_infores rw source in
      match infores with
      | EmptyString => mret None
      | _ => _infores_to_catalog infores source;; mret (Some infores)
      end
  end.

(** What [_infores_processor] returns: one of its two inner functions. *)
Inductive parser : Type :=
| ParserList (f : option (list string) → M source_state (list string))
| ParserScalar (f : option string → M source_state (option string)).

Section WithColumnTypes.

(** [ksf in column_types and column_types[ksf] == list], for the table
    [column_types] of [kgx.utils.kgx_utils], which is not among the
    sources. *)
Variable is_list_column : string → bool.

(** [Source._infores_processor]. *)
Definition _infores_processor (ksf : string)
    (infores_rewrite_filter : option (list string)) : option parser :=
  rw ← rewrite_of infores_rewrite_filter;
  Some (if is_list_column ksf then ParserList (parser_list rw)
        else ParserScalar (parser_scalar rw)).

(** The outcome for one raw source under the rewrite rule [rule], on all
    paths: [_process_infores] yields [infores]; the scalar parser and the
    list parser return it and file the raw source under it in
    [_infores_catalog]; and [_infores_processor] hands out these parsers. *)
Definition normalises_to (ksf : string) (rule : option (list string))
    (st : source_state) (raw infores : string) : Prop :=
  let st' := SourceState (default_provenance st)
               (<[infores := default ∅ (_infores_catalog st !! infores) ∪ {[raw]}]>
                  (_infores_catalog st)) in
  ∃ rw,
    rewrite_of rule = Some rw
    ∧ _process_infores rw raw = infores
    ∧ parser_scalar rw (Some raw) st = (st', Ok (Some infores))
    ∧ parser_list rw (Some [raw]) st = (st', Ok [infores])
    ∧ _infores_processor ksf rule
      = Some (if is_list_column ksf then ParserList (parser_list rw)
              else ParserScalar (parser_scalar rw)).

End WithColumnTypes.

End Infores.

(** ** Record filters ([Source.check_node_filter], [Source.check_edge_filter]) *)

Module Filter.

(** A property value of a record: a string, or a list of strings
    (as ['category'] and ['provided_by'] are). *)
Inductive value : Type :=
| VStr (s : string)
| VList (l : list string).

(** A filter value, by the [isinstance] tests of the checks: a list, set
    or tuple (its elements), a string, or an object of another type (the
    name of the type). *)
Inductive filter_value : Type :=
| FColl (xs : list string)
| FStr (s : string)
| FOther (type_name : string).

(** [x in s] for two strings: [x] occurs in [s]. *)
Fixpoint occurs_in (x s : string) : bool :=
  String.prefix x s ||
  match s with
  | EmptyString => false
  | String _ s' => occurs_in x s'
  end.

(** [x in node[k]]. *)
Definition py_in (x : string) (v : value) : bool :=
  match v with
  | VStr s => occurs_in x s
  | VList l => bool_decide (x ∈ l)
  end.

(** [node[k] == v] for a string [v]. *)
Definition py_eq_str (rv : value) (v : string) : bool :=
  match rv with
  | VStr s => bool_decide (s = v)
  | VList _ => false
  end.

(** The loop of [check_node_filter] over [self.node_filters.items()],
    with the current value of [pass_filter].  The result is the value
    returned and the lines given to [log.error]. *)
Fixpoint node_filter_loop (items : list (string * filter_value))
    (node : gmap string value) (pass_filter : bool) : bool * list string :=
  match items with
  | [] => (pass_filter, [])
  | (k, v) :: rest =>
      match node !! k with
      | Some rv =>
          match v with
          | FColl xs =>
              if existsb (λ x, py_in x rv) xs then node_filter_loop rest node true
              else (false, [])
          | FStr s =>
              if py_eq_str rv s then node_filter_loop rest node true
              else (false, [])
          | FOther ty =>
              (false, ["Unexpected " +:+ k +:+ " node filter of type " +:+ ty])
          end
      | None => (false, [])
      end
  end.

(** [Source.check_node_filter]; an empty dictionary is false. *)
Definition check_node_filter (node_filters : list (string * filter_value))
    (node : gmap string value) : bool * list string :=
  match node_filters with
  | [] => (true, [])
  | _ => node_filter_loop node_filters node false
  end.

(** [k in {'subject_category', 'object_category'}]. *)
Definition is_category_key (k : string) : bool :=
  bool_decide (k = "subject_category") || bool_decide (k = "object_category").

Fixpoint edge_filter_loop (items : list (string * filter_value))
    (edge : gmap string value) (pass_filter : bool) : bool * list string :=
  match items with
  | [] => (pass_filter, [])
  | (k, v) :: rest =>
      if is_category_key k then edge_filter_loop rest edge true
      else
        match edge !! k with
        | Some rv =>
            match v with
            | FColl xs =>
                if existsb (λ x, py_in x rv) xs then edge_filter_loop rest edge true
                else (false, [])
            | FStr s =>
                if py_eq_str rv s then edge_filter_loop rest edge true
                else (false, [])
            | FOther ty =>
                (false, ["Unexpected " +:+ k +:+ " edge filter of type " +:+ ty])
            end
        | None => (false, [])
        end
  end.

(** [Source.check_edge_filter]. *)
Definition check_edge_filter (edge_filters : list (string * filter_value))
    (edge : gmap string value) : bool * list string :=
  match edge_filters with
  | [] => (true, [])
  | _ => edge_filter_loop edge_filters edge false
  end.

(** *** The admission rule in the words of the specification *)

(** The strings a record value consists of. *)
Definition value_items (rv : value) : list string :=
  match rv with
  | VStr s => [s]
  | VList l => l
  end.

(** "the record's value intersects (for set/list filter values) or
    equals (for scalar filter values) the filter's value". *)
Definition spec_satisfies (fv : filter_value) (rv : value) : Prop :=
  match fv with
  | FColl xs => ∃ x, x ∈ xs ∧ x ∈ value_items rv
  | FStr s => rv = VStr s
  | FOther _ => False
  end.

(** "for every filter key present in [filter_set], the record has that
    key AND the record's value intersects or equals the filter's
    value". *)
Definition spec_admits (filter_set : list (string * filter_value))
    (record : gmap string value) : Prop :=
  ∀ k fv, (k, fv) ∈ filter_set →
    ∃ rv, record !! k = Some rv ∧ spec_satisfies fv rv.

(** *** The admission rule as the code tests it *)

Definition satisfies (fv : filter_value) (rv : value) : Prop :=
  match fv with
  | FColl xs => ∃ x, x ∈ xs ∧ py_in x rv = true
  | FStr s => rv = VStr s
  | FOther _ => False
  end.

Definition admits (filter_set : list (string * filter_value))
    (record : gmap string value) : Prop :=
  ∀ k fv, (k, fv) ∈ filter_set →
    ∃ rv, record !! k = Some rv ∧ satisfies fv rv.

Definition admits_edge (filter_set : list (string * filter_value))
    (record : gmap string value) : Prop :=
  ∀ k fv, (k, fv) ∈ filter_set → is_category_key k = false →
    ∃ rv, record !! k = Some rv ∧ satisfies fv rv.

End Filter.

(** ** Concrete runs *)

Module Scenario.
Import MKG Process.

(** Modelled from the spec: [PrefixManager.get_prefix], whose module
    [kgx.prefix_manager] is not among the sources.  A CURIE is a
    "prefix:local-identifier" string; the prefix is the text before the
    first colon, and an identifier without a colon has no prefix. *)
Fixpoint curie_prefix (s : string) : option string :=
  match s with
  | EmptyString => None
  | String c s' =>
      if Ascii.eqb c ":"%char then Some ""
      else String c <$> curie_prefix s'
  end.

(** The state a method leaves behind. *)
Definition after {A} (m : M world A) (w : world) : world := (m w).1.

(** A first instance in a new process. *)
Definition fresh : world := construct "g" [].

Definition gene_node : node_data := NodeData (Some ["biolink:Gene"]) None.
Definition protein_node : node_data := NodeData (Some ["biolink:Protein"]) None.


(** The scenario of the specification: two nodes, then an edge. *)
Definition with_gene : world :=
  after (analyse_node curie_prefix "X:1" gene_node) fresh.

Definition two_nodes : world :=
  after (analyse_node curie_prefix "X:2"
           (NodeData (Some ["biolink:Protein|biolink:Gene"]) (Some ["infores:test"])))
        with_gene.

Definition interacts : edge_data :=
  EdgeData (Some "biolink:interacts_with") (Some "RO:1") None.

(** The state after the edge, and after the summary has then been built. *)
Definition with_edge : world :=
  after (analyse_edge "X:1" "X:2" "e1" interacts) two_nodes.

Definition with_edge_finalized : world :=
  after (get_graph_summary None) with_edge.

(** A node without ['category']. *)
Definition with_uncategorised : world :=
  after (analyse_node curie_prefix "X:0" (NodeData None None)) fresh.

(** Two instances created one after the other in a new process. *)
Definition both : process :=
  let w1 := construct "first" [] in
  construct_second "second" (Proc (curie_map w1) (self w1) (self w1)).

(** The second instance observes a protein; in [protein_after_gene] the
    first instance has observed a gene before. *)
Definition protein_alone : process :=
  (in_second (analyse_node curie_prefix "Y:1" protein_node) both).1.

Definition protein_after_gene : process :=
  (in_second (analyse_node curie_prefix "Y:1" protein_node)
     (in_first (analyse_node curie_prefix "X:1" gene_node) both).1).1.

End Scenario.

(** ** [MetaKnowledgeGraph]: the counts and the graph summaries *)

Module Report.
Import MKG.

(** [get_total_nodes_count]: [len(self.node_catalog)]. *)
Definition get_total_nodes_count (m : mkg) : nat := size (node_catalog m).

(** [get_number_of_categories]:
    [len([c for c in self.node_stats.keys() if c != 'unknown'])]. *)
Definition get_number_of_categories (m : mkg) : nat :=
  length (filter (λ c, c ≠ "unknown") (map_to_list (node_stats m)).*1).

(** [get_total_node_counts_across_categories]: the loop
    [for category in self.node_stats.values(): count += category.get_count()]. *)
Definition get_total_node_counts_across_categories (m : mkg) : Z :=
  foldl (λ total c, total + count c) 0 (map_to_list (node_stats m)).*2.

(** [get_predicate_count]: [len(self.predicates)]. *)
Definition get_predicate_count (m : mkg) : nat := size (predicates m).

(** [get_edge_mapping_count]: [len(self.get_edge_stats())]. *)
Definition get_edge_mapping_count : M world nat :=
  stats ← get_edge_stats;
  mret (length stats).

(** [get_total_edge_counts_across_mappings]: the loop
    [for edge in self.get_edge_stats(): count += edge['count']]. *)
Definition get_total_edge_counts_across_mappings : M world Z :=
  stats ← get_edge_stats;
  mret (foldl (λ total e, total + a_count e) 0 stats).

(** What the iterators [graph.nodes(data=True)] and
    [graph.edges(keys=True, data=True)] of a [BaseGraph] yield; the class
    [kgx.graph.base_graph.BaseGraph] is not among the sources. *)
Record graph : Type := Graph {
  g_nodes : list (string * node_data);
  g_edges : list (string * string * string * edge_data) }.

(** [for x in l: body(x)] for a body without [return]. *)
Definition for_all {S A} (l : list A) (body : A → M S unit) : M S unit :=
  for_each l (λ x, body x;; mret Next);; mret tt.

Section WithPrefixManager.
Variable get_prefix : string → option string.

(** [summarize_graph_nodes]. *)
Definition summarize_graph_nodes (g : graph) : M world (gmap string Category) :=
  for_all (g_nodes g) (λ '(n, data), analyse_node get_prefix n data);;
  get_node_stats.

(** [summarize_graph_edges]. *)
Definition summarize_graph_edges (g : graph) : M world (list association) :=
  for_all (g_edges g) (λ '(u, v, k, data), analyse_edge u v k data);;
  get_edge_stats.

(** The method [MetaKnowledgeGraph.summarize_graph]. *)
Definition summarize_graph (g : graph) (name_arg : option string)
    : M world (option graph_summary) :=
  w ← get;
  match graph_stats (self w) with
  | None =>
      summarize_graph_nodes g;;
      summarize_graph_edges g;;
      modify (on_self (set_graph_stats (λ _,
        Some match truthy name_arg with
             | Some nm => nm
             | None => name (self w)
             end)))
  | Some _ => mret tt
  end;;
  w ← get;
  mret (read_graph_stats (self w)).

(** The streaming use of the class: every node, then every edge, is given
    to the instance, and the summary is asked for with
    [get_graph_summary]. *)
Definition observe_then_summarize (g : graph) (name_arg : option string)
    : M world (option graph_summary) :=
  for_all (g_nodes g) (λ '(n, data), analyse_node get_prefix n data);;
  for_all (g_edges g) (λ '(u, v, k, data), analyse_edge u v k data);;
  get_graph_summary name_arg.

End WithPrefixManager.

End Report.

(** ** The alphabet of the provenance identifiers *)

Module Charset.
Import Infores.

(** Every character of [s] satisfies [P]. *)
Fixpoint all_chars (P : ascii → bool) (s : string) : bool :=
  match s with
  | EmptyString => true
  | String c s' => P c && all_chars P s'
  end.

(** The range on which the text functions of [Infores] are those of
    Python. *)
Definition is_ascii (c : ascii) : bool := (code c <? 128)%nat.

(** A lower-case letter, a digit or the hyphen. *)
Definition is_infores_char (c : ascii) : bool :=
  between 97 122 c || between 48 57 c || (code c =? 45)%nat.

End Charset.

(** ** Setting the record filters ([Source.set_node_filter],
       [Source.set_edge_filter], [Source.set_node_filters],
       [Source.set_edge_filters])

    A filter value is a string or a [set] (the types the docstrings
    name).  A [set] is a mutable object: the dictionaries hold references
    to it, and two entries may hold the same reference. *)

Module Setters.

(** A filter value: a string, or the address of a [set] object. *)
Inductive value : Type :=
| VStr (s : string)
| VSet (addr : nat).

(** The [set] objects, and the two filter dictionaries of a [Source]. *)
Record filters : Type := Filters {
  heap : gmap nat (gset string);
  node_filters : gmap string value;
  edge_filters : gmap string value }.

Inductive error : Type :=
| TypeError (message : string)
| AttributeError (attr : string).

Inductive outcome (A : Type) : Type :=
| Returns (a : A)
| Raises (e : error).
Global Arguments Returns {A} a.
Global Arguments Raises {A} e.

(** A method body over the filters. *)
Definition E (A : Type) : Type := filters → filters * outcome A.

Global Instance E_ret : MRet E := λ A a st, (st, Returns a).
Global Instance E_bind : MBind E := λ A B k m st,
  match m st with
  | (st', Returns a) => k a st'
  | (st', Raises e) => (st', Raises e)
  end.

Definition raise {A} (e : error) : E A := λ st, (st, Raises e).
Definition get : E filters := λ st, (st, Returns st).
Definition modify (f : filters → filters) : E unit := λ st, (f st, Returns tt).

(** The elements of the object at an address. *)
Definition contents (st : filters) (addr : nat) : gset string :=
  default ∅ (heap st !! addr).

(** The characters of a string, which are what iterating over it
    yields. *)
Fixpoint characters (s : string) : list string :=
  match s with
  | EmptyString => []
  | String c s' => String c "" :: characters s'
  end.

(** What iterating over a value yields. *)
Definition items (st : filters) (v : value) : gset string :=
  match v with
  | VStr s => list_to_set (characters s)
  | VSet addr => contents st addr
  end.

(** [target.update(v)]: a [set] takes up the items of [v]; a string
    has no method [update]. *)
Definition update (target v : value) : E unit :=
  match target with
  | VSet addr =>
      modify (λ st, Filters (<[addr := contents st addr ∪ items st v]> (heap st))
                            (node_filters st) (edge_filters st))
  | VStr _ => raise (AttributeError "update")
  end.

(** [if key in self.node_filters: self.node_filters[key].update(value)
     else: self.node_filters[key] = value]. *)
Definition update_node_filter (key : string) (v : value) : E unit :=
  st ← get;
  match node_filters st !! key with
  | Some target => update target v
  | None => modify (λ st, Filters (heap st) (<[key := v]> (node_filters st))
                                  (edge_filters st))
  end.

(** The same on [self.edge_filters]. *)
Definition update_edge_filter (key : string) (v : value) : E unit :=
  st ← get;
  match edge_filters st !! key with
  | Some target => update target v
  | None => modify (λ st, Filters (heap st) (node_filters st)
                                  (<[key := v]> (edge_filters st)))
  end.

(** [Source.set_node_filter]. *)
Definition set_node_filter (key : string) (v : value) : E unit :=
  (if bool_decide (key = "category") then
     match v with
     | VSet _ =>
         update_edge_filter "subject_category" v;;
         update_edge_filter "object_category" v
     | VStr _ =>
         raise (TypeError "'category' node filter should have a value of type 'set'")
     end
   else mret tt);;
  update_node_filter key v.

(** [Source.set_edge_filter]. *)
Definition set_edge_filter (key : string) (v : value) : E unit :=
  (if bool_decide (key = "subject_category") || bool_decide (key = "object_category")
   then
     match v with
     | VSet _ => update_node_filter "category" v
     | VStr _ =>
         raise (TypeError ("'" +:+ key +:+ "' edge filter should have a value of type 'set'"))
     end
   else mret tt);;
  update_edge_filter key v.

(** A value of the dictionary given to [set_node_filters] or
    [set_edge_filters]: a list, set or tuple (its elements), or a
    string. *)
Inductive given : Type :=
| GCollection (xs : list string)
| GStr (s : string).

(** [set(v)]: a new object. *)
Definition new_set (xs : list string) : E value :=
  st ← get;
  let addr := fresh (dom (heap st)) in
  modify (λ st, Filters (<[addr := list_to_set xs]> (heap st))
                        (node_filters st) (edge_filters st));;
  mret (VSet addr).

(** The argument that [set_node_filters] and [set_edge_filters] pass
    on: [set(v)] for a list, set or tuple, and [v] otherwise. *)
Definition passed (v : given) : E value :=
  match v with
  | GCollection xs => new_set xs
  | GStr s => mret (VStr s)
  end.

(** [Source.set_node_filters]; the loop over an empty dictionary does
    nothing, as the test [if filters:] requires. *)
Fixpoint set_node_filters (fs : list (string * given)) : E unit :=
  match fs with
  | [] => mret tt
  | (k, v) :: rest =>
      arg ← passed v;
      set_node_filter k arg;;
      set_node_filters rest
  end.

(** [Source.set_edge_filters]. *)
Fixpoint set_edge_filters (fs : list (string * given)) : E unit :=
  match fs with
  | [] => mret tt
  | (k, v) :: rest =>
      arg ← passed v;
      set_edge_filter k arg;;
      set_edge_filters rest
  end.

(** The filter under [key] read as a set, when it is one. *)
Definition read_set (st : filters) (d : gmap string value) (key : string)
    : option (gset string) :=
  match d !! key with
  | Some (VSet addr) => Some (contents st addr)
  | _ => None
  end.

(** [Source.__init__]: no filters. *)
Definition init : filters := Filters ∅ ∅ ∅.

End Setters.

(** ** The filters that the checks read *)

Module Filtering.
Import Setters.

(** A filter value as [check_node_filter] and [check_edge_filter] see
    it: the elements of a set, or a string. *)
Definition as_filter_value (st : filters) (v : value) : Filter.filter_value :=
  match v with
  | VStr s => Filter.FStr s
  | VSet addr => Filter.FColl (elements (contents st addr))
  end.

(** The entries of [self.node_filters], read through the set objects. *)
Definition node_entries (st : filters) : gmap string Filter.filter_value :=
  as_filter_value st <$> node_filters st.

(** [items] lists the entries of the dictionary [d], in some order. *)
Definition lists_entries (items : list (string * Filter.filter_value))
    (d : gmap string Filter.filter_value) : Prop :=
  items ≡ₚ map_to_list d.

End Filtering.

(** ** More concrete records *)

Module Cases.
Import MKG Scenario.

(** A node whose ['category'] names [biolink:Gene] twice, once in a piped
    value. *)
Definition twice_gene : list string :=
  ["biolink:Protein|biolink:Gene"; "biolink:Gene"].

Definition twice_gene_node : node_data := NodeData (Some twice_gene) None.

(** A node without ['category']. *)
Definition uncategorised_node : node_data := NodeData None None.

(** The [Category] object that [__init__] files under ['unknown']. *)
Definition unknown_category : Category :=
  mkCategory "unknown" ∅ 0 {["unknown" := 0]}.

(** The graph of the scenario: two nodes and an edge between them. *)
Definition small_graph : Report.graph :=
  Report.Graph
    [("X:1", gene_node);
     ("X:2", NodeData (Some ["biolink:Protein|biolink:Gene"]) (Some ["infores:test"]))]
    [("X:1", "X:2", "e1", interacts)].

(** The edge of the scenario with another relation, and in the other
    direction. *)
Definition interacts_otherwise : edge_data :=
  EdgeData (Some "biolink:interacts_with") (Some "RO:2") None.

Definition reverse_edges : list (string * string * string * edge_data) :=
  [("X:2", "X:1", "e2", interacts)].

(** A node named by two sources, one of them twice. *)
Definition sourced_node : node_data :=
  NodeData None (Some ["infores:a"; "infores:b"; "infores:a"]).

(** The rewrite rule [('Initiative', '', 'infores')]. *)
Definition initiative_rule : Infores.rewrite :=
  Infores.Rewrite (Some (Infores.Literal "Initiative")) "" "infores".

(** An edge record without ['relation'], as a parser of N-Triples
    yields it, and one named twice by a source. *)
Definition unrelated_edge : edge_data :=
  EdgeData (Some "biolink:interacts_with") None None.

Definition sourced_edge : edge_data :=
  EdgeData (Some "biolink:interacts_with") (Some "RO:1")
           (Some ["infores:a"; "infores:a"]).

(** Two filters in either order, and a record for them. *)
Definition two_filters : list (string * Filter.filter_value) :=
  [("category", Filter.FColl ["biolink:Gene"]); ("name", Filter.FStr "BRCA1")].

Definition two_filters_swapped : list (string * Filter.filter_value) :=
  [("name", Filter.FStr "BRCA1"); ("category", Filter.FColl ["biolink:Gene"])].

Definition brca1 : gmap string Filter.value :=
  {["category" := Filter.VList ["biolink:Gene"]; "name" := Filter.VStr "BRCA1"]}.

(** The rule of [initiative_rule] as [_infores_processor] is given it. *)
Definition initiative_tuple : option (list string) :=
  Some ["Initiative"; ""; "infores"].

(** Two sources, of which the second is normalised to the empty
    identifier, and a [Source] that has filed nothing. *)
Definition two_sources : list string := ["Monarch Initiative"; "  "].

Definition no_sources_filed : Infores.source_state :=
  Infores.SourceState "Graph" ∅.

(** A [Source] without filters and two [set] objects that its caller
    holds; and the same after [set_node_filter('category', ...)] with the
    first of them. *)
Definition two_sets : Setters.filters :=
  Setters.Filters
    {[0%nat := {["biolink:Gene"]}; 1%nat := {["biolink:Disease"]}]} ∅ ∅.

Definition gene_filtered : Setters.filters :=
  (Setters.set_node_filter "category" (Setters.VSet 0) two_sets).1.

End Cases.

(** * Properties *)

(** ** The monad *)

Lemma bind_run {S A B} (m : M S A) (k : A → M S B) (s : S) :
  (m ≫= k) s = match m s with
               | (s', Ok a) => k a s'
               | (s', Raise e) => (s', Raise e)
               end.
Proof. reflexivity. Qed.

Lemma ret_run {S A} (a : A) (s : S) : (mret a : M S A) s = (s, Ok a).
Proof. reflexivity. Qed.

Ltac run_step :=
  repeat first
    [ rewrite bind_run
    | rewrite ret_run
    | progress unfold zoom, get, modify, raise
    | progress cbv beta iota zeta delta [fst snd] ].

Section HoareRules.
Context {S : Type}.
Implicit Types (P E : S → Prop).

Lemma hoare_ret {A} P E (Q : A → S → Prop) (a : A) :
  (∀ s, P s → Q a s) → hoare P (mret a) Q E.
Proof. intros H s Hs. by apply H. Qed.

Lemma hoare_raise {A} P E (Q : A → S → Prop) e :
  (∀ s, P s → E s) → hoare P (raise e : M S A) Q E.
Proof. intros H s Hs. by apply H. Qed.

Lemma hoare_modify P E (Q : unit → S → Prop) (f : S → S) :
  (∀ s, P s → Q tt (f s)) → hoare P (modify f) Q E.
Proof. intros H s Hs. by apply H. Qed.

Lemma hoare_bind {A B} P E (R : A → S → Prop) (Q : B → S → Prop)
    (m : M S A) (k : A → M S B) :
  hoare P m R E → (∀ a, hoare (R a) (k a) Q E) → hoare P (m ≫= k) Q E.
Proof.
  intros Hm Hk s Hs. rewrite bind_run. specialize (Hm s Hs).
  destruct (m s) as [s1 [a|e]]; [by apply Hk|done].
Qed.

Lemma hoare_get_bind {B} P E (Q : B → S → Prop) (k : S → M S B) :
  (∀ s0, hoare (λ s, s = s0 ∧ P s0) (k s0) Q E) → hoare P (get ≫= k) Q E.
Proof. intros Hk s Hs. rewrite bind_run. unfold get. by apply Hk. Qed.

Lemma hoare_weaken {A} P P' E (Q Q' : A → S → Prop) (m : M S A) :
  hoare P' m Q' E → (∀ s, P s → P' s) → (∀ a s, Q' a s → Q a s) →
  hoare P m Q E.
Proof.
  intros Hm HP HQ s Hs. specialize (Hm s (HP s Hs)).
  destruct (m s) as [s1 [a|e]]; [by apply HQ|done].
Qed.

(** A loop keeps what every iteration keeps. *)
Lemma hoare_for_each {A} (I : S → Prop) (body : A → M S flow) (l : list A) :
  (∀ x, x ∈ l → hoare I (body x) (λ _, I) I) →
  hoare I (for_each l body) (λ _, I) I.
Proof.
  induction l as [|x l IH]; intros Hbody; simpl.
  - by apply hoare_ret.
  - eapply hoare_bind; [apply Hbody; left|].
    intros []; [|by apply hoare_ret].
    apply IH. intros y Hy. apply Hbody. by right.
Qed.

Lemma hoare_zoom {T A} P E (Q : A → S → Prop) (proj : S → T) (upd : T → S → S)
    (m : M T A) :
  (∀ s, P s →
     match m (proj s) with
     | (t, Ok a) => Q a (upd t s)
     | (t, Raise _) => E (upd t s)
     end) →
  hoare P (zoom proj upd m) Q E.
Proof.
  intros H s Hs. unfold zoom. specialize (H s Hs).
  by destruct (m (proj s)) as [t [a|e]].
Qed.

(** What a body leaves behind, whatever its outcome. *)
Lemma hoare_final {A} P (I : S → Prop) (m : M S A) s :
  hoare P m (λ _, I) I → P s → I (m s).1.
Proof.
  intros Hm Hs. specialize (Hm s Hs). by destruct (m s) as [s1 [a|e]].
Qed.

End HoareRules.

(** ** The category catalog *)

Section CatalogFacts.
Import Catalog.
Implicit Types (c : string) (cm : list string) (i : nat).

Lemma list_index_lookup c cm i : list_index c cm = Some i → cm !! i = Some c.
Proof.
  revert i. induction cm as [|y cm IH]; intros i; simpl; [done|].
  case_decide as Hy.
  - intros [= <-]. by subst.
  - destruct (list_index c cm) as [j|] eqn:Hj; simpl; [|done].
    intros [= <-]. by apply IH.
Qed.

Lemma list_index_is_Some c cm : c ∈ cm → is_Some (list_index c cm).
Proof.
  induction cm as [|y cm IH]; simpl.
  - by intros ?%elem_of_nil.
  - intros Hc. case_decide as Hy; [by eexists|].
    apply elem_of_cons in Hc as [?|Hc]; [done|].
    destruct (IH Hc) as [j ->]. by eexists.
Qed.

Lemma list_index_app_l c cm ext i :
  list_index c cm = Some i → list_index c (cm ++ ext) = Some i.
Proof.
  revert i. induction cm as [|y cm IH]; intros i; simpl; [done|].
  case_decide; [done|].
  destruct (list_index c cm) as [j|]; simpl; [|done].
  intros [= <-]. by rewrite (IH j).
Qed.

Lemma list_index_app_fresh c cm :
  c ∉ cm → list_index c (cm ++ [c]) = Some (length cm).
Proof.
  induction cm as [|y cm IH]; simpl; intros Hc.
  - by rewrite decide_True.
  - apply not_elem_of_cons in Hc as [Hy Hc].
    rewrite decide_False by done. by rewrite IH.
Qed.

Lemma list_index_NoDup c cm i :
  NoDup cm → cm !! i = Some c → list_index c cm = Some i.
Proof.
  intros Hnd Hi.
  destruct (list_index_is_Some c cm) as [j Hj].
  { by eapply list_elem_of_lookup_2. }
  rewrite Hj. f_equal.
  apply list_index_lookup in Hj.
  by eapply NoDup_lookup.
Qed.

Lemma curie_map_add_elem c cm : c ∈ curie_map_add c cm.
Proof. unfold curie_map_add. case_decide; [done|]. set_solver. Qed.

Lemma curie_map_add_ext c cm : ∃ ext, curie_map_add c cm = cm ++ ext.
Proof.
  unfold curie_map_add. case_decide.
  - exists []. by rewrite app_nil_r.
  - by eexists.
Qed.

Lemma curie_map_add_NoDup c cm : NoDup cm → NoDup (curie_map_add c cm).
Proof.
  unfold curie_map_add. case_decide; [done|].
  intros Hnd. apply NoDup_app. split_and!; [done| |apply NoDup_singleton].
  intros x Hx ->%list_elem_of_singleton. done.
Qed.

Lemma register_run c cm :
  ∃ i, register c cm = (curie_map_add c cm, Ok i)
       ∧ list_index c (curie_map_add c cm) = Some i.
Proof.
  destruct (list_index_is_Some c (curie_map_add c cm)) as [i Hi].
  { apply curie_map_add_elem. }
  exists i. split; [|done].
  unfold register, get_cid. run_step. by rewrite Hi.
Qed.

Lemma register_all_fresh cs cm :
  NoDup cs → (∀ x, x ∈ cs → x ∉ cm) →
  register_all cs cm = (cm ++ cs, Ok (seq (length cm) (length cs))).
Proof.
  revert cm. induction cs as [|c cs IH]; intros cm Hnd Hnew; simpl.
  - by rewrite app_nil_r.
  - assert (c ∉ cm) as Hc by (apply Hnew; left).
    apply NoDup_cons in Hnd as [Hccs Hnd].
    destruct (register_run c cm) as (i & Hr & Hi).
    run_step. rewrite Hr.
    unfold curie_map_add in *. rewrite decide_False in * by done.
    rewrite list_index_app_fresh in Hi by done. injection Hi as <-.
    run_step. rewrite IH.
    + run_step. rewrite length_app, <- app_assoc. simpl.
      by replace (length cm + 1)%nat with (S (length cm)) by lia.
    + done.
    + intros x Hx [Hin| ->%list_elem_of_singleton]%elem_of_app; [|done].
      apply (Hnew x); [by right|done].
Qed.

(** C2, as the code has it.  Registering a category and looking its index
    up again gives the category back; an identifier that is already in
    the catalog keeps its index and the catalog is not modified; a new
    identifier is appended and gets the next index, which is the length
    of the catalog.  So distinct identifiers that are new to the catalog
    get, in the order in which they are first seen, the indices from the
    length of the catalog on; these are 0, 1, 2, ... when the catalog is
    empty, and only then. *)
Theorem Category_register_first_seen (cs cm : list string) (c : string) :
  (∃ i, register c cm = (curie_map_add c cm, Ok i)
        ∧ get_category_curie i (curie_map_add c cm) = (curie_map_add c cm, Ok c)
        ∧ (c ∈ cm → curie_map_add c cm = cm ∧ list_index c cm = Some i)
        ∧ (c ∉ cm → curie_map_add c cm = cm ++ [c] ∧ i = length cm))
  ∧ (NoDup cs → (∀ x, x ∈ cs → x ∉ cm) →
     register_all cs cm = (cm ++ cs, Ok (seq (length cm) (length cs))))
  ∧ (NoDup cs → register_all cs [] = (cs, Ok (seq 0 (length cs)))).
Proof.
  split; [|split; [apply register_all_fresh|]].
  - destruct (register_run c cm) as (i & Hr & Hi).
    exists i. split_and!; [done| | |].
    + unfold get_category_curie. run_step.
      by rewrite (list_index_lookup _ _ _ Hi).
    + intros Hc. unfold curie_map_add in *.
      by rewrite decide_True in * by done.
    + intros Hc. unfold curie_map_add in *.
      rewrite decide_False in * by done.
      rewrite list_index_app_fresh in Hi by done.
      split; [done|congruence].
  - intros Hnd. apply (register_all_fresh cs []); [done|].
    by intros x _ ?%elem_of_nil.
Qed.

Lemma Category_register_first_seen_witness :
  (∃ i, register "biolink:Gene" ["unknown"]
          = (curie_map_add "biolink:Gene" ["unknown"], Ok i)
        ∧ get_category_curie i (curie_map_add "biolink:Gene" ["unknown"])
          = (curie_map_add "biolink:Gene" ["unknown"], Ok "biolink:Gene")
        ∧ ("biolink:Gene" ∈ ["unknown"] →
           curie_map_add "biolink:Gene" ["unknown"] = ["unknown"]
           ∧ list_index "biolink:Gene" ["unknown"] = Some i)
        ∧ ("biolink:Gene" ∉ ["unknown"] →
           curie_map_add "biolink:Gene" ["unknown"] = ["unknown"] ++ ["biolink:Gene"]
           ∧ i = length ["unknown"]))
  ∧ NoDup ["biolink:Gene"; "biolink:Protein"]
  ∧ (∀ x, x ∈ ["biolink:Gene"; "biolink:Protein"] → x ∉ ["unknown"])
  ∧ register_all ["biolink:Gene"; "biolink:Protein"] ["unknown"]
    = (["unknown"] ++ ["biolink:Gene"; "biolink:Protein"],
       Ok (seq (length ["unknown"]) (length ["biolink:Gene"; "biolink:Protein"])))
  ∧ register_all ["biolink:Gene"; "biolink:Protein"] []
    = (["biolink:Gene"; "biolink:Protein"],
       Ok (seq 0 (length ["biolink:Gene"; "biolink:Protein"]))).
Proof.
  assert (NoDup ["biolink:Gene"; "biolink:Protein"]) as Hnd.
  { apply NoDup_cons. split; [|apply NoDup_singleton].
    intros Hin%list_elem_of_singleton. discriminate Hin. }
  assert (∀ x, x ∈ ["biolink:Gene"; "biolink:Protein"] → x ∉ ["unknown"])
    as Hnew.
  { intros x Hx ->%list_elem_of_singleton.
    apply elem_of_cons in Hx as [Hx|Hx%list_elem_of_singleton];
      discriminate Hx. }
  destruct (Category_register_first_seen
              ["biolink:Gene"; "biolink:Protein"] ["unknown"] "biolink:Gene")
    as (H1 & H2 & _).
  destruct (Category_register_first_seen
              ["biolink:Gene"; "biolink:Protein"] [] "biolink:Gene")
    as (_ & _ & H3).
  split; [exact H1|]. split; [exact Hnd|]. split; [exact Hnew|].
  split; [exact (H2 Hnd Hnew)|exact (H3 Hnd)].
Defined.

End CatalogFacts.

(** ** Observing nodes and edges *)

Section EngineFacts.
Import MKG.
Variable get_prefix : string → option string.
Implicit Types (w : world) (n u v k : string).

Lemma add_predicate_run w p d c :
  predicates (self w) !! p = Some c →
  add_predicate p d w
  = (on_self (set_predicates (λ _, <[p := c + d]> (predicates (self w)))) w, Ok tt).
Proof.
  intros Hp. unfold add_predicate, add_at. run_step. by rewrite Hp.
Qed.

(** C5.  A node identifier that is already in the node catalog: the call
    returns normally, prints one line to the error log and changes
    nothing else; in particular the node catalog, the category
    statistics and the class-level catalog are as before. *)
Theorem analyse_node_duplicate w n data cids :
  node_catalog (self w) !! n = Some cids →
  ∃ w' line,
    analyse_node get_prefix n data w = (w', Ok tt)
    ∧ error_log (self w') = error_log (self w) ++ [line]
    ∧ node_catalog (self w') = node_catalog (self w)
    ∧ node_stats (self w') = node_stats (self w)
    ∧ curie_map w' = curie_map w
    ∧ w' = on_self (set_error_log (λ l, l ++ [line])) w.
Proof.
  intros Hn. unfold analyse_node. run_step. rewrite Hn.
  eexists _, _. split; [reflexivity|]. by split_and!.
Qed.

(** C4.  An edge whose subject is not in the node catalog: the call
    returns normally, the total edge counter and the counter of every
    predicate read as before, the association map is untouched, and one
    line is printed to the error log. *)
Theorem analyse_edge_unknown_subject w u v k data p :
  e_predicate data = Some p →
  node_catalog (self w) !! u = None →
  ∃ w' line,
    analyse_edge u v k data w = (w', Ok tt)
    ∧ get_total_edges_count (self w') = get_total_edges_count (self w)
    ∧ (∀ q, get_edge_count_by_predicate (self w') q
            = get_edge_count_by_predicate (self w) q)
    ∧ association_map (self w') = association_map (self w)
    ∧ error_log (self w') = error_log (self w) ++ [line].
Proof.
  intros Hp Hu. unfold analyse_edge, subscript. rewrite Hp. run_step. simpl.
  destruct (predicates (self w) !! p) as [c|] eqn:Hc; run_step; simpl.
  - erewrite add_predicate_run by (simpl; exact Hc). run_step. simpl. rewrite Hu.
    unfold print. run_step.
    erewrite add_predicate_run by (simpl; apply lookup_insert_eq).
    eexists _, _. split; [reflexivity|]. simpl.
    unfold get_total_edges_count, get_edge_count_by_predicate. simpl.
    split_and!; [lia| |done|done].
    intros q. rewrite insert_insert_eq.
    destruct (decide (p = q)) as [<-|Hq].
    + rewrite lookup_insert_eq, Hc. lia.
    + by rewrite lookup_insert_ne.
  - erewrite add_predicate_run by (simpl; apply lookup_insert_eq).
    run_step. simpl. rewrite Hu. unfold print. run_step.
    erewrite add_predicate_run by (simpl; apply lookup_insert_eq).
    eexists _, _. split; [reflexivity|]. simpl.
    unfold get_total_edges_count, get_edge_count_by_predicate. simpl.
    split_and!; [lia| |done|done].
    intros q. rewrite !insert_insert_eq.
    destruct (decide (p = q)) as [<-|Hq].
    + by rewrite lookup_insert_eq, Hc.
    + by rewrite lookup_insert_ne.
Qed.

(** A node without ['category'] enters the node catalog with an empty
    list of category indices, whether or not the rest of the call
    succeeds. *)
Lemma analyse_node_uncategorised w n data :
  node_catalog (self w) !! n = None →
  n_category data = None →
  node_catalog (self (analyse_node get_prefix n data w).1) !! n = Some [].
Proof.
  intros Hn Hc. unfold analyse_node. run_step. rewrite Hn. run_step.
  rewrite Hc. unfold on_category. run_step. simpl.
  destruct (node_stats (self w) !! "unknown") as [c|]; simpl.
  - destruct (analyse_node_category get_prefix n data c) as [c' [[]|e]];
      unfold print; run_step; simpl; apply lookup_insert_eq.
  - apply lookup_insert_eq.
Qed.

(** C10.  An edge whose subject is in the node catalog with an empty
    list of category indices: the call returns normally, the total edge
    counter and the counter of the edge's predicate are one higher, the
    other predicate counters, the association map and the error log are
    as before, and this is so whether or not the object [v] is in the
    node catalog.  A node observed without ['category'] has such an
    entry. *)
Theorem analyse_edge_uncategorised_subject w u v k data p n ndata :
  (e_predicate data = Some p →
   node_catalog (self w) !! u = Some [] →
   ∃ w',
     analyse_edge u v k data w = (w', Ok tt)
     ∧ get_total_edges_count (self w') = get_total_edges_count (self w) + 1
     ∧ get_edge_count_by_predicate (self w') p
       = get_edge_count_by_predicate (self w) p + 1
     ∧ (∀ q, q ≠ p → get_edge_count_by_predicate (self w') q
                     = get_edge_count_by_predicate (self w) q)
     ∧ association_map (self w') = association_map (self w)
     ∧ error_log (self w') = error_log (self w)
     ∧ node_catalog (self w') = node_catalog (self w))
  ∧ (node_catalog (self w) !! n = None →
     n_category ndata = None →
     node_catalog (self (analyse_node get_prefix n ndata w).1) !! n = Some []).
Proof.
  split; [|apply analyse_node_uncategorised].
  intros Hp Hu. unfold analyse_edge, subscript. rewrite Hp. run_step. simpl.
  destruct (predicates (self w) !! p) as [c|] eqn:Hc; run_step; simpl.
  - erewrite add_predicate_run by (simpl; exact Hc). run_step. simpl. rewrite Hu.
    simpl. run_step.
    eexists. split; [reflexivity|]. simpl.
    unfold get_total_edges_count, get_edge_count_by_predicate. simpl.
    rewrite lookup_insert_eq, Hc. split_and!; try done.
    intros q Hq. by rewrite lookup_insert_ne.
  - erewrite add_predicate_run by (simpl; apply lookup_insert_eq).
    run_step. simpl. rewrite Hu. simpl. run_step.
    eexists. split; [reflexivity|]. simpl.
    unfold get_total_edges_count, get_edge_count_by_predicate. simpl.
    rewrite insert_insert_eq, lookup_insert_eq, Hc. split_and!; try done.
    intros q Hq. rewrite lookup_insert_ne by done. done.
Qed.

(** *** The summary *)





(** *** The observation methods do not look at [graph_stats] *)














Lemma tally_source_unknown (d : gmap string Z) sources :
  is_Some (d !! "unknown") → is_Some (foldl tally_source d sources !! "unknown").
Proof.
  revert d. induction sources as [|s sources IH]; intros d Hd; simpl; [done|].
  apply IH. unfold tally_source.
  destruct (d !! s) as [c|] eqn:Hs.
  - destruct (decide (s = "unknown")) as [->|Hne].
    + rewrite lookup_insert_eq. by eexists.
    + by rewrite lookup_insert_ne.
  - destruct (decide (s = "unknown")) as [->|Hne].
    + rewrite lookup_insert_eq. by eexists.
    + by rewrite lookup_insert_ne.
Qed.

Lemma add_at_unknown (d : gmap string Z) key delta :
  is_Some (d !! "unknown") → is_Some ((add_at key delta d).1 !! "unknown").
Proof.
  intros Hd. unfold add_at. run_step.
  destruct (d !! key) as [c|] eqn:Hs; simpl; [|done].
  destruct (decide (key = "unknown")) as [->|Hne].
  - rewrite lookup_insert_eq. by eexists.
  - by rewrite lookup_insert_ne.
Qed.

(** A [Category] object keeps its identifier and its ['unknown']
    bucket. *)
Lemma analyse_node_category_keeps n data c :
  is_Some (count_by_source c !! "unknown") →
  let c' := (analyse_node_category get_prefix n data c).1 in
  category c' = category c ∧ is_Some (count_by_source c' !! "unknown").
Proof.
  intros Hu. unfold analyse_node_category. run_step.
  destruct (truthy (get_prefix n)) as [prefix|]; run_step; [|done].
  destruct (n_provided_by data) as [sources|]; run_step; simpl.
  - split; [done|]. by apply tally_source_unknown.
  - pose proof (add_at_unknown (count_by_source c) "unknown" 1 Hu) as H.
    destruct (add_at "unknown" 1 (count_by_source c)) as [d r]. by simpl in *.
Qed.

Lemma count_association_keeps data a :
  is_Some (a_count_by_source a !! "unknown") →
  (∃ s, a_relations a = RelSet s) →
  let a' := (count_association data a).1 in
  is_Some (a_count_by_source a' !! "unknown") ∧ ∃ s, a_relations a' = RelSet s.
Proof.
  intros Hu [s Hs]. unfold count_association, subscript, add_relation.
  destruct (e_relation data) as [relation|]; run_step; [|by eauto].
  rewrite Hs.
  destruct (bool_decide (relation ∈ s)); run_step; simpl;
    (destruct (e_provided_by data) as [sources|]; run_step; simpl;
     [ split; [by apply tally_source_unknown|by eauto]
     | pose proof (add_at_unknown (a_count_by_source a) "unknown" 1 Hu) as H;
       destruct (add_at "unknown" 1 (a_count_by_source a)) as [d r];
       simpl in *; split; [done|by eauto] ]).
Qed.

(** *** The invariants are kept *)

Lemma accepting_same w w' :
  curie_map w' = curie_map w →
  node_catalog (self w') = node_catalog (self w) →
  node_stats (self w') = node_stats (self w) →
  association_map (self w') = association_map (self w) →
  accepting w → accepting w'.
Proof.
  intros Hcm Hnc Hns Ham [H1 H2 H3 H4].
  split; rewrite ?Hcm, ?Hnc, ?Hns, ?Ham; done.
Qed.

Lemma accepting_catalog_add c w :
  accepting w → accepting (World (Catalog.curie_map_add c (curie_map w)) (self w)).
Proof.
  intros [H1 H2 H3 H4].
  destruct (curie_map_add_ext c (curie_map w)) as [ext Hext].
  split; simpl.
  - by apply curie_map_add_NoDup.
  - intros n cids Hn. destruct (H2 n cids Hn) as [Hnd Hlt].
    split; [done|]. intros i Hi. rewrite Hext, length_app.
    specialize (Hlt i Hi). lia.
  - intros key cat Hk. destruct (H3 key cat Hk) as (? & ? & ?).
    split_and!; [done| |done]. rewrite Hext. apply elem_of_app. by left.
  - done.
Qed.

Lemma accepting_insert_node_stats key c w :
  accepting w → category c = key → key ∈ curie_map w →
  is_Some (count_by_source c !! "unknown") →
  accepting (on_self (set_node_stats (<[key := c]>)) w).
Proof.
  intros [H1 H2 H3 H4] Hc Hk Hu. split; simpl; [done|done| |done].
  intros key' c' Hl.
  destruct (decide (key = key')) as [<-|Hne].
  - rewrite lookup_insert_eq in Hl. by simplify_eq.
  - rewrite lookup_insert_ne in Hl by done. exact (H3 _ _ Hl).
Qed.

Lemma accepting_insert_node_catalog n cids w :
  accepting w → NoDup cids →
  (∀ i, i ∈ cids → (i < length (curie_map w))%nat) →
  accepting (on_self (set_node_catalog (<[n := cids]>)) w).
Proof.
  intros [H1 H2 H3 H4] Hnd Hlt. split; simpl; [done| |done|done].
  intros n' cids' Hl.
  destruct (decide (n = n')) as [<-|Hne].
  - rewrite lookup_insert_eq in Hl. by simplify_eq.
  - rewrite lookup_insert_ne in Hl by done. exact (H2 _ _ Hl).
Qed.

Lemma accepting_insert_association t a w :
  accepting w → is_Some (a_count_by_source a !! "unknown") →
  (∃ s, a_relations a = RelSet s) →
  accepting (on_self (set_association_map (<[t := a]>)) w).
Proof.
  intros [H1 H2 H3 H4] Hu Hs. split; simpl; [done|done|done|].
  intros t' a' Hl.
  destruct (decide (t = t')) as [<-|Hne].
  - rewrite lookup_insert_eq in Hl. by simplify_eq.
  - rewrite lookup_insert_ne in Hl by done. exact (H4 _ _ Hl).
Qed.

Lemma accepting_on_category key n data :
  hoare accepting (on_category key (analyse_node_category get_prefix n data))
        (λ _, accepting) accepting.
Proof.
  intros w Hw. unfold on_category.
  destruct (node_stats (self w) !! key) as [c|] eqn:Hc; [|done].
  destruct (acc_node_stats _ Hw _ _ Hc) as (Hcat & Hin & Hu).
  pose proof (analyse_node_category_keeps n data c Hu) as [Hcat' Hu'].
  destruct (analyse_node_category get_prefix n data c) as [c' r]. simpl in *.
  assert (accepting (on_self (set_node_stats (<[key := c']>)) w)).
  { apply accepting_insert_node_stats; [done|congruence|done|done]. }
  by destruct r.
Qed.

Lemma accepting_on_association t data :
  hoare accepting (on_association t (count_association data))
        (λ _, accepting) accepting.
Proof.
  intros w Hw. unfold on_association.
  destruct (association_map (self w) !! t) as [a|] eqn:Ha; [|done].
  destruct (acc_association_map _ Hw _ _ Ha) as (Hu & Hs).
  pose proof (count_association_keeps data a Hu Hs) as [Hu' Hs'].
  destruct (count_association data a) as [a' r]. simpl in *.
  assert (accepting (on_self (set_association_map (<[t := a']>)) w)).
  { by apply accepting_insert_association. }
  by destruct r.
Qed.

Lemma accepting_print msg :
  hoare accepting (print msg) (λ _, accepting) accepting.
Proof. intros w Hw. unfold print. run_step. by apply (accepting_same w). Qed.

Lemma accepting_add_predicate p d :
  hoare accepting (add_predicate p d) (λ _, accepting) accepting.
Proof.
  intros w Hw. unfold add_predicate, zoom.
  destruct (add_at p d (predicates (self w))) as [d' [[]|e]];
    by apply (accepting_same w).
Qed.

Lemma world_eta w : World (curie_map w) (self w) = w.
Proof. by destruct w. Qed.

Lemma accepting_analyse_node_curie n data c :
  hoare accepting (analyse_node_curie get_prefix n data c)
        (λ _, accepting) accepting.
Proof.
  unfold analyse_node_curie. apply hoare_get_bind. intros w0.
  eapply hoare_weaken with (P' := accepting) (Q' := λ _, accepting);
    [|by intros s [-> ?]|done].
  eapply hoare_bind with (R := λ _, accepting).
  { destruct (node_stats (self w0) !! c).
    - by apply hoare_ret.
    - eapply hoare_bind with
        (R := λ cat w, accepting w ∧ category cat = c ∧ c ∈ curie_map w
                       ∧ is_Some (count_by_source cat !! "unknown")).
      + intros s Hw. unfold on_catalog, Category_init. run_step. simpl.
        split_and!; [by apply accepting_catalog_add|done
                    |apply curie_map_add_elem|by rewrite lookup_singleton_eq].
      + intros cat. apply hoare_modify. intros s (Hw & ? & ? & ?).
        by apply accepting_insert_node_stats. }
  intros ?. apply hoare_get_bind. intros w1.
  destruct (node_stats (self w1) !! c) as [cat|] eqn:Hc;
    [|apply hoare_raise; by intros s [-> ?]].
  eapply hoare_bind with
    (R := λ idx w, accepting w ∧ (idx < length (curie_map w))%nat).
  { intros s [-> Hw]. unfold on_catalog, Catalog.get_cid. run_step.
    destruct (list_index (category cat) (curie_map w1)) as [i|] eqn:Hi;
      run_step; simpl; rewrite world_eta; [|done].
    split; [done|]. apply list_index_lookup in Hi. by eapply lookup_lt_Some. }
  intros idx. apply hoare_get_bind. intros w2.
  eapply hoare_bind with (R := λ _, accepting).
  { destruct (node_catalog (self w2) !! n) as [cids|] eqn:Hn;
      [|apply hoare_raise; by intros s [-> [? ?]]].
    destruct (bool_decide (idx ∈ cids)) eqn:Hmem.
    - apply hoare_ret. by intros s [-> [? ?]].
    - apply hoare_modify. intros s [-> [Hw Hlt]].
      apply bool_decide_eq_false in Hmem.
      destruct (acc_node_catalog _ Hw _ _ Hn) as [Hnd Hb].
      apply accepting_insert_node_catalog; [done| |].
      + apply NoDup_app. split_and!; [done| |apply NoDup_singleton].
        intros x Hx ->%list_elem_of_singleton. done.
      + intros i [Hi| ->%list_elem_of_singleton]%elem_of_app; [by apply Hb|done]. }
  intros ?. eapply hoare_bind; [apply accepting_on_category|].
  intros ?. by apply hoare_ret.
Qed.

Lemma accepting_analyse_node n data :
  hoare accepting (analyse_node get_prefix n data) (λ _, accepting) accepting.
Proof.
  unfold analyse_node. apply hoare_get_bind. intros w0.
  eapply hoare_weaken with (P' := accepting) (Q' := λ _, accepting);
    [|by intros s [-> ?]|done].
  destruct (node_catalog (self w0) !! n); [apply accepting_print|].
  eapply hoare_bind with (R := λ _, accepting).
  { apply hoare_modify. intros s Hs.
    apply accepting_insert_node_catalog; [done|apply NoDup_nil_2|].
    by intros i ?%elem_of_nil. }
  intros ?. destruct (n_category data) as [categories|].
  - eapply hoare_bind with (R := λ _, accepting); [|intros; by apply hoare_ret].
    apply hoare_for_each. intros category_data _.
    apply hoare_for_each. intros c _. apply accepting_analyse_node_curie.
  - eapply hoare_bind; [apply accepting_on_category|].
    intros ?. apply accepting_print.
Qed.

Lemma accepting_analyse_edge_object data sc p idx :
  hoare accepting (analyse_edge_object data sc p idx) (λ _, accepting) accepting.
Proof.
  unfold analyse_edge_object.
  eapply hoare_bind with (R := λ _, accepting).
  { intros s Hs. unfold on_catalog, Catalog.get_category_curie. run_step.
    destruct (curie_map s !! idx); run_step; simpl; by rewrite world_eta. }
  intros oc. cbv zeta. apply hoare_get_bind. intros w0.
  eapply hoare_weaken with (P' := accepting) (Q' := λ _, accepting);
    [|by intros s [-> ?]|done].
  eapply hoare_bind with (R := λ _, accepting).
  { destruct (association_map (self w0) !! _).
    - by apply hoare_ret.
    - apply hoare_modify. intros s Hs.
      apply accepting_insert_association; [done| |by eexists].
      simpl. by rewrite lookup_singleton_eq. }
  intros ?. eapply hoare_bind; [apply accepting_on_association|].
  intros ?. by apply hoare_ret.
Qed.

Lemma accepting_analyse_edge_subject v data p idx :
  hoare accepting (analyse_edge_subject v data p idx) (λ _, accepting) accepting.
Proof.
  unfold analyse_edge_subject.
  eapply hoare_bind with (R := λ _, accepting).
  { intros s Hs. unfold on_catalog, Catalog.get_category_curie. run_step.
    destruct (curie_map s !! idx); run_step; simpl; by rewrite world_eta. }
  intros sc. apply hoare_get_bind. intros w0.
  eapply hoare_weaken with (P' := accepting) (Q' := λ _, accepting);
    [|by intros s [-> ?]|done].
  destruct (node_catalog (self w0) !! v) as [obj_cats|].
  - apply hoare_for_each. intros i _. apply accepting_analyse_edge_object.
  - eapply hoare_bind; [apply accepting_print|]. intros ?.
    eapply hoare_bind with (R := λ _, accepting).
    { apply hoare_modify. intros s Hs. by apply (accepting_same s). }
    intros ?. eapply hoare_bind; [apply accepting_add_predicate|].
    intros ?. by apply hoare_ret.
Qed.

Lemma accepting_analyse_edge u v k data :
  hoare accepting (analyse_edge u v k data) (λ _, accepting) accepting.
Proof.
  unfold analyse_edge.
  eapply hoare_bind with (R := λ _, accepting).
  { apply hoare_modify. intros s Hs. by apply (accepting_same s). }
  intros ?. eapply hoare_bind with (R := λ _, accepting).
  { unfold subscript. destruct (e_predicate data); [by apply hoare_ret|by apply hoare_raise]. }
  intros p. apply hoare_get_bind. intros w0.
  eapply hoare_weaken with (P' := accepting) (Q' := λ _, accepting);
    [|by intros s [-> ?]|done].
  eapply hoare_bind with (R := λ _, accepting).
  { destruct (predicates (self w0) !! p); [by apply hoare_ret|].
    apply hoare_modify. intros s Hs. by apply (accepting_same s). }
  intros ?. eapply hoare_bind; [apply accepting_add_predicate|].
  intros ?. apply hoare_get_bind. intros w1.
  eapply hoare_weaken with (P' := accepting) (Q' := λ _, accepting);
    [|by intros s [-> ?]|done].
  destruct (node_catalog (self w1) !! u) as [subj_cats|].
  - eapply hoare_bind with (R := λ _, accepting); [|intros; by apply hoare_ret].
    apply hoare_for_each. intros i _. apply accepting_analyse_edge_subject.
  - eapply hoare_bind; [apply accepting_print|]. intros ?.
    eapply hoare_bind with (R := λ _, accepting).
    { apply hoare_modify. intros s Hs. by apply (accepting_same s). }
    intros ?. apply accepting_add_predicate.
Qed.

Lemma accepting_construct nm cm : NoDup cm → accepting (construct nm cm).
Proof.
  intros Hnd. unfold construct, init, Category_init. run_step. simpl.
  split; simpl.
  - by apply curie_map_add_NoDup.
  - intros n cids. by rewrite lookup_empty.
  - intros key c Hl. apply lookup_singleton_Some in Hl as [<- <-]. simpl.
    split_and!; [done|apply curie_map_add_elem|by rewrite lookup_singleton_eq].
  - intros t a. by rewrite lookup_empty.
Qed.

(** Every state reached by observing records satisfies the invariants. *)
Lemma observed_accepting w : observed get_prefix w → accepting w.
Proof.
  induction 1 as [nm cm Hnd|w n data _ IH|w u v k data _ IH|w c _ IH].
  - by apply accepting_construct.
  - eapply hoare_final; [apply accepting_analyse_node|done].
  - eapply hoare_final; [apply accepting_analyse_edge|done].
  - by apply accepting_catalog_add.
Qed.

(** *** One edge: the cartesian product *)

Lemma count_association_run data r a s :
  e_relation data = Some r →
  a_relations a = RelSet s →
  is_Some (a_count_by_source a !! "unknown") →
  ∃ a', count_association data a = (a', Ok tt)
        ∧ a_count a' = a_count a + 1
        ∧ ∃ s', a_relations a' = RelSet s' ∧ r ∈ s' ∧ s ⊆ s'.
Proof.
  intros Hr Hs [c Hu]. unfold count_association, subscript, add_relation.
  rewrite Hr. run_step. rewrite Hs.
  destruct (bool_decide (r ∈ s)) eqn:Hmem; run_step; simpl.
  - apply bool_decide_eq_true in Hmem.
    destruct (e_provided_by data) as [sources|]; run_step; simpl.
    + eexists. split; [reflexivity|]. simpl. split; [done|].
      exists s. by rewrite Hs.
    + unfold add_at. run_step. rewrite Hu. run_step. simpl.
      eexists. split; [reflexivity|]. simpl. split; [done|].
      exists s. by rewrite Hs.
  - destruct (e_provided_by data) as [sources|]; run_step; simpl.
    + eexists. split; [reflexivity|]. simpl. split; [done|].
      eexists. split; [done|].
    split; [by apply elem_of_union_r, elem_of_singleton|apply union_subseteq_l].
    + unfold add_at. run_step. rewrite Hu. run_step. simpl.
      eexists. split; [reflexivity|]. simpl. split; [done|].
      eexists. split; [done|].
    split; [by apply elem_of_union_r, elem_of_singleton|apply union_subseteq_l].
Qed.

(** The inner loop body, for the object category [oc]: the record of the
    triple is created if need be and updated; nothing else changes. *)
Lemma analyse_edge_object_run w data sc p r idx oc :
  accepting w →
  e_relation data = Some r →
  curie_map w !! idx = Some oc →
  ∃ a', analyse_edge_object data sc p idx w
        = (on_self (set_association_map (<[(sc, p, oc) := a']>)) w, Ok Next)
        ∧ a_count a' = triple_count (self w) (sc, p, oc) + 1
        ∧ ∃ s', a_relations a' = RelSet s' ∧ r ∈ s'
                ∧ ∀ r', has_relation (self w) (sc, p, oc) r' → r' ∈ s'.
Proof.
  intros Hw Hr Hidx.
  unfold analyse_edge_object, on_catalog, Catalog.get_category_curie.
  run_step. rewrite Hidx. run_step. rewrite world_eta.
  unfold triple_count, has_relation.
  destruct (association_map (self w) !! (sc, p, oc)) as [a|] eqn:Ha; run_step.
  - destruct (acc_association_map _ Hw _ _ Ha) as (Hu & s & Hs).
    destruct (count_association_run data r a s Hr Hs Hu)
      as (a' & Hrun & Hcount & s' & Hs' & Hin & Hsub).
    unfold on_association. rewrite Ha, Hrun.
    exists a'. split; [done|]. split; [done|].
    exists s'. split_and!; [done|done|]. rewrite Hs. intros r' Hr'. by apply Hsub.
  - destruct (count_association_run data r (new_association (sc, p, oc)) ∅ Hr)
      as (a' & Hrun & Hcount & s' & Hs' & Hin & Hsub); [done|..].
    { simpl. by rewrite lookup_singleton_eq. }
    unfold on_association. simpl. rewrite lookup_insert_eq, Hrun.
    exists a'. split.
    { unfold on_self, set_association_map. simpl. by rewrite insert_insert_eq. }
    split; [done|]. exists s'. by split_and!.
Qed.

Lemma same_but_associations_refl w : same_but_associations w w.
Proof. unfold same_but_associations. by destruct w as [cm []]. Qed.

Lemma same_but_associations_trans w1 w2 w3 :
  same_but_associations w1 w2 → same_but_associations w2 w3 →
  same_but_associations w1 w3.
Proof.
  unfold same_but_associations. intros H12 H23.
  rewrite H23 at 1. rewrite H12. reflexivity.
Qed.

Lemma same_but_associations_curie_map w w' :
  same_but_associations w w' → curie_map w' = curie_map w.
Proof. unfold same_but_associations. by intros ->. Qed.

(** What one pass of the inner loop body does to the counters and the
    relation sets. *)
Lemma analyse_edge_object_step w data sc p r idx oc :
  accepting w →
  e_relation data = Some r →
  curie_map w !! idx = Some oc →
  ∃ w', analyse_edge_object data sc p idx w = (w', Ok Next)
        ∧ same_but_associations w w'
        ∧ accepting w'
        ∧ (∀ t, triple_count (self w') t
                = triple_count (self w) t
                  + if bool_decide (t = (sc, p, oc)) then 1 else 0)
        ∧ has_relation (self w') (sc, p, oc) r
        ∧ (∀ t r', has_relation (self w) t r' → has_relation (self w') t r').
Proof.
  intros Hw Hr Hidx.
  destruct (analyse_edge_object_run w data sc p r idx oc Hw Hr Hidx)
    as (a' & Hrun & Hcount & s' & Hs' & Hin & Hmono).
  eexists. split; [exact Hrun|].
  split; [by destruct w as [cm []]|].
  split.
  { pose proof (accepting_analyse_edge_object data sc p idx w Hw) as H.
    by rewrite Hrun in H. }
  unfold triple_count, has_relation in *. simpl.
  split_and!.
  - intros t. case_bool_decide as Ht.
    + subst t. by rewrite lookup_insert_eq.
    + rewrite lookup_insert_ne by done. lia.
  - by rewrite lookup_insert_eq, Hs'.
  - intros t r'. destruct (decide (t = (sc, p, oc))) as [->|Ht].
    + rewrite lookup_insert_eq, Hs'. apply Hmono.
    + by rewrite lookup_insert_ne.
Qed.

(** The inner loop, over the object categories [ocs]. *)
Lemma analyse_edge_objects_run data sc p r cm obj_cats ocs :
  e_relation data = Some r →
  NoDup ocs →
  Forall2 (λ i oc, cm !! i = Some oc) obj_cats ocs →
  ∀ w, accepting w → curie_map w = cm →
  ∃ w', for_each obj_cats (analyse_edge_object data sc p) w = (w', Ok Next)
        ∧ same_but_associations w w'
        ∧ accepting w'
        ∧ (∀ t, triple_count (self w') t
                = triple_count (self w) t
                  + if bool_decide (t ∈ (λ oc, (sc, p, oc)) <$> ocs) then 1 else 0)
        ∧ (∀ oc, oc ∈ ocs → has_relation (self w') (sc, p, oc) r)
        ∧ (∀ t r', has_relation (self w) t r' → has_relation (self w') t r').
Proof.
  intros Hr Hnd Hcur.
  induction Hcur as [|idx oc obj_cats ocs Hidx Hcur IH]; intros w Hw Hcm.
  - exists w. split; [reflexivity|].
    split; [apply same_but_associations_refl|]. split; [done|]. split_and!.
    + intros t. rewrite fmap_nil.
      case_bool_decide as H; [by apply elem_of_nil in H|lia].
    + by intros oc ?%elem_of_nil.
    + done.
  - apply NoDup_cons in Hnd as [Hoc Hnd].
    destruct (analyse_edge_object_step w data sc p r idx oc Hw Hr)
      as (w1 & Hrun1 & Hsame1 & Hw1 & Hcount1 & Hrel1 & Hmono1);
      [by rewrite Hcm|].
    destruct (IH Hnd w1 Hw1) as (w' & Hrun & Hsame & Hw' & Hcount & Hrel & Hmono);
      [by rewrite (same_but_associations_curie_map _ _ Hsame1)|].
    exists w'. cbn [for_each]. run_step. rewrite Hrun1. split; [exact Hrun|].
    split; [by eapply same_but_associations_trans|].
    split; [done|]. split_and!.
    + intros t. rewrite Hcount, Hcount1, fmap_cons.
      destruct (decide (t = (sc, p, oc))) as [->|Ht].
      * rewrite (bool_decide_eq_true_2 (_ = _)) by done.
        rewrite (bool_decide_eq_true_2 (_ ∈ _ :: _)) by left.
        rewrite bool_decide_eq_false_2; [lia|].
        intros (oc' & [= <-] & ?)%list_elem_of_fmap. done.
      * rewrite (bool_decide_eq_false_2 (_ = _)) by done.
        rewrite (bool_decide_ext (t ∈ (sc, p, oc) :: _) (t ∈ (λ oc0, (sc, p, oc0)) <$> ocs));
          [lia|].
        rewrite elem_of_cons. split; [by intros [?|?]|by right].
    + intros oc' [->|Hin]%elem_of_cons; [by apply Hmono|by apply Hrel].
    + intros t r' Ht. by apply Hmono, Hmono1.
Qed.

Lemma elem_of_triples_of p scs ocs t :
  t ∈ triples_of p scs ocs ↔ ∃ sc oc, t = (sc, p, oc) ∧ sc ∈ scs ∧ oc ∈ ocs.
Proof.
  unfold triples_of. rewrite list_elem_of_bind. split.
  - intros (sc & (oc & -> & Hoc)%list_elem_of_fmap & Hsc). by exists sc, oc.
  - intros (sc & oc & -> & Hsc & Hoc). exists sc. split; [|done].
    apply list_elem_of_fmap. by exists oc.
Qed.

Lemma triples_of_cons p sc scs ocs :
  triples_of p (sc :: scs) ocs
  = ((λ oc, (sc, p, oc)) <$> ocs) ++ triples_of p scs ocs.
Proof. reflexivity. Qed.

Lemma length_triples_of p scs ocs :
  length (triples_of p scs ocs) = (length scs * length ocs)%nat.
Proof.
  unfold triples_of. induction scs as [|sc scs IH]; [done|].
  rewrite bind_cons, length_app, length_fmap, IH. simpl. lia.
Qed.

Lemma NoDup_triples_of p scs ocs :
  NoDup scs → NoDup ocs → NoDup (triples_of p scs ocs).
Proof.
  intros Hscs Hocs. unfold triples_of.
  induction Hscs as [|sc scs Hsc Hscs IH]; [apply NoDup_nil_2|].
  rewrite bind_cons. apply NoDup_app. split_and!.
  - apply NoDup_fmap_2; [|done]. by intros oc1 oc2 [= ->].
  - intros t (oc & -> & Hoc)%list_elem_of_fmap
      (sc' & oc' & [= -> ->] & Hsc' & _)%elem_of_triples_of. done.
  - exact IH.
Qed.

(** The identifiers behind a list of distinct, assigned indices. *)
Lemma curies_of_indices (cm : list string) (l : list nat) :
  NoDup cm → NoDup l → (∀ i, i ∈ l → (i < length cm)%nat) →
  ∃ cs, Forall2 (λ i c, cm !! i = Some c) l cs ∧ NoDup cs.
Proof.
  intros Hcm Hl. induction Hl as [|i l Hi Hl IH]; intros Hlt.
  - exists []. split; [constructor|apply NoDup_nil_2].
  - destruct IH as (cs & Hcs & Hnd).
    { intros j Hj. apply Hlt. by right. }
    destruct (lookup_lt_is_Some_2 cm i) as [c Hc].
    { apply Hlt. left. }
    exists (c :: cs). split; [by constructor|].
    apply NoDup_cons. split; [|done].
    intros (k & Hk)%list_elem_of_lookup_1.
    destruct (Forall2_lookup_r _ _ _ _ _ Hcs Hk) as (j & Hj & Hjc).
    assert (i = j) as Hij by exact (NoDup_lookup cm i j c Hcm Hc Hjc).
    subst j. apply Hi. exact (list_elem_of_lookup_2 _ _ _ Hj).
Qed.

(** The outer loop, over the subject categories [scs]. *)
Lemma analyse_edge_subjects_run data v p r cm cv ocs subj_cats scs :
  e_relation data = Some r →
  NoDup ocs → NoDup scs →
  Forall2 (λ i oc, cm !! i = Some oc) cv ocs →
  Forall2 (λ i sc, cm !! i = Some sc) subj_cats scs →
  ∀ w, accepting w → curie_map w = cm →
  node_catalog (self w) !! v = Some cv →
  ∃ w', for_each subj_cats (analyse_edge_subject v data p) w = (w', Ok Next)
        ∧ same_but_associations w w'
        ∧ accepting w'
        ∧ (∀ t, triple_count (self w') t
                = triple_count (self w) t
                  + if bool_decide (t ∈ triples_of p scs ocs) then 1 else 0)
        ∧ (∀ t, t ∈ triples_of p scs ocs → has_relation (self w') t r)
        ∧ (∀ t r', has_relation (self w) t r' → has_relation (self w') t r').
Proof.
  intros Hr Hocs Hscs Hcv Hcu.
  induction Hcu as [|idx sc subj_cats scs Hidx Hcu IH]; intros w Hw Hcm Hv.
  - exists w. split; [reflexivity|].
    split; [apply same_but_associations_refl|]. split; [done|]. split_and!.
    + intros t. case_bool_decide as H; [by apply elem_of_nil in H|lia].
    + by intros t ?%elem_of_nil.
    + done.
  - apply NoDup_cons in Hscs as [Hsc Hscs].
    destruct (analyse_edge_objects_run data sc p r cm cv ocs Hr Hocs Hcv w Hw Hcm)
      as (w1 & Hrun1 & Hsame1 & Hw1 & Hcount1 & Hrel1 & Hmono1).
    destruct (IH Hscs w1 Hw1) as (w' & Hrun & Hsame & Hw' & Hcount & Hrel & Hmono).
    { by rewrite (same_but_associations_curie_map _ _ Hsame1). }
    { rewrite Hsame1. exact Hv. }
    exists w'. cbn [for_each]. run_step.
    assert (analyse_edge_subject v data p idx w = (w1, Ok Next)) as ->.
    { assert (curie_map w !! idx = Some sc) as Hidx' by (by rewrite Hcm).
      unfold analyse_edge_subject, on_catalog, Catalog.get_category_curie.
      run_step. rewrite Hidx'. run_step. rewrite world_eta, Hv. exact Hrun1. }
    split; [exact Hrun|].
    split; [by eapply same_but_associations_trans|].
    split; [done|]. split_and!.
    + intros t. rewrite Hcount, Hcount1.
      rewrite triples_of_cons.
      destruct (decide (t ∈ (λ oc, (sc, p, oc)) <$> ocs)) as [Ht|Ht].
      * rewrite (bool_decide_eq_true_2 _ Ht).
        rewrite (bool_decide_eq_true_2 (_ ∈ _ ++ _)) by (apply elem_of_app; by left).
        rewrite bool_decide_eq_false_2; [lia|].
        apply list_elem_of_fmap in Ht as (oc & -> & Hoc).
        intros (sc' & oc' & [= -> ->] & Hsc' & _)%elem_of_triples_of. done.
      * rewrite (bool_decide_eq_false_2 _ Ht).
        rewrite (bool_decide_ext (t ∈ _ ++ _) (t ∈ triples_of p scs ocs)); [lia|].
        rewrite elem_of_app. split; [by intros [?|?]|by right].
    + intros t (sc' & oc' & -> & [->|Hsc']%elem_of_cons & Hoc)%elem_of_triples_of.
      * by apply Hmono, Hrel1.
      * apply Hrel. apply elem_of_triples_of. by exists sc', oc'.
    + intros t r' Ht. by apply Hmono, Hmono1.
Qed.

(** The statements of [analyse_edge] before its loops, for an edge whose
    subject is known: both counters are incremented. *)
Lemma analyse_edge_known_subject w u v k data p cu :
  e_predicate data = Some p →
  node_catalog (self w) !! u = Some cu →
  analyse_edge u v k data w
  = (for_each cu (analyse_edge_subject v data p) ≫= λ _, mret tt)
      (on_self (set_predicates
                  (λ d, <[p := get_edge_count_by_predicate (self w) p + 1]> d))
         (on_self (set_edge_record_count (λ c, c + 1)) w)).
Proof.
  intros Hp Hu. unfold analyse_edge, subscript, get_edge_count_by_predicate.
  rewrite Hp. run_step. simpl.
  destruct (predicates (self w) !! p) as [c|] eqn:Hc; run_step; simpl.
  - erewrite add_predicate_run by (simpl; exact Hc). run_step. simpl.
    by rewrite Hu.
  - erewrite add_predicate_run by (simpl; apply lookup_insert_eq).
    run_step. simpl. rewrite Hu.
    unfold on_self, set_predicates. simpl. by rewrite insert_insert_eq.
Qed.

(** C1.  An edge whose subject and object are in the node catalog, with
    [m] and [n] category indices: the call returns normally; the triples
    (subject category, predicate, object category) over the categories
    of the two nodes are [m * n] distinct triples; the counter of each
    of them is one higher and the counter of every other triple is as
    before; the relation of the edge is in the relations of each of
    them; the total edge counter is one higher, whatever [m] and [n]
    are. *)
Theorem analyse_edge_cartesian_product w u v k data p r cu cv :
  accepting w →
  node_catalog (self w) !! u = Some cu →
  node_catalog (self w) !! v = Some cv →
  e_predicate data = Some p →
  e_relation data = Some r →
  ∃ w' ts,
    analyse_edge u v k data w = (w', Ok tt)
    ∧ NoDup ts
    ∧ length ts = (length cu * length cv)%nat
    ∧ (∀ t, t ∈ ts ↔
            ∃ i j sc oc, i ∈ cu ∧ j ∈ cv
              ∧ curie_map w !! i = Some sc ∧ curie_map w !! j = Some oc
              ∧ t = (sc, p, oc))
    ∧ (∀ t, triple_count (self w') t
            = triple_count (self w) t + if bool_decide (t ∈ ts) then 1 else 0)
    ∧ (∀ t, t ∈ ts → has_relation (self w') t r)
    ∧ get_total_edges_count (self w') = get_total_edges_count (self w) + 1
    ∧ get_edge_count_by_predicate (self w') p
      = get_edge_count_by_predicate (self w) p + 1
    ∧ error_log (self w') = error_log (self w).
Proof.
  intros Hw Hu Hv Hp Hr.
  destruct (acc_node_catalog _ Hw _ _ Hu) as [Hcu_nd Hcu_lt].
  destruct (acc_node_catalog _ Hw _ _ Hv) as [Hcv_nd Hcv_lt].
  destruct (curies_of_indices (curie_map w) cu (acc_curie_map _ Hw) Hcu_nd Hcu_lt)
    as (scs & Hscs & Hscs_nd).
  destruct (curies_of_indices (curie_map w) cv (acc_curie_map _ Hw) Hcv_nd Hcv_lt)
    as (ocs & Hocs & Hocs_nd).
  rewrite (analyse_edge_known_subject w u v k data p cu Hp Hu).
  set (w1 := on_self _ (on_self _ w)).
  assert (accepting w1) as Hw1 by (by apply (accepting_same w)).
  destruct (analyse_edge_subjects_run data v p r (curie_map w) cv ocs cu scs
              Hr Hocs_nd Hscs_nd Hocs Hscs w1 Hw1 eq_refl Hv)
    as (w' & Hrun & Hsame & Hw' & Hcount & Hrel & _).
  exists w', (triples_of p scs ocs). run_step. rewrite Hrun. run_step.
  split; [done|]. split; [by apply NoDup_triples_of|].
  split.
  { rewrite length_triples_of.
    by rewrite (Forall2_length _ _ _ Hscs), (Forall2_length _ _ _ Hocs). }
  split.
  { intros t. rewrite elem_of_triples_of. split.
    - intros (sc & oc & -> & (a & Ha)%list_elem_of_lookup_1
              & (b & Hb)%list_elem_of_lookup_1).
      destruct (Forall2_lookup_r _ _ _ _ _ Hscs Ha) as (i & Hi & Hisc).
      destruct (Forall2_lookup_r _ _ _ _ _ Hocs Hb) as (j & Hj & Hjoc).
      exists i, j, sc, oc.
      split_and!; [by eapply list_elem_of_lookup_2
                  |by eapply list_elem_of_lookup_2|done|done|done].
    - intros (i & j & sc & oc & (a & Ha)%list_elem_of_lookup_1
              & (b & Hb)%list_elem_of_lookup_1 & Hi & Hj & ->).
      destruct (Forall2_lookup_l _ _ _ _ _ Hscs Ha) as (sc' & Hsc' & Hisc).
      destruct (Forall2_lookup_l _ _ _ _ _ Hocs Hb) as (oc' & Hoc' & Hjoc).
      exists sc, oc. simplify_eq.
      split_and!; [done|by eapply list_elem_of_lookup_2
                  |by eapply list_elem_of_lookup_2]. }
  split; [exact Hcount|]. split; [exact Hrel|].
  rewrite Hsame. unfold get_total_edges_count, get_edge_count_by_predicate.
  simpl. by rewrite lookup_insert_eq.
Qed.

(** *** Properties that no single statement breaks

    A property [I] of the state that is kept by an append to the
    class-level catalog and by each kind of assignment to an instance
    attribute that the two methods perform is kept by the methods,
    whether they return or raise. *)
Section Stable.
Variable I : world → Prop.
Hypothesis I_catalog : ∀ w c,
  I w → I (World (Catalog.curie_map_add c (curie_map w)) (self w)).
Hypothesis I_node_catalog : ∀ w n cids,
  I w → I (on_self (set_node_catalog (<[n := cids]>)) w).
Hypothesis I_node_stats : ∀ w f, I w → I (on_self (set_node_stats f) w).
Hypothesis I_edge_record_count : ∀ w f,
  I w → I (on_self (set_edge_record_count f) w).
Hypothesis I_predicates : ∀ w f, I w → I (on_self (set_predicates f) w).
Hypothesis I_association_map : ∀ w f,
  I w → I (on_self (set_association_map f) w).
Hypothesis I_error_log : ∀ w f, I w → I (on_self (set_error_log f) w).

Local Abbreviation keeps := (keeps I).

Lemma keeps_ret {A} (a : A) : keeps (mret a).
Proof. by apply hoare_ret. Qed.

Lemma keeps_raise {A} e : keeps (raise e : M world A).
Proof. by apply hoare_raise. Qed.

Lemma keeps_bind {A B} (m : M world A) (k : A → M world B) :
  keeps m → (∀ a, keeps (k a)) → keeps (m ≫= k).
Proof. intros Hm Hk. eapply hoare_bind; [exact Hm|exact Hk]. Qed.

Lemma keeps_get_bind {B} (k : world → M world B) :
  (∀ w0, keeps (k w0)) → keeps (get ≫= k).
Proof.
  intros Hk. apply hoare_get_bind. intros w0.
  eapply hoare_weaken; [apply Hk| |done]. by intros s [-> ?].
Qed.

Lemma keeps_for_each {A} (body : A → M world flow) l :
  (∀ x, keeps (body x)) → keeps (for_each l body).
Proof. intros Hb. apply hoare_for_each. intros x _. apply Hb. Qed.

Lemma keeps_print msg : keeps (print msg).
Proof. apply hoare_modify. intros s Hs. by apply I_error_log. Qed.

Lemma keeps_add_predicate p d : keeps (add_predicate p d).
Proof.
  apply hoare_zoom. intros s Hs.
  destruct (add_at p d (predicates (self s))) as [d' [[]|e]];
    by apply I_predicates.
Qed.

Lemma keeps_Category_init {A} c (k : Category → M world A) :
  (∀ a, keeps (k a)) → keeps (on_catalog (Category_init c) ≫= k).
Proof.
  intros Hk. apply keeps_bind; [|done].
  apply hoare_zoom. intros s Hs. unfold Category_init. run_step.
  by apply I_catalog.
Qed.

Lemma keeps_get_cid c : keeps (on_catalog (Catalog.get_cid c)).
Proof.
  apply hoare_zoom. intros s Hs. unfold Catalog.get_cid. run_step.
  destruct (list_index c (curie_map s)); run_step; by rewrite world_eta.
Qed.

Lemma keeps_get_category_curie i :
  keeps (on_catalog (Catalog.get_category_curie i)).
Proof.
  apply hoare_zoom. intros s Hs. unfold Catalog.get_category_curie. run_step.
  destruct (curie_map s !! i); run_step; by rewrite world_eta.
Qed.

Lemma keeps_on_category {A} key (m : M Category A) :
  keeps (on_category key m).
Proof.
  intros s Hs. unfold on_category.
  destruct (node_stats (self s) !! key) as [c|]; [|done].
  destruct (m c) as [c' [a|e]]; by apply I_node_stats.
Qed.

Lemma keeps_on_association {A} t (m : M association A) :
  keeps (on_association t m).
Proof.
  intros s Hs. unfold on_association.
  destruct (association_map (self s) !! t) as [c|]; [|done].
  destruct (m c) as [c' [a|e]]; by apply I_association_map.
Qed.

Ltac keeps_tac :=
  repeat match goal with
  | |- keeps (mret _) => apply keeps_ret
  | |- keeps (raise _) => apply keeps_raise
  | |- keeps (print _) => apply keeps_print
  | |- keeps (add_predicate _ _) => apply keeps_add_predicate
  | |- keeps (on_catalog (Catalog.get_cid _)) => apply keeps_get_cid
  | |- keeps (on_catalog (Catalog.get_category_curie _)) =>
      apply keeps_get_category_curie
  | |- keeps (on_catalog (Category_init _) ≫= _) =>
      apply keeps_Category_init; intros ?
  | |- keeps (on_category _ _) => apply keeps_on_category
  | |- keeps (on_association _ _) => apply keeps_on_association
  | |- keeps (for_each _ _) => apply keeps_for_each; intros ?
  | |- keeps (get ≫= _) => apply keeps_get_bind; intros ?
  | |- keeps (_ ≫= _) => apply keeps_bind; [|intros ?]
  | |- keeps (modify (on_self (set_node_catalog _))) =>
      apply hoare_modify; intros ??; by apply I_node_catalog
  | |- keeps (modify (on_self (set_node_stats _))) =>
      apply hoare_modify; intros ??; by apply I_node_stats
  | |- keeps (modify (on_self (set_edge_record_count _))) =>
      apply hoare_modify; intros ??; by apply I_edge_record_count
  | |- keeps (modify (on_self (set_predicates _))) =>
      apply hoare_modify; intros ??; by apply I_predicates
  | |- keeps (modify (on_self (set_association_map _))) =>
      apply hoare_modify; intros ??; by apply I_association_map
  | |- keeps (match ?x with _ => _ end) => destruct x
  end.

Lemma analyse_node_keeps n data : keeps (analyse_node get_prefix n data).
Proof.
  unfold analyse_node. keeps_tac.
  unfold analyse_node_curie. keeps_tac.
Qed.

Lemma analyse_edge_keeps u v k data : keeps (analyse_edge u v k data).
Proof.
  unfold analyse_edge, subscript. keeps_tac;
    unfold analyse_edge_subject; keeps_tac;
    unfold analyse_edge_object; cbv zeta; keeps_tac.
Qed.


End Stable.


(** The catalog only grows at its end. *)
Lemma analyse_node_appends w n data :
  ∃ ext, curie_map (analyse_node get_prefix n data w).1 = curie_map w ++ ext.
Proof.
  apply (hoare_final (λ s, s = w)
           (λ s, ∃ ext, curie_map s = curie_map w ++ ext)); [|done].
  eapply hoare_weaken; [apply analyse_node_keeps| |done]; try done.
  - intros s c [ext Hext]. simpl.
    destruct (curie_map_add_ext c (curie_map s)) as [ext' ->].
    exists (ext ++ ext'). by rewrite Hext, app_assoc.
  - intros s ->. exists []. by rewrite app_nil_r.
Qed.

(** An edge does not touch the catalog. *)
Lemma analyse_edge_curie_map w u v k data :
  curie_map (analyse_edge u v k data w).1 = curie_map w.
Proof.
  apply (hoare_final (λ s, s = w) (λ s, curie_map s = curie_map w)); [|done].
  eapply hoare_weaken; [apply analyse_edge_keeps| |done]; try done.
  by intros s ->.
Qed.

(** *** Piped categories *)

Lemma split_pipe_not_nil s : split_pipe s ≠ [].
Proof.
  destruct s as [|c s]; simpl; [done|].
  destruct (Ascii.eqb c "|"); [done|]. by destruct (split_pipe s).
Qed.

Lemma split_pipe_whole s : has_pipe s = false → split_pipe s = [s].
Proof.
  induction s as [|c s IH]; simpl; [done|].
  destruct (Ascii.eqb c "|"); simpl; [done|].
  intros Hs. by rewrite IH.
Qed.

Lemma split_pipe_pair a b :
  has_pipe a = false → has_pipe b = false →
  split_pipe (a +:+ "|" +:+ b) = [a; b].
Proof.
  intros Ha Hb. induction a as [|c a IH]; simpl.
  - by rewrite split_pipe_whole.
  - simpl in Ha. destruct (Ascii.eqb c "|"); simpl in *; [done|].
    by rewrite IH.
Qed.

Lemma analyse_node_category_run n data c prefix :
  truthy (get_prefix n) = Some prefix →
  is_Some (count_by_source c !! "unknown") →
  ∃ c', analyse_node_category get_prefix n data c = (c', Ok tt)
        ∧ category c' = category c
        ∧ count c' = count c + 1.
Proof.
  intros Hp [k Hu]. unfold analyse_node_category. run_step. rewrite Hp. run_step.
  destruct (n_provided_by data) as [sources|]; run_step; simpl.
  - by eexists.
  - unfold add_at. run_step. rewrite Hu. run_step. by eexists.
Qed.

(** The body of the inner loop of [analyse_node] for the category [c] of
    a node whose identifier has a prefix. *)
Lemma analyse_node_curie_run w n data c prefix cids :
  accepting w →
  truthy (get_prefix n) = Some prefix →
  node_catalog (self w) !! n = Some cids →
  ∃ w' idx,
    analyse_node_curie get_prefix n data c w = (w', Ok Next)
    ∧ accepting w'
    ∧ (∃ ext, curie_map w' = curie_map w ++ ext)
    ∧ curie_map w' !! idx = Some c
    ∧ node_catalog (self w') !! n
      = Some (if bool_decide (idx ∈ cids) then cids else cids ++ [idx])
    ∧ get_node_count_by_category (self w') c
      = get_node_count_by_category (self w) c + 1
    ∧ (∀ c', c' ≠ c → node_stats (self w') !! c' = node_stats (self w) !! c').
Proof.
  intros Hw Hp Hn.
  pose proof (accepting_analyse_node_curie n data c w Hw) as Hacc.
  unfold analyse_node_curie in *. unfold get_node_count_by_category.
  revert Hacc. run_step.
  destruct (node_stats (self w) !! c) as [cat|] eqn:Hc; run_step.
  - destruct (acc_node_stats _ Hw _ _ Hc) as (Hcat & Hin & Hu).
    rewrite Hc. unfold on_catalog, Catalog.get_cid. run_step. rewrite Hcat.
    destruct (list_index_is_Some c (curie_map w) Hin) as [idx Hidx].
    rewrite Hidx. run_step. rewrite world_eta, Hn.
    destruct (analyse_node_category_run n data cat prefix Hp Hu)
      as (cat' & Hrun & Hcat' & Hcount).
    destruct (bool_decide (idx ∈ cids)) eqn:Hmem; run_step;
      unfold on_category; simpl; rewrite Hc, Hrun; run_step;
      intros Hacc; eexists _, idx; (split; [reflexivity|]); simpl;
      rewrite ?lookup_insert_eq, ?Hmem;
      (split_and!;
       [done|by exists []; rewrite app_nil_r|by apply list_index_lookup
       |done|done|by intros c' Hc'; rewrite lookup_insert_ne]).
  - unfold on_catalog, Category_init, Catalog.get_cid. run_step. simpl.
    rewrite lookup_insert_eq. run_step. simpl.
    destruct (list_index_is_Some c (Catalog.curie_map_add c (curie_map w))
                (curie_map_add_elem c (curie_map w))) as [idx Hidx].
    rewrite Hidx. run_step. simpl. rewrite Hn.
    destruct (analyse_node_category_run n data
                (mkCategory c ∅ 0 {["unknown" := 0]}) prefix Hp)
      as (cat' & Hrun & Hcat' & Hcount).
    { simpl. rewrite lookup_singleton_eq. by eexists. }
    destruct (bool_decide (idx ∈ cids)) eqn:Hmem; run_step;
      unfold on_category; simpl; rewrite lookup_insert_eq, Hrun; run_step;
      intros Hacc; eexists _, idx; (split; [reflexivity|]); simpl;
      rewrite ?lookup_insert_eq, ?Hmem;
      (split_and!;
       [done|apply curie_map_add_ext|by apply list_index_lookup
       |done|done|by intros c' Hc'; rewrite !lookup_insert_ne]).
Qed.

(** A new node whose identifier has a prefix and whose category field is
    the one piped value [a|b] with [a] and [b] distinct: both categories
    are counted once and the node gets the two indices. *)
Lemma analyse_node_piped w n data a b prefix :
  accepting w →
  node_catalog (self w) !! n = None →
  truthy (get_prefix n) = Some prefix →
  n_category data = Some [a +:+ "|" +:+ b] →
  has_pipe a = false → has_pipe b = false → a ≠ b →
  ∃ w' i j,
    analyse_node get_prefix n data w = (w', Ok tt)
    ∧ get_node_count_by_category (self w') a
      = get_node_count_by_category (self w) a + 1
    ∧ get_node_count_by_category (self w') b
      = get_node_count_by_category (self w) b + 1
    ∧ node_catalog (self w') !! n = Some [i; j]
    ∧ i ≠ j
    ∧ curie_map w' !! i = Some a
    ∧ curie_map w' !! j = Some b.
Proof.
  intros Hw Hn Hp Hcat Ha Hb Hab.
  unfold analyse_node. run_step. rewrite Hn. run_step. rewrite Hcat.
  cbn [for_each]. rewrite (split_pipe_pair a b Ha Hb). cbn [for_each].
  set (w0 := on_self (set_node_catalog (<[n := []]>)) w).
  assert (accepting w0) as Hw0.
  { apply accepting_insert_node_catalog; [done|apply NoDup_nil_2|].
    by intros i ?%elem_of_nil. }
  destruct (analyse_node_curie_run w0 n data a prefix [] Hw0 Hp)
    as (w1 & i & Hrun1 & Hw1 & [ext1 Hext1] & Hi & Hn1 & Hcount1 & Hother1).
  { simpl. apply lookup_insert_eq. }
  rewrite bool_decide_eq_false_2 in Hn1 by (by intros ?%elem_of_nil).
  destruct (analyse_node_curie_run w1 n data b prefix _ Hw1 Hp Hn1)
    as (w2 & j & Hrun2 & Hw2 & [ext2 Hext2] & Hj & Hn2 & Hcount2 & Hother2).
  assert (i ≠ j) as Hij.
  { intros <-. apply Hab.
    assert (curie_map w2 !! i = Some a) as Hi2.
    { rewrite Hext2. by apply lookup_app_l_Some. }
    congruence. }
  rewrite bool_decide_eq_false_2 in Hn2
    by (by intros ?%list_elem_of_singleton).
  exists w2, i, j. run_step. rewrite Hrun1. run_step. rewrite Hrun2. run_step.
  split; [done|]. split_and!; [| |done|done| |done].
  - unfold get_node_count_by_category in *.
    rewrite (Hother2 a Hab), Hcount1. simpl. done.
  - unfold get_node_count_by_category in *.
    rewrite Hcount2, (Hother1 b) by done. done.
  - rewrite Hext2. by apply lookup_app_l_Some.
Qed.

(** *** Node identifiers without prefix *)

Lemma analyse_node_category_raises n data c :
  truthy (get_prefix n) = None →
  analyse_node_category get_prefix n data c
  = (mkCategory (category c) (id_prefixes c) (count c + 1) (count_by_source c),
     Raise (AttributeError "error_log")).
Proof.
  intros Hp. unfold analyse_node_category. run_step. by rewrite Hp.
Qed.

Lemma analyse_node_curie_raises w n data c cids :
  accepting w →
  truthy (get_prefix n) = None →
  node_catalog (self w) !! n = Some cids →
  ∃ w' idx,
    analyse_node_curie get_prefix n data c w
    = (w', Raise (AttributeError "error_log"))
    ∧ node_catalog (self w') !! n
      = Some (if bool_decide (idx ∈ cids) then cids else cids ++ [idx])
    ∧ get_node_count_by_category (self w') c
      = get_node_count_by_category (self w) c + 1
    ∧ (∀ c', c' ≠ c → node_stats (self w') !! c' = node_stats (self w) !! c').
Proof.
  intros Hw Hp Hn.
  unfold analyse_node_curie, get_node_count_by_category. run_step.
  destruct (node_stats (self w) !! c) as [cat|] eqn:Hc; run_step.
  - destruct (acc_node_stats _ Hw _ _ Hc) as (Hcat & Hin & Hu).
    rewrite Hc. unfold on_catalog, Catalog.get_cid. run_step. rewrite Hcat.
    destruct (list_index_is_Some c (curie_map w) Hin) as [idx Hidx].
    rewrite Hidx. run_step. rewrite world_eta, Hn.
    destruct (bool_decide (idx ∈ cids)) eqn:Hmem; run_step;
      unfold on_category; simpl;
      rewrite Hc, (analyse_node_category_raises n data cat Hp); run_step;
      eexists _, idx; (split; [reflexivity|]); simpl;
      rewrite ?lookup_insert_eq, ?Hmem;
      (split_and!; [done|done|by intros c' Hc'; rewrite lookup_insert_ne]).
  - unfold on_catalog, Category_init, Catalog.get_cid. run_step. simpl.
    rewrite lookup_insert_eq. run_step. simpl.
    destruct (list_index_is_Some c (Catalog.curie_map_add c (curie_map w))
                (curie_map_add_elem c (curie_map w))) as [idx Hidx].
    rewrite Hidx. run_step. simpl. rewrite Hn.
    destruct (bool_decide (idx ∈ cids)) eqn:Hmem; run_step;
      unfold on_category; simpl;
      rewrite lookup_insert_eq, (analyse_node_category_raises n data _ Hp);
      run_step; eexists _, idx; (split; [reflexivity|]); simpl;
      rewrite ?lookup_insert_eq, ?Hmem;
      (split_and!; [done|done|by intros c' Hc'; rewrite !lookup_insert_ne]).
Qed.

(** C6 fails for a node identifier without prefix.  A new node whose
    category field is the one piped value [a|b]: when
    [PrefixManager.get_prefix] finds no prefix in the identifier, the call
    raises [AttributeError] while it counts the first category, so [a] is
    counted, [b] is not, and the entry of the node has one index. *)
Theorem analyse_node_piped_without_prefix w n data a b :
  accepting w →
  node_catalog (self w) !! n = None →
  truthy (get_prefix n) = None →
  n_category data = Some [a +:+ "|" +:+ b] →
  has_pipe a = false → has_pipe b = false → a ≠ b →
  ∃ w' i,
    analyse_node get_prefix n data w = (w', Raise (AttributeError "error_log"))
    ∧ get_node_count_by_category (self w') a
      = get_node_count_by_category (self w) a + 1
    ∧ get_node_count_by_category (self w') b
      = get_node_count_by_category (self w) b
    ∧ node_catalog (self w') !! n = Some [i].
Proof.
  intros Hw Hn Hp Hcat Ha Hb Hab.
  unfold analyse_node. run_step. rewrite Hn. run_step. rewrite Hcat.
  cbn [for_each]. rewrite (split_pipe_pair a b Ha Hb). cbn [for_each].
  set (w0 := on_self (set_node_catalog (<[n := []]>)) w).
  assert (accepting w0) as Hw0.
  { apply accepting_insert_node_catalog; [done|apply NoDup_nil_2|].
    by intros i ?%elem_of_nil. }
  destruct (analyse_node_curie_raises w0 n data a [] Hw0 Hp)
    as (w1 & i & Hrun1 & Hn1 & Hcount1 & Hother1).
  { simpl. apply lookup_insert_eq. }
  rewrite bool_decide_eq_false_2 in Hn1 by (by intros ?%elem_of_nil).
  exists w1, i. run_step. rewrite Hrun1. run_step.
  split; [done|]. split_and!; [done| |done].
  unfold get_node_count_by_category in *. by rewrite (Hother1 b).
Qed.

(** *** After the summary *)


(** *** Two instances *)

Section TwoInstances.
Import Process.

Lemma in_first_second {A} (m : M world A) p : second (in_first m p).1 = second p.
Proof. unfold in_first. by destruct (m _). Qed.

Lemma in_second_first {A} (m : M world A) p : first (in_second m p).1 = first p.
Proof. unfold in_second. by destruct (m _). Qed.

Lemma in_first_shared {A} (m : M world A) p :
  shared_curie_map (in_first m p).1
  = curie_map (m (World (shared_curie_map p) (first p))).1.
Proof. unfold in_first. by destruct (m _). Qed.

Lemma in_second_shared {A} (m : M world A) p :
  shared_curie_map (in_second m p).1
  = curie_map (m (World (shared_curie_map p) (second p))).1.
Proof. unfold in_second. by destruct (m _). Qed.

(** What an extension of the catalog at its end means for its readers. *)
Lemma catalog_extension cm ext :
  (∀ c i, Catalog.get_cid c cm = (cm, Ok i) →
          Catalog.get_cid c (cm ++ ext) = (cm ++ ext, Ok i))
  ∧ (∀ i c, Catalog.get_category_curie i cm = (cm, Ok c) →
            Catalog.get_category_curie i (cm ++ ext) = (cm ++ ext, Ok c))
  ∧ (∀ c, c ∉ cm ++ ext →
          Catalog.register c (cm ++ ext)
          = (cm ++ ext ++ [c], Ok (length cm + length ext)%nat)).
Proof.
  split_and!.
  - intros c i. unfold Catalog.get_cid. run_step.
    destruct (list_index c cm) as [j|] eqn:Hj; [|done].
    intros [= ->]. by rewrite (list_index_app_l _ _ ext _ Hj).
  - intros i c. unfold Catalog.get_category_curie. run_step.
    destruct (cm !! i) as [c'|] eqn:Hi; [|done].
    intros [= ->]. by rewrite (lookup_app_l_Some _ _ _ _ Hi).
  - intros c Hc.
    destruct (register_run c (cm ++ ext)) as (i & Hrun & Hi).
    unfold Catalog.curie_map_add in *. rewrite decide_False in * by done.
    rewrite list_index_app_fresh in Hi by done. injection Hi as <-.
    by rewrite Hrun, length_app, <- app_assoc.
Qed.

(** C9, as the code has it.  The catalog is one list for all instances
    of the process.  A node or an edge observed through one instance
    leaves the attributes of the other instance alone, and it changes the
    shared catalog by appending to it at most: an identifier that has an
    index keeps it, and an index that has an identifier keeps it, for all
    instances.  But the index that a category new to the process gets
    afterwards is the number of categories that all instances together
    have registered before. *)
Theorem shared_catalog_append_only p n data u v k edata :
  let p1 := (in_first (analyse_node get_prefix n data) p).1 in
  let p2 := (in_second (analyse_node get_prefix n data) p).1 in
  let p3 := (in_first (analyse_edge u v k edata) p).1 in
  let p4 := (in_second (analyse_edge u v k edata) p).1 in
  (second p1 = second p ∧ first p2 = first p
   ∧ second p3 = second p ∧ first p4 = first p)
  ∧ (shared_curie_map p3 = shared_curie_map p
     ∧ shared_curie_map p4 = shared_curie_map p)
  ∧ ∀ q, q = p1 ∨ q = p2 →
      ∃ ext,
        shared_curie_map q = shared_curie_map p ++ ext
        ∧ (∀ c i, Catalog.get_cid c (shared_curie_map p)
                  = (shared_curie_map p, Ok i) →
                  Catalog.get_cid c (shared_curie_map q)
                  = (shared_curie_map q, Ok i))
        ∧ (∀ i c, Catalog.get_category_curie i (shared_curie_map p)
                  = (shared_curie_map p, Ok c) →
                  Catalog.get_category_curie i (shared_curie_map q)
                  = (shared_curie_map q, Ok c))
        ∧ (∀ c, c ∉ shared_curie_map q →
                Catalog.register c (shared_curie_map q)
                = (shared_curie_map q ++ [c],
                   Ok (length (shared_curie_map p) + length ext)%nat)).
Proof.
  intros p1 p2 p3 p4. split_and!.
  - apply in_first_second.
  - apply in_second_first.
  - apply in_first_second.
  - apply in_second_first.
  - unfold p3. rewrite in_first_shared. apply analyse_edge_curie_map.
  - unfold p4. rewrite in_second_shared. apply analyse_edge_curie_map.
  - intros q Hq.
    assert (∃ ext, shared_curie_map q = shared_curie_map p ++ ext) as [ext Hext].
    { destruct Hq as [-> | ->]; unfold p1, p2;
        rewrite ?in_first_shared, ?in_second_shared;
        apply analyse_node_appends. }
    exists ext. rewrite Hext.
    destruct (catalog_extension (shared_curie_map p) ext) as (H1 & H2 & H3).
    split_and!; [done|exact H1|exact H2|].
    intros c Hc. rewrite H3 by done. by rewrite <- app_assoc.
Qed.

End TwoInstances.

End EngineFacts.

(** ** Provenance normalisation *)

Section InforesFacts.
Import Infores.

Lemma process_infores_no_rule :
  _process_infores (Rewrite None "" "") "Monarch Initiative" = "monarch-initiative".
Proof. vm_compute. reflexivity. Qed.

Lemma process_infores_rule :
  _process_infores (Rewrite (Some (Literal "Initiative")) "" "infores")
    "Monarch Initiative" = "infores-monarch".
Proof. vm_compute. reflexivity. Qed.

(** What the two parsers do with a single source whose identifier
    [infores] is not empty. *)
Lemma parsers_single rw source infores st :
  source ≠ "" → infores ≠ "" →
  _process_infores rw source = infores →
  let st' := SourceState (default_provenance st)
               (<[infores := default ∅ (_infores_catalog st !! infores) ∪ {[source]}]>
                  (_infores_catalog st)) in
  parser_scalar rw (Some source) st = (st', Ok (Some infores))
  ∧ parser_list rw (Some [source]) st = (st', Ok [infores]).
Proof.
  intros Hs Hi Hp st'. unfold parser_scalar, parser_list. simpl.
  rewrite Hp. destruct source as [|c source]; [done|].
  destruct infores as [|d infores]; [done|].
  split; reflexivity.
Qed.

(** C7.  The source ["Monarch Initiative"] is normalised to
    ["monarch-initiative"] when no rewrite rule is given ([None] or an
    empty tuple), and to ["infores-monarch"] under the rule with pattern
    ["Initiative"], empty substitution and prefix ["infores"]: this is
    the value of the inner function [_process_infores] and the value that
    the parsers handed out by [_infores_processor] return. *)
Theorem infores_monarch_initiative
    (is_list_column : string → bool) (ksf : string) (st : source_state) :
  normalises_to is_list_column ksf None st
    "Monarch Initiative" "monarch-initiative"
  ∧ normalises_to is_list_column ksf (Some []) st
      "Monarch Initiative" "monarch-initiative"
  ∧ normalises_to is_list_column ksf (Some ["Initiative"; ""; "infores"]) st
      "Monarch Initiative" "infores-monarch".
Proof.
  split_and!; eexists; (split; [reflexivity|]);
    (split; [first [apply process_infores_no_rule|apply process_infores_rule]|]);
    (split; [by apply parsers_single|]);
    (split; [by apply parsers_single|reflexivity]).
Qed.

Lemma infores_monarch_initiative_witness :
  normalises_to (λ ksf, bool_decide (ksf = "provided_by")) "knowledge_source"
    (Some ["Initiative"; ""; "infores"]) (SourceState "Graph" ∅)
    "Monarch Initiative" "infores-monarch".
Proof.
  exact (proj2 (proj2 (infores_monarch_initiative
                         (λ ksf, bool_decide (ksf = "provided_by"))
                         "knowledge_source" (SourceState "Graph" ∅)))).
Defined.

End InforesFacts.

(** ** Record filters *)

Section FilterFacts.
Import Filter.
Implicit Types (items : list (string * filter_value)) (record : gmap string value).

Lemma py_eq_str_true rv s : py_eq_str rv s = true ↔ rv = VStr s.
Proof.
  destruct rv as [s'|l]; simpl; [|done].
  rewrite bool_decide_eq_true. split; [by intros ->|by intros [= ->]].
Qed.

Lemma existsb_py_in xs rv :
  existsb (λ x, py_in x rv) xs = true ↔ ∃ x, x ∈ xs ∧ py_in x rv = true.
Proof.
  rewrite existsb_exists.
  split; intros (x & Hx & Hin); exists x; (split; [|done]);
    by apply list_elem_of_In.
Qed.

Lemma node_filter_loop_true items record pass_filter :
  (node_filter_loop items record pass_filter).1 = true
  ↔ admits items record ∧ (items = [] → pass_filter = true).
Proof.
  revert pass_filter.
  induction items as [|[k fv] items IH]; intros pass_filter; simpl.
  - split; [|by intros [_ H]; apply H].
    intros ->. split; [|done]. by intros k fv ?%elem_of_nil.
  - assert (admits ((k, fv) :: items) record
            ↔ (∃ rv, record !! k = Some rv ∧ satisfies fv rv) ∧ admits items record)
      as Hcons.
    { unfold admits. split.
      - intros H. split; [apply H; left|]. intros k' fv' Hin. apply H. by right.
      - intros [H1 H2] k' fv' [[= -> ->]|Hin]%elem_of_cons; [done|by apply H2]. }
    rewrite Hcons.
    destruct (record !! k) as [rv|] eqn:Hk.
    + destruct fv as [xs|s|ty]; simpl.
      * destruct (existsb (λ x, py_in x rv) xs) eqn:Hex.
        -- rewrite IH. apply existsb_py_in in Hex.
           split; [intros [H _]|intros [[_ H] _]]; [|by split].
           split; [|done]. split; [by exists rv|done].
        -- split; [done|]. intros [[(rv' & [= <-] & Hsat) _] _].
           apply existsb_py_in in Hsat. congruence.
      * destruct (py_eq_str rv s) eqn:Heq.
        -- rewrite IH. apply py_eq_str_true in Heq.
           split; [intros [H _]|intros [[_ H] _]]; [|by split].
           split; [|done]. split; [by exists rv|done].
        -- split; [done|]. intros [[(rv' & [= <-] & Hsat) _] _].
           apply py_eq_str_true in Hsat. congruence.
      * split; [done|]. by intros [[(rv' & _ & Hsat) _] _].
    + split; [done|]. by intros [[(rv' & ? & _) _] _].
Qed.

Lemma edge_filter_loop_true items record pass_filter :
  (edge_filter_loop items record pass_filter).1 = true
  ↔ admits_edge items record ∧ (items = [] → pass_filter = true).
Proof.
  revert pass_filter.
  induction items as [|[k fv] items IH]; intros pass_filter; simpl.
  - split; [|by intros [_ H]; apply H].
    intros ->. split; [|done]. by intros k fv ?%elem_of_nil.
  - assert (admits_edge ((k, fv) :: items) record
            ↔ (is_category_key k = false →
               ∃ rv, record !! k = Some rv ∧ satisfies fv rv)
              ∧ admits_edge items record)
      as Hcons.
    { unfold admits_edge. split.
      - intros H. split; [apply H; left|]. intros k' fv' Hin. apply H. by right.
      - intros [H1 H2] k' fv' [[= -> ->]|Hin]%elem_of_cons; [done|by apply H2]. }
    rewrite Hcons.
    destruct (is_category_key k) eqn:Hkey.
    { rewrite IH. split; [intros [H _]|intros [[_ H] _]]; [|by split].
      split; [|done]. split; [done|done]. }
    destruct (record !! k) as [rv|] eqn:Hk.
    + destruct fv as [xs|s|ty]; simpl.
      * destruct (existsb (λ x, py_in x rv) xs) eqn:Hex.
        -- rewrite IH. apply existsb_py_in in Hex.
           split; [intros [H _]|intros [[_ H] _]]; [|by split].
           split; [|done]. split; [by exists rv|done].
        -- split; [done|]. intros [[H _] _].
           destruct (H eq_refl) as (rv' & [= <-] & Hsat).
           apply existsb_py_in in Hsat. congruence.
      * destruct (py_eq_str rv s) eqn:Heq.
        -- rewrite IH. apply py_eq_str_true in Heq.
           split; [intros [H _]|intros [[_ H] _]]; [|by split].
           split; [|done]. split; [by exists rv|done].
        -- split; [done|]. intros [[H _] _].
           destruct (H eq_refl) as (rv' & [= <-] & Hsat).
           apply py_eq_str_true in Hsat. congruence.
      * split; [done|]. intros [[H _] _].
        by destruct (H eq_refl) as (rv' & _ & Hsat).
    + split; [done|]. intros [[H _] _].
      by destruct (H eq_refl) as (rv' & ? & _).
Qed.

(** On a list-valued property the test of the code is the intersection
    of the specification. *)
Lemma satisfies_list fv l : satisfies fv (VList l) ↔ spec_satisfies fv (VList l).
Proof.
  destruct fv as [xs|s|ty]; simpl; [|done|done].
  split; intros (x & Hx & Hin); exists x; (split; [done|]).
  - by apply bool_decide_eq_true in Hin.
  - by apply bool_decide_eq_true.
Qed.

(** C8, as the code has it.  A node record is admitted exactly when every
    filter entry finds its key in the record with a value that passes the
    entry: for a list, set or tuple of the filter, some element [x] of it
    with [x in value], which is membership when the value is a list and
    occurrence as a substring when the value is a string; for a string of
    the filter, equality with the value; a filter value of another type
    passes nothing.  An edge record is admitted by the same rule, with the
    entries for [subject_category] and [object_category] left out.  An
    empty filter set admits every record.  On list-valued properties the
    rule is that of the specification. *)
Theorem check_filters_admit items record :
  ((check_node_filter items record).1 = true ↔ admits items record)
  ∧ ((check_edge_filter items record).1 = true ↔ admits_edge items record)
  ∧ (check_node_filter [] record).1 = true
  ∧ (check_edge_filter [] record).1 = true
  ∧ (∀ fv l, satisfies fv (VList l) ↔ spec_satisfies fv (VList l))
  ∧ (∀ xs s, satisfies (FColl xs) (VStr s) ↔ ∃ x, x ∈ xs ∧ occurs_in x s = true).
Proof.
  split_and!; [| |done|done|apply satisfies_list|done].
  - destruct items as [|item items].
    + split; [|done]. by intros _ k fv ?%elem_of_nil.
    + unfold check_node_filter. rewrite node_filter_loop_true.
      split; [by intros [H _]|by intros H].
  - destruct items as [|item items].
    + split; [|done]. by intros _ k fv ?%elem_of_nil.
    + unfold check_edge_filter. rewrite edge_filter_loop_true.
      split; [by intros [H _]|by intros H].
Qed.

Lemma check_filters_admit_witness :
  ((check_node_filter [("category", FColl ["biolink:Gene"])]
      {["category" := VList ["biolink:Gene"; "biolink:NamedThing"]]}).1 = true
   ↔ admits [("category", FColl ["biolink:Gene"])]
       {["category" := VList ["biolink:Gene"; "biolink:NamedThing"]]}).
Proof.
  exact (proj1 (check_filters_admit [("category", FColl ["biolink:Gene"])]
                  {["category" := VList ["biolink:Gene"; "biolink:NamedThing"]]})).
Defined.

(** C8, as stated, fails: the filter [{"name": {"kinase"}}] admits the
    node whose [name] is the string ["protein kinase"], and the value
    ["protein kinase"] has nothing in common with the set [{"kinase"}]. *)
Lemma check_node_filter_substring_counterexample :
  (check_node_filter [("name", FColl ["kinase"])]
     {["name" := VStr "protein kinase"]}).1 = true
  ∧ ¬ spec_admits [("name", FColl ["kinase"])]
        {["name" := VStr "protein kinase"]}.
Proof.
  split; [vm_compute; reflexivity|].
  intros H. destruct (H "name" (FColl ["kinase"])) as (rv & Hrv & x & Hx & Hin).
  { left. }
  rewrite lookup_singleton_eq in Hrv. injection Hrv as <-.
  apply list_elem_of_singleton in Hx as ->.
  by apply list_elem_of_singleton in Hin.
Qed.

End FilterFacts.

(** ** The properties on concrete runs *)

Section Runs.
Import MKG Process Scenario.

Lemma observed_two_nodes : observed curie_prefix two_nodes.
Proof.
  unfold two_nodes, with_gene, after, fresh.
  do 2 apply observed_node. apply observed_new. apply NoDup_nil_2.
Qed.

Lemma analyse_edge_cartesian_product_witness :
  accepting two_nodes
  ∧ node_catalog (self two_nodes) !! "X:1" = Some [1%nat]
  ∧ node_catalog (self two_nodes) !! "X:2" = Some [2%nat; 1%nat]
  ∧ e_predicate interacts = Some "biolink:interacts_with"
  ∧ e_relation interacts = Some "RO:1"
  ∧ ∃ w' ts,
      analyse_edge "X:1" "X:2" "e1" interacts two_nodes = (w', Ok tt)
      ∧ NoDup ts
      ∧ length ts = (length [1%nat] * length [2%nat; 1%nat])%nat
      ∧ (∀ t, t ∈ ts ↔
              ∃ i j sc oc, i ∈ [1%nat] ∧ j ∈ [2%nat; 1%nat]
                ∧ curie_map two_nodes !! i = Some sc
                ∧ curie_map two_nodes !! j = Some oc
                ∧ t = (sc, "biolink:interacts_with", oc))
      ∧ (∀ t, triple_count (self w') t
              = triple_count (self two_nodes) t
                + if bool_decide (t ∈ ts) then 1 else 0)
      ∧ (∀ t, t ∈ ts → has_relation (self w') t "RO:1")
      ∧ get_total_edges_count (self w')
        = get_total_edges_count (self two_nodes) + 1
      ∧ get_edge_count_by_predicate (self w') "biolink:interacts_with"
        = get_edge_count_by_predicate (self two_nodes) "biolink:interacts_with" + 1
      ∧ error_log (self w') = error_log (self two_nodes).
Proof.
  assert (accepting two_nodes) as Hacc
    by exact (observed_accepting curie_prefix two_nodes observed_two_nodes).
  split; [exact Hacc|].
  split; [vm_compute; reflexivity|].
  split; [vm_compute; reflexivity|].
  split; [reflexivity|]. split; [reflexivity|].
  apply (analyse_edge_cartesian_product two_nodes "X:1" "X:2" "e1" interacts
           "biolink:interacts_with" "RO:1" [1%nat] [2%nat; 1%nat] Hacc);
    vm_compute; reflexivity.
Defined.

Lemma analyse_node_duplicate_witness :
  node_catalog (self with_gene) !! "X:1" = Some [1%nat]
  ∧ ∃ w' line,
      analyse_node curie_prefix "X:1" protein_node with_gene = (w', Ok tt)
      ∧ error_log (self w') = error_log (self with_gene) ++ [line]
      ∧ node_catalog (self w') = node_catalog (self with_gene)
      ∧ node_stats (self w') = node_stats (self with_gene)
      ∧ curie_map w' = curie_map with_gene
      ∧ w' = on_self (set_error_log (λ l, l ++ [line])) with_gene.
Proof.
  split; [vm_compute; reflexivity|].
  apply (analyse_node_duplicate curie_prefix with_gene "X:1" protein_node [1%nat]).
  vm_compute. reflexivity.
Defined.

Lemma analyse_edge_unknown_subject_witness :
  e_predicate interacts = Some "biolink:interacts_with"
  ∧ node_catalog (self with_gene) !! "X:9" = None
  ∧ ∃ w' line,
      analyse_edge "X:9" "X:1" "e1" interacts with_gene = (w', Ok tt)
      ∧ get_total_edges_count (self w') = get_total_edges_count (self with_gene)
      ∧ (∀ q, get_edge_count_by_predicate (self w') q
              = get_edge_count_by_predicate (self with_gene) q)
      ∧ association_map (self w') = association_map (self with_gene)
      ∧ error_log (self w') = error_log (self with_gene) ++ [line].
Proof.
  split; [reflexivity|]. split; [vm_compute; reflexivity|].
  apply (analyse_edge_unknown_subject with_gene "X:9" "X:1" "e1" interacts
           "biolink:interacts_with"); [reflexivity|vm_compute; reflexivity].
Defined.

Lemma analyse_edge_uncategorised_subject_witness :
  e_predicate interacts = Some "biolink:interacts_with"
  ∧ node_catalog (self with_uncategorised) !! "X:0" = Some []
  ∧ node_catalog (self fresh) !! "X:0" = None
  ∧ n_category (NodeData None None) = None
  ∧ (∃ w',
       analyse_edge "X:0" "X:404" "e1" interacts with_uncategorised = (w', Ok tt)
       ∧ get_total_edges_count (self w')
         = get_total_edges_count (self with_uncategorised) + 1
       ∧ get_edge_count_by_predicate (self w') "biolink:interacts_with"
         = get_edge_count_by_predicate (self with_uncategorised)
             "biolink:interacts_with" + 1
       ∧ (∀ q, q ≠ "biolink:interacts_with" →
               get_edge_count_by_predicate (self w') q
               = get_edge_count_by_predicate (self with_uncategorised) q)
       ∧ association_map (self w') = association_map (self with_uncategorised)
       ∧ error_log (self w') = error_log (self with_uncategorised)
       ∧ node_catalog (self w') = node_catalog (self with_uncategorised))
  ∧ node_catalog
      (self (analyse_node curie_prefix "X:0" (NodeData None None) fresh).1) !! "X:0"
    = Some [].
Proof.
  split; [reflexivity|]. split; [vm_compute; reflexivity|].
  split; [vm_compute; reflexivity|]. split; [reflexivity|].
  split.
  - apply (analyse_edge_uncategorised_subject curie_prefix with_uncategorised
             "X:0" "X:404" "e1" interacts "biolink:interacts_with"
             "X:0" (NodeData None None));
      [reflexivity|vm_compute; reflexivity].
  - apply (analyse_edge_uncategorised_subject curie_prefix fresh
             "X:0" "X:404" "e1" interacts "biolink:interacts_with"
             "X:0" (NodeData None None));
      [vm_compute; reflexivity|reflexivity].
Defined.

(** The example scenario of the specification: [biolink:Gene] is counted
    for two nodes and [biolink:Protein] for one; there are two triples,
    each counted once; one edge. *)
Example example_scenario :
  get_node_count_by_category (self with_edge) "biolink:Gene" = 2
  ∧ get_node_count_by_category (self with_edge) "biolink:Protein" = 1
  ∧ size (association_map (self with_edge)) = 2%nat
  ∧ triple_count (self with_edge)
      ("biolink:Gene", "biolink:interacts_with", "biolink:Protein") = 1
  ∧ triple_count (self with_edge)
      ("biolink:Gene", "biolink:interacts_with", "biolink:Gene") = 1
  ∧ get_total_edges_count (self with_edge) = 1.
Proof. split_and!; vm_compute; reflexivity. Qed.

(** A node with piped categories whose identifier has a prefix. *)
Example example_piped :
  ∃ w' i j,
    analyse_node curie_prefix "X:2"
      (NodeData (Some ["biolink:Protein|biolink:Gene"]) (Some ["infores:test"]))
      with_gene = (w', Ok tt)
    ∧ get_node_count_by_category (self w') "biolink:Protein"
      = get_node_count_by_category (self with_gene) "biolink:Protein" + 1
    ∧ get_node_count_by_category (self w') "biolink:Gene"
      = get_node_count_by_category (self with_gene) "biolink:Gene" + 1
    ∧ node_catalog (self w') !! "X:2" = Some [i; j]
    ∧ i ≠ j
    ∧ curie_map w' !! i = Some "biolink:Protein"
    ∧ curie_map w' !! j = Some "biolink:Gene".
Proof.
  apply (analyse_node_piped curie_prefix with_gene "X:2" _
           "biolink:Protein" "biolink:Gene" "X").
  - apply (observed_accepting curie_prefix). unfold with_gene, after, fresh.
    apply observed_node, observed_new, NoDup_nil_2.
  - vm_compute. reflexivity.
  - reflexivity.
  - reflexivity.
  - reflexivity.
  - reflexivity.
  - discriminate.
Qed.

(** After the summary has been built the [relations] of the records are
    lists: an edge that repeats a relation is counted as before, and an
    edge that brings a new relation to a record raises [AttributeError],
    with the edge counter already incremented. *)
Example example_edge_after_summary :
  let repeated := analyse_edge "X:1" "X:2" "e2" interacts with_edge_finalized in
  let novel := analyse_edge "X:1" "X:2" "e3"
                 (EdgeData (Some "biolink:interacts_with") (Some "RO:2") None)
                 with_edge_finalized in
  repeated.2 = Ok tt
  ∧ triple_count (self repeated.1)
      ("biolink:Gene", "biolink:interacts_with", "biolink:Gene") = 2
  ∧ novel.2 = Raise (AttributeError "add")
  ∧ get_total_edges_count (self novel.1)
    = get_total_edges_count (self with_edge_finalized) + 1.
Proof. split_and!; vm_compute; reflexivity. Qed.



(** C9, as stated, fails: the index that the second instance gives to
    [biolink:Protein] is 1 when it is the first to register a category,
    and 2 when the first instance has registered [biolink:Gene] before;
    and the identifier of index 1, as the second instance reads it, is
    undefined before the first instance registers [biolink:Gene] and is
    [biolink:Gene] afterwards. *)
Lemma second_instance_index_counterexample :
  node_catalog (second protein_alone) !! "Y:1" = Some [1%nat]
  ∧ node_catalog (second protein_after_gene) !! "Y:1" = Some [2%nat]
  ∧ (in_second (on_catalog (Catalog.get_category_curie 1)) both).2
    = Raise IndexError
  ∧ (in_second (on_catalog (Catalog.get_category_curie 1))
       (in_first (analyse_node curie_prefix "X:1" gene_node) both).1).2
    = Ok "biolink:Gene".
Proof. split_and!; vm_compute; reflexivity. Qed.

(** C2, as stated, fails: the indices that a pass assigns do not start
    at 0.  The first category that the pass of a new instance registers
    gets the index 1, because the construction of the instance has
    registered ['unknown']; and in a pass that begins when an earlier
    instance has left two identifiers in the class-level list, the
    identifiers that are new get 2 and 3, and no identifier gets 1. *)
Lemma register_first_index_counterexample :
  curie_map fresh = ["unknown"]
  ∧ node_catalog (self with_gene) !! "X:1" = Some [1%nat]
  ∧ Catalog.register_all ["unknown"; "biolink:Protein"; "biolink:Disease"]
      ["unknown"; "biolink:Gene"]
    = (["unknown"; "biolink:Gene"; "biolink:Protein"; "biolink:Disease"],
       Ok [0%nat; 2%nat; 3%nat]).
Proof. split_and!; vm_compute; reflexivity. Qed.

Lemma shared_catalog_append_only_witness :
  second (in_first (analyse_node curie_prefix "X:1" gene_node) both).1 = second both
  ∧ first (in_second (analyse_node curie_prefix "X:1" gene_node) both).1 = first both
  ∧ second (in_first (analyse_edge "X:1" "X:2" "e1" interacts) both).1 = second both
  ∧ first (in_second (analyse_edge "X:1" "X:2" "e1" interacts) both).1 = first both.
Proof.
  exact (proj1 (shared_catalog_append_only curie_prefix both "X:1" gene_node
                  "X:1" "X:2" "e1" interacts)).
Defined.

Lemma analyse_node_piped_without_prefix_witness :
  accepting fresh
  ∧ node_catalog (self fresh) !! "nocolon" = None
  ∧ truthy (curie_prefix "nocolon") = None
  ∧ ∃ w' i,
      analyse_node curie_prefix "nocolon" (NodeData (Some ["A|B"]) None) fresh
      = (w', Raise (AttributeError "error_log"))
      ∧ get_node_count_by_category (self w') "A"
        = get_node_count_by_category (self fresh) "A" + 1
      ∧ get_node_count_by_category (self w') "B"
        = get_node_count_by_category (self fresh) "B"
      ∧ node_catalog (self w') !! "nocolon" = Some [i].
Proof.
  assert (accepting fresh) as Hacc.
  { apply (observed_accepting curie_prefix). apply observed_new, NoDup_nil_2. }
  split; [exact Hacc|]. split; [vm_compute; reflexivity|].
  split; [reflexivity|].
  apply (analyse_node_piped_without_prefix curie_prefix fresh "nocolon"
           (NodeData (Some ["A|B"]) None) "A" "B" Hacc);
    first [vm_compute; reflexivity | discriminate].
Defined.

End Runs.

(** ** More on the observation methods *)

Lemma for_each_app {S A} (l1 l2 : list A) (body : A → M S flow) s :
  for_each (l1 ++ l2) body s
  = (f ← for_each l1 body;
     match f with
     | Next => for_each l2 body
     | Return => mret Return
     end) s.
Proof.
  revert s. induction l1 as [|x l1 IH]; intros s; simpl.
  - run_step. reflexivity.
  - run_step. destruct (body x s) as [s1 [[]|e]]; [|done|done].
    rewrite IH. by run_step.
Qed.

(** Two nested loops over [l] and [f x] are one loop over the
    concatenation. *)
Lemma for_each_nested {S A B} (f : A → list B) (body : B → M S flow)
    (l : list A) s :
  for_each l (λ x, for_each (f x) body) s = for_each (l ≫= f) body s.
Proof.
  revert s. induction l as [|x l IH]; intros s; [done|].
  rewrite bind_cons, for_each_app. cbn [for_each]. run_step.
  destruct (for_each (f x) body s) as [s1 [[]|e]]; [apply IH|done|done].
Qed.

Section InsertStable.
Import MKG.
Variable get_prefix : string → option string.
Variable I : world → Prop.
Variable n : string.
Hypothesis I_catalog : ∀ w c,
  I w → I (World (Catalog.curie_map_add c (curie_map w)) (self w)).
Hypothesis I_node_catalog : ∀ w cids,
  I w → I (on_self (set_node_catalog (<[n := cids]>)) w).
Hypothesis I_node_stats : ∀ w key c,
  I w → I (on_self (set_node_stats (<[key := c]>)) w).

(** The loop body of [analyse_node] for the node [n] keeps every property
    that is kept by appending to the catalog, by assigning to the entry of
    [n] in the node catalog and by filing a [Category] object. *)
Lemma analyse_node_curie_keeps data c :
  keeps I (analyse_node_curie get_prefix n data c).
Proof.
  unfold keeps, analyse_node_curie. apply hoare_get_bind. intros w0.
  eapply hoare_weaken with (P' := I) (Q' := λ _, I); [|by intros s [-> ?]|done].
  eapply hoare_bind with (R := λ _, I).
  { destruct (node_stats (self w0) !! c); [by apply hoare_ret|].
    eapply hoare_bind with (R := λ _, I).
    - apply hoare_zoom. intros s Hs. unfold Category_init. run_step.
      by apply I_catalog.
    - intros cat. apply hoare_modify. intros s Hs. by apply I_node_stats. }
  intros ?. apply hoare_get_bind. intros w1.
  eapply hoare_weaken with (P' := I) (Q' := λ _, I); [|by intros s [-> ?]|done].
  destruct (node_stats (self w1) !! c) as [cat|]; [|by apply hoare_raise].
  eapply hoare_bind with (R := λ _, I).
  { apply hoare_zoom. intros s Hs. unfold Catalog.get_cid. run_step.
    destruct (list_index (category cat) (curie_map s)); run_step;
      by rewrite world_eta. }
  intros idx. apply hoare_get_bind. intros w2.
  eapply hoare_weaken with (P' := I) (Q' := λ _, I); [|by intros s [-> ?]|done].
  eapply hoare_bind with (R := λ _, I).
  { destruct (node_catalog (self w2) !! n) as [cids|]; [|by apply hoare_raise].
    destruct (bool_decide (idx ∈ cids)); [by apply hoare_ret|].
    apply hoare_modify. intros s Hs. by apply I_node_catalog. }
  intros ?. eapply hoare_bind with (R := λ _, I); [|intros; by apply hoare_ret].
  intros s Hs. unfold on_category.
  destruct (node_stats (self s) !! c) as [cat'|]; [|done].
  destruct (analyse_node_category get_prefix n data cat') as [c' [[]|e]];
    by apply I_node_stats.
Qed.

End InsertStable.

Section MoreEdges.
Import MKG.
Implicit Types (w : world) (n u v k : string).

(** The body of the outer loop when the object is not in the node
    catalog: a line is printed, both counters are decremented, and the
    method returns. *)
Lemma analyse_edge_subject_unknown_object w v data p i sc c :
  curie_map w !! i = Some sc →
  node_catalog (self w) !! v = None →
  predicates (self w) !! p = Some c →
  analyse_edge_subject v data p i w
  = (on_self (set_predicates (<[p := c + -1]>))
       (on_self (set_edge_record_count (λ c, c - 1))
          (on_self (set_error_log (λ l, l ++
             ["Edge 'object' node ID '" +:+ v +:+
              "' not found in node catalog? Ignoring..."])) w)),
     Ok Return).
Proof.
  intros Hsc Hv Hc.
  unfold analyse_edge_subject, on_catalog, Catalog.get_category_curie, print.
  run_step. rewrite Hsc. run_step. rewrite world_eta, Hv. run_step.
  erewrite add_predicate_run by (simpl; exact Hc). by run_step.
Qed.

(** X1.  An edge whose subject is in the node catalog with at least one
    category and whose object is not in the node catalog: the call
    returns normally, the counters read as before, the association map is
    untouched, and one line is printed. *)
Theorem analyse_edge_unknown_object w u v k data p i cu :
  accepting w →
  e_predicate data = Some p →
  node_catalog (self w) !! u = Some (i :: cu) →
  node_catalog (self w) !! v = None →
  ∃ w' line,
    analyse_edge u v k data w = (w', Ok tt)
    ∧ get_total_edges_count (self w') = get_total_edges_count (self w)
    ∧ (∀ q, get_edge_count_by_predicate (self w') q
            = get_edge_count_by_predicate (self w) q)
    ∧ association_map (self w') = association_map (self w)
    ∧ error_log (self w') = error_log (self w) ++ [line].
Proof.
  intros Hw Hp Hu Hv.
  destruct (acc_node_catalog _ Hw _ _ Hu) as [_ Hlt].
  destruct (lookup_lt_is_Some_2 (curie_map w) i) as [sc Hsc].
  { apply Hlt. left. }
  rewrite (analyse_edge_known_subject w u v k data p _ Hp Hu).
  cbn [for_each]. run_step.
  erewrite (analyse_edge_subject_unknown_object _ v data p i sc);
    [|exact Hsc|exact Hv|simpl; apply lookup_insert_eq].
  run_step. eexists _, _. split; [reflexivity|].
  unfold get_total_edges_count, get_edge_count_by_predicate. simpl.
  split_and!; [lia| |done|done].
  intros q. rewrite insert_insert_eq.
  destruct (decide (p = q)) as [<-|Hq].
  - rewrite lookup_insert_eq.
    destruct (predicates (self w) !! p) eqn:Hc; lia.
  - by rewrite lookup_insert_ne.
Qed.
End MoreEdges.

Section MoreNodes.
Import MKG Report.
Variable get_prefix : string → option string.
Implicit Types (w : world) (n u v k : string).

(** The keys of the node catalog after a node: the identifier of the node
    is added, whatever the outcome of the call. *)
Lemma analyse_node_dom w n data :
  dom (node_catalog (self (analyse_node get_prefix n data w).1))
  = {[n]} ∪ dom (node_catalog (self w)).
Proof.
  set (D := dom (node_catalog (self w))).
  set (I := λ s : world, dom (node_catalog (self s)) = {[n]} ∪ D).
  apply (hoare_final (λ s, s = w) I); [|done].
  unfold analyse_node. apply hoare_get_bind. intros w0.
  destruct (node_catalog (self w0) !! n) as [cids|] eqn:Hn.
  - apply hoare_modify. intros s [-> ->]. unfold I, D. simpl.
    apply elem_of_dom_2 in Hn. symmetry. apply subseteq_union_1_L.
    by apply singleton_subseteq_l.
  - eapply hoare_bind with (R := λ _, I).
    { apply hoare_modify. intros s [-> ->]. unfold I, D. simpl.
      by rewrite dom_insert_L. }
    intros ?. destruct (n_category data) as [categories|].
    + eapply hoare_bind with (R := λ _, I); [|intros; by apply hoare_ret].
      apply hoare_for_each. intros cd _. apply hoare_for_each. intros c _.
      apply analyse_node_curie_keeps; try done.
      intros s cids Hs. unfold I in *. simpl. rewrite dom_insert_L, Hs.
      by rewrite (assoc_L (∪)), union_idemp_L.
    + eapply hoare_bind with (R := λ _, I).
      * apply keeps_on_category. by intros s f Hs.
      * intros ?. apply keeps_print. by intros s f Hs.
Qed.


(** X3.  [get_total_nodes_count] after a node: one more for an identifier that
    is new, whether the node has a category or not and whether the call
    returns or raises; the same for an identifier that is known. *)
Theorem analyse_node_total_nodes_count w n data :
  get_total_nodes_count (self (analyse_node get_prefix n data w).1)
  = match node_catalog (self w) !! n with
    | Some _ => get_total_nodes_count (self w)
    | None => S (get_total_nodes_count (self w))
    end.
Proof.
  unfold get_total_nodes_count.
  rewrite <- !size_dom, analyse_node_dom.
  destruct (node_catalog (self w) !! n) as [cids|] eqn:Hn.
  - f_equal. apply elem_of_dom_2 in Hn. apply subseteq_union_1_L.
    by apply singleton_subseteq_l.
  - rewrite size_union, size_singleton; [done|].
    apply not_elem_of_dom in Hn. by apply disjoint_singleton_l.
Qed.

(** *** The aggregate count over the categories *)

Lemma total_counts_perm (l l' : list Category) (a : Z) :
  l ≡ₚ l' →
  foldl (λ total c, total + count c) a l = foldl (λ total c, total + count c) a l'.
Proof.
  intros Hp. revert a.
  induction Hp as [|x l l' _ IH|x y l|l l' l'' _ IH1 _ IH2]; intros a; simpl.
  - done.
  - apply IH.
  - f_equal. lia.
  - by rewrite IH1.
Qed.

Lemma total_counts_start (l : list Category) (a : Z) :
  foldl (λ total c, total + count c) a l
  = a + foldl (λ total c, total + count c) 0 l.
Proof.
  revert a. induction l as [|x l IH]; intros a; simpl; [lia|].
  rewrite (IH (a + count x)), (IH (0 + count x)). lia.
Qed.

Lemma total_node_counts_delete (m : mkg) (c : string) :
  get_total_node_counts_across_categories m
  = get_node_count_by_category m c
    + foldl (λ total c, total + count c) 0
        (map_to_list (delete c (node_stats m))).*2.
Proof.
  unfold get_total_node_counts_across_categories, get_node_count_by_category.
  destruct (node_stats m !! c) as [x|] eqn:Hc.
  - rewrite (total_counts_perm _ (x :: (map_to_list (delete c (node_stats m))).*2)).
    + simpl. by rewrite total_counts_start.
    + rewrite <- (map_to_list_delete _ _ _ Hc). done.
  - rewrite delete_id by done. lia.
Qed.

(** Counting one node under one category raises the aggregate count by
    one. *)
Lemma total_node_counts_step (m m' : mkg) (c : string) :
  (∀ c', c' ≠ c → node_stats m' !! c' = node_stats m !! c') →
  get_node_count_by_category m' c = get_node_count_by_category m c + 1 →
  get_total_node_counts_across_categories m'
  = get_total_node_counts_across_categories m + 1.
Proof.
  intros Hother Hc.
  rewrite (total_node_counts_delete m c), (total_node_counts_delete m' c), Hc.
  assert (delete c (node_stats m') = delete c (node_stats m)) as ->; [|lia].
  apply map_eq. intros c'. destruct (decide (c' = c)) as [->|Hne].
  - by rewrite !lookup_delete_eq.
  - rewrite !lookup_delete_ne by done. by apply Hother.
Qed.

(** *** A node with categories *)

(** The inner loop of [analyse_node] over the category tokens [ts] of a
    node whose identifier has a prefix. *)
Lemma analyse_node_tokens_run n data prefix ts :
  truthy (get_prefix n) = Some prefix →
  ∀ w cids,
  accepting w →
  node_catalog (self w) !! n = Some cids →
  ∃ w' cids',
    for_each ts (analyse_node_curie get_prefix n data) w = (w', Ok Next)
    ∧ accepting w'
    ∧ (∃ ext, curie_map w' = curie_map w ++ ext)
    ∧ node_catalog (self w') !! n = Some cids'
    ∧ (∀ i, i ∈ cids' ↔
            i ∈ cids ∨ ∃ c, c ∈ ts ∧ curie_map w' !! i = Some c)
    ∧ (∀ c, get_node_count_by_category (self w') c
            = get_node_count_by_category (self w) c
              + Z.of_nat (length (filter (λ t, t = c) ts)))
    ∧ get_total_node_counts_across_categories (self w')
      = get_total_node_counts_across_categories (self w) + Z.of_nat (length ts).
Proof.
  intros Hp. induction ts as [|t ts IH]; intros w cids Hw Hn.
  - exists w, cids. split; [done|]. split; [done|].
    split; [by exists []; rewrite app_nil_r|]. split; [done|]. split_and!.
    + intros i. split; [by left|]. intros [?|(c & ?%elem_of_nil & _)]; done.
    + intros c. simpl. lia.
    + simpl. lia.
  - destruct (analyse_node_curie_run get_prefix w n data t prefix cids Hw Hp Hn)
      as (w1 & idx & Hrun1 & Hw1 & [ext1 Hext1] & Hidx & Hn1 & Hcount1 & Hother1).
    destruct (IH w1 _ Hw1 Hn1)
      as (w' & cids' & Hrun & Hw' & [ext Hext] & Hn' & Hmem & Hcount & Htotal).
    exists w', cids'. cbn [for_each]. run_step. rewrite Hrun1.
    split; [exact Hrun|]. split; [done|].
    split; [exists (ext1 ++ ext); by rewrite Hext, Hext1, app_assoc|].
    split; [done|].
    assert (curie_map w' !! idx = Some t) as Hidx'.
    { rewrite Hext. by apply lookup_app_l_Some. }
    split_and!.
    + intros i. rewrite Hmem. split.
      * intros [Hi|(c & Hc & Hic)].
        -- case_bool_decide; [by left|].
           apply elem_of_app in Hi as [Hi| ->%list_elem_of_singleton]; [by left|].
           right. exists t. split; [left|done].
        -- right. exists c. split; [by right|done].
      * intros [Hi|(c & [->|Hc]%elem_of_cons & Hic)].
        -- left. case_bool_decide; [done|]. apply elem_of_app. by left.
        -- left.
           assert (i = idx) as ->
             by exact (NoDup_lookup _ _ _ _ (acc_curie_map _ Hw') Hic Hidx').
           case_bool_decide; [done|]. apply elem_of_app. right. left.
        -- right. by exists c.
    + intros c. rewrite Hcount, filter_cons.
      destruct (decide (t = c)) as [->|Hne].
      * rewrite Hcount1. simpl. lia.
      * unfold get_node_count_by_category in *.
        rewrite (Hother1 c) by done. lia.
    + rewrite Htotal, (total_node_counts_step (self w) (self w1) t Hother1 Hcount1).
      simpl. lia.
Qed.


(** The loops of [analyse_node] print nothing. *)
Lemma analyse_node_curies_error_log n data (ts : list string) w :
  error_log (self (for_each ts (analyse_node_curie get_prefix n data) w).1)
  = error_log (self w).
Proof.
  apply (hoare_final (λ s, s = w) (λ s, error_log (self s) = error_log (self w)));
    [|done].
  eapply hoare_weaken with (P' := λ s, error_log (self s) = error_log (self w))
                           (Q' := λ _ s, error_log (self s) = error_log (self w));
    [|by intros s ->|done].
  apply hoare_for_each. intros c _. by apply analyse_node_curie_keeps.
Qed.

Lemma analyse_node_with_categories w n data cats :
  node_catalog (self w) !! n = None →
  n_category data = Some cats →
  analyse_node get_prefix n data w
  = (for_each (cats ≫= split_pipe) (analyse_node_curie get_prefix n data);;
     mret tt)
      (on_self (set_node_catalog (<[n := []]>)) w).
Proof.
  intros Hn Hcats. unfold analyse_node. run_step. rewrite Hn. run_step.
  rewrite Hcats. run_step. by rewrite for_each_nested.
Qed.

(** X4.  A new node with categories whose identifier has a prefix: the call
    returns normally and prints nothing; with the category tokens of the
    node being the pieces of its category values between the ["|"], every
    category is counted once for each token equal to it; and the entry of
    the node in the node catalog holds, without repetition, exactly the
    indices of its tokens. *)
Theorem analyse_node_counts_tokens w n data cats prefix :
  accepting w →
  node_catalog (self w) !! n = None →
  truthy (get_prefix n) = Some prefix →
  n_category data = Some cats →
  ∃ w' cids,
    analyse_node get_prefix n data w = (w', Ok tt)
    ∧ (∀ c, get_node_count_by_category (self w') c
            = get_node_count_by_category (self w) c
              + Z.of_nat (length (filter (λ t, t = c) (cats ≫= split_pipe))))
    ∧ node_catalog (self w') !! n = Some cids
    ∧ NoDup cids
    ∧ (∀ i, i ∈ cids ↔
            ∃ c, c ∈ cats ≫= split_pipe ∧ curie_map w' !! i = Some c)
    ∧ error_log (self w') = error_log (self w).
Proof.
  intros Hw Hn Hp Hcats.
  rewrite (analyse_node_with_categories w n data cats Hn Hcats).
  set (w0 := on_self (set_node_catalog (<[n := []]>)) w).
  assert (accepting w0) as Hw0.
  { apply accepting_insert_node_catalog; [done|apply NoDup_nil_2|].
    by intros i ?%elem_of_nil. }
  pose proof (analyse_node_curies_error_log n data (cats ≫= split_pipe) w0) as Hlog.
  destruct (analyse_node_tokens_run n data prefix (cats ≫= split_pipe) Hp w0 [] Hw0)
    as (w' & cids & Hrun & Hw' & _ & Hn' & Hmem & Hcount & _).
  { simpl. apply lookup_insert_eq. }
  rewrite Hrun in Hlog. exists w', cids. run_step. rewrite Hrun. run_step.
  split; [done|]. split; [exact Hcount|]. split; [done|].
  split; [exact (proj1 (acc_node_catalog _ Hw' _ _ Hn'))|].
  split; [|exact Hlog].
  intros i. rewrite Hmem. split; [|by right].
  by intros [?%elem_of_nil|?].
Qed.

(** X5.  After such a node [get_total_node_counts_across_categories] is higher
    by the number of category tokens of the node, repeated tokens
    included. *)
Theorem analyse_node_total_counts w n data cats prefix :
  accepting w →
  node_catalog (self w) !! n = None →
  truthy (get_prefix n) = Some prefix →
  n_category data = Some cats →
  get_total_node_counts_across_categories
    (self (analyse_node get_prefix n data w).1)
  = get_total_node_counts_across_categories (self w)
    + Z.of_nat (length (cats ≫= split_pipe)).
Proof.
  intros Hw Hn Hp Hcats.
  rewrite (analyse_node_with_categories w n data cats Hn Hcats).
  set (w0 := on_self (set_node_catalog (<[n := []]>)) w).
  assert (accepting w0) as Hw0.
  { apply accepting_insert_node_catalog; [done|apply NoDup_nil_2|].
    by intros i ?%elem_of_nil. }
  destruct (analyse_node_tokens_run n data prefix (cats ≫= split_pipe) Hp w0 [] Hw0)
    as (w' & cids & Hrun & _ & _ & _ & _ & _ & Htotal).
  { simpl. apply lookup_insert_eq. }
  run_step. rewrite Hrun. run_step. exact Htotal.
Qed.

End MoreNodes.

Section Reading.
Import MKG Report.
Variable get_prefix : string → option string.
Implicit Types (w : world) (n u v k : string).

(** *** Reading the node statistics *)

(** X6.  [get_node_stats] drops the category ['unknown'] when nothing was
    counted under it and touches nothing else; called again it changes
    nothing and returns the same. *)
Theorem get_node_stats_idempotent w :
  ∃ w',
    get_node_stats w = (w', Ok (node_stats (self w')))
    ∧ get_node_stats w' = (w', Ok (node_stats (self w')))
    ∧ w' = on_self (set_node_stats (λ _, node_stats (self w'))) w
    ∧ (∀ c, c ≠ "unknown" → node_stats (self w') !! c = node_stats (self w) !! c)
    ∧ node_stats (self w') !! "unknown"
      = match node_stats (self w) !! "unknown" with
        | Some c => if bool_decide (count c = 0) then None else Some c
        | None => None
        end.
Proof.
  unfold get_node_stats. run_step.
  destruct (node_stats (self w) !! "unknown") as [c|] eqn:Hc.
  - destruct (bool_decide (count c = 0)) eqn:Hz; run_step.
    + eexists. split; [reflexivity|].
      replace (node_stats (self (on_self (set_node_stats (delete "unknown")) w))
               !! "unknown") with (@None Category)
        by (simpl; by rewrite lookup_delete_eq).
      run_step. simpl. rewrite lookup_delete_eq.
      split; [done|]. split; [done|]. split; [|done].
      intros c' Hc'. by rewrite lookup_delete_ne.
    + exists w. run_step. rewrite Hc. cbv beta iota. rewrite Hz. run_step.
      split; [done|]. split; [done|]. split; [by destruct w as [cm []]|].
      done.
  - exists w. run_step. rewrite Hc. run_step.
    split; [done|]. split; [done|]. split; [by destruct w as [cm []]|].
    done.
Qed.

(** X7.  After [get_node_stats] has dropped the empty category ['unknown'], a
    new node without ['category'] is no longer counted: the call raises
    [KeyError], prints nothing, and the node stays in the node catalog
    with no category. *)
Theorem analyse_node_uncategorised_after_get_node_stats w n data c :
  node_stats (self w) !! "unknown" = Some c →
  count c = 0 →
  node_catalog (self w) !! n = None →
  n_category data = None →
  ∃ w1 w2,
    get_node_stats w = (w1, Ok (node_stats (self w1)))
    ∧ analyse_node get_prefix n data w1 = (w2, Raise (KeyError "unknown"))
    ∧ node_catalog (self w2) !! n = Some []
    ∧ get_total_nodes_count (self w2) = S (get_total_nodes_count (self w))
    ∧ node_stats (self w2) = delete "unknown" (node_stats (self w))
    ∧ error_log (self w2) = error_log (self w).
Proof.
  intros Hc Hz Hn Hcat. unfold get_node_stats. run_step.
  rewrite Hc, (bool_decide_eq_true_2 _ Hz). run_step.
  eexists _, _. split; [reflexivity|].
  unfold analyse_node, on_category. run_step. simpl. rewrite Hn. run_step.
  rewrite Hcat. run_step.
  replace (node_stats (self (on_self (set_node_catalog (<[n := []]>))
             (on_self (set_node_stats (delete "unknown")) w))) !! "unknown")
    with (@None Category) by (simpl; by rewrite lookup_delete_eq).
  split; [reflexivity|]. simpl. rewrite lookup_insert_eq.
  split; [done|]. split; [|done].
  unfold get_total_nodes_count. simpl. by rewrite map_size_insert_None.
Qed.

Lemma keys_delete_unknown (m : gmap string Category) :
  length (filter (λ c, c ≠ "unknown") (map_to_list (delete "unknown" m)).*1)
  = length (filter (λ c, c ≠ "unknown") (map_to_list m).*1).
Proof.
  destruct (m !! "unknown") as [x|] eqn:Hx; [|by rewrite delete_id].
  rewrite <- (insert_delete_id m "unknown" x Hx) at 2.
  rewrite map_to_list_insert by apply lookup_delete_eq. simpl.
  by rewrite filter_cons_False by (by intros H).
Qed.

(** X8.  [get_number_of_categories] does not depend on whether
    [get_node_stats] has been called. *)
Theorem get_number_of_categories_get_node_stats w :
  get_number_of_categories (self (get_node_stats w).1)
  = get_number_of_categories (self w).
Proof.
  unfold get_number_of_categories, get_node_stats. run_step.
  destruct (node_stats (self w) !! "unknown") as [c|]; [|done].
  destruct (bool_decide (count c = 0)); run_step; [|done].
  simpl. apply keys_delete_unknown.
Qed.

End Reading.

Section DiscardedEdges.
Import MKG Report.
Implicit Types (w : world) (n u v k : string).

(** X2.  An edge whose subject is not in the node catalog is taken out of the
    counters again, but its predicate stays a key of [self.predicates]:
    a predicate seen only on such edges is counted by
    [get_predicate_count], with an edge count of 0. *)
Theorem analyse_edge_discarded_predicate_count w u v k data p :
  e_predicate data = Some p →
  node_catalog (self w) !! u = None →
  predicates (self (analyse_edge u v k data w).1)
  = <[p := get_edge_count_by_predicate (self w) p]> (predicates (self w))
  ∧ get_predicate_count (self (analyse_edge u v k data w).1)
    = match predicates (self w) !! p with
      | Some _ => get_predicate_count (self w)
      | None => S (get_predicate_count (self w))
      end.
Proof.
  intros Hp Hu. unfold analyse_edge, subscript, get_edge_count_by_predicate,
    get_predicate_count. rewrite Hp. run_step. simpl.
  destruct (predicates (self w) !! p) as [c|] eqn:Hc; run_step; simpl.
  - erewrite add_predicate_run by (simpl; exact Hc). run_step. simpl. rewrite Hu.
    unfold print. run_step.
    erewrite add_predicate_run by (simpl; apply lookup_insert_eq).
    simpl. rewrite insert_insert_eq.
    replace (c + 1 + -1) with c by lia.
    split; [done|]. by rewrite insert_id.
  - erewrite add_predicate_run by (simpl; apply lookup_insert_eq).
    run_step. simpl. rewrite Hu. unfold print. run_step.
    erewrite add_predicate_run by (simpl; apply lookup_insert_eq).
    simpl. rewrite !insert_insert_eq. split; [done|].
    by rewrite map_size_insert_None.
Qed.

End DiscardedEdges.

(** ** What an edge reads and writes *)

Section EdgeFrame.
Import MKG.

(** [F] is a change of the state that leaves alone what [analyse_edge]
    reads (the catalog, the node catalog, the predicate counters and the
    association map) and is independent of what it writes (the edge
    counter, the predicate counters, the association map and the error
    log). *)
Variable F : world → world.
Hypothesis F_curie_map : ∀ w, curie_map (F w) = curie_map w.
Hypothesis F_node_catalog : ∀ w,
  node_catalog (self (F w)) = node_catalog (self w).
Hypothesis F_predicates : ∀ w, predicates (self (F w)) = predicates (self w).
Hypothesis F_association_map : ∀ w,
  association_map (self (F w)) = association_map (self w).
Hypothesis F_set_edge_record_count : ∀ w g,
  F (on_self (set_edge_record_count g) w) = on_self (set_edge_record_count g) (F w).
Hypothesis F_set_predicates : ∀ w g,
  F (on_self (set_predicates g) w) = on_self (set_predicates g) (F w).
Hypothesis F_set_association_map : ∀ w g,
  F (on_self (set_association_map g) w) = on_self (set_association_map g) (F w).
Hypothesis F_set_error_log : ∀ w g,
  F (on_self (set_error_log g) w) = on_self (set_error_log g) (F w).

(** Running [m] after the change is the change after running [m]. *)
Local Abbreviation commutes m := (∀ w, m (F w) = (F (m w).1, (m w).2)).

Lemma commutes_ret {A} (a : A) : commutes (mret a : M world A).
Proof. done. Qed.

Lemma commutes_raise {A} e : commutes (raise e : M world A).
Proof. done. Qed.

Lemma commutes_bind {A B} (m : M world A) (k : A → M world B) :
  commutes m → (∀ a, commutes (k a)) → commutes (m ≫= k).
Proof.
  intros Hm Hk w. rewrite !bind_run, Hm.
  destruct (m w) as [w1 [a|e]]; simpl; [apply Hk|done].
Qed.

Lemma commutes_for_each {A} (body : A → M world flow) (l : list A) :
  (∀ x, commutes (body x)) → commutes (for_each l body).
Proof.
  intros Hbody. induction l as [|x l IH]; simpl; [done|].
  apply commutes_bind; [done|]. by intros [].
Qed.

Lemma commutes_print msg : commutes (print msg).
Proof. intros w. unfold print, modify. simpl. by rewrite F_set_error_log. Qed.

Lemma commutes_add_predicate p d : commutes (add_predicate p d).
Proof.
  intros w. unfold add_predicate, zoom. rewrite F_predicates.
  destruct (add_at p d (predicates (self w))) as [d' r]. simpl.
  by rewrite F_set_predicates.
Qed.

Lemma commutes_get_bind {B} (k : world → M world B) :
  (∀ w0 w, k (F w0) w = k w0 w) → (∀ w0, commutes (k w0)) →
  commutes (get ≫= k).
Proof.
  intros Hk1 Hk2 w. rewrite !bind_run. unfold get. rewrite Hk1. apply Hk2.
Qed.

Lemma commutes_modify_edge_record_count g :
  commutes (modify (on_self (set_edge_record_count g))).
Proof. intros w. unfold modify. simpl. by rewrite F_set_edge_record_count. Qed.

Lemma commutes_modify_predicates g :
  commutes (modify (on_self (set_predicates g))).
Proof. intros w. unfold modify. simpl. by rewrite F_set_predicates. Qed.

Lemma commutes_modify_association_map g :
  commutes (modify (on_self (set_association_map g))).
Proof. intros w. unfold modify. simpl. by rewrite F_set_association_map. Qed.

Lemma commutes_get_category_curie i :
  commutes (on_catalog (Catalog.get_category_curie i)).
Proof.
  intros w. unfold on_catalog, zoom, Catalog.get_category_curie.
  rewrite F_curie_map. run_step.
  assert (World (curie_map w) (self (F w)) = F w) as Hw
    by (by rewrite <- (F_curie_map w), world_eta).
  destruct (curie_map w !! i); run_step; simpl; by rewrite Hw, world_eta.
Qed.

Lemma commutes_on_association {A} t (m : M association A) :
  commutes (on_association t m).
Proof.
  intros w. unfold on_association. rewrite F_association_map.
  destruct (association_map (self w) !! t) as [a|]; [|done].
  destruct (m a) as [a' r]. simpl. by rewrite F_set_association_map.
Qed.

Lemma analyse_edge_object_commutes data sc p i :
  commutes (analyse_edge_object data sc p i).
Proof.
  unfold analyse_edge_object.
  apply commutes_bind; [apply commutes_get_category_curie|]. intros oc. cbv zeta.
  apply commutes_get_bind.
  { intros w0 w. by rewrite F_association_map. }
  intros w0. apply commutes_bind.
  { destruct (association_map (self w0) !! (sc, p, oc));
      [apply commutes_ret|apply commutes_modify_association_map]. }
  intros ?. apply commutes_bind; [apply commutes_on_association|].
  intros ?. apply commutes_ret.
Qed.

Lemma analyse_edge_subject_commutes v data p i :
  commutes (analyse_edge_subject v data p i).
Proof.
  unfold analyse_edge_subject.
  apply commutes_bind; [apply commutes_get_category_curie|]. intros sc.
  apply commutes_get_bind.
  { intros w0 w. by rewrite F_node_catalog. }
  intros w0. destruct (node_catalog (self w0) !! v) as [obj_cats|].
  - apply commutes_for_each. intros j. apply analyse_edge_object_commutes.
  - apply commutes_bind; [apply commutes_print|]. intros ?.
    apply commutes_bind; [apply commutes_modify_edge_record_count|]. intros ?.
    apply commutes_bind; [apply commutes_add_predicate|]. intros ?.
    apply commutes_ret.
Qed.

(** [analyse_edge] reads nothing but the catalog, the node catalog, the
    predicate counters and the association map, and writes nothing but
    the edge counter, the predicate counters, the association map and
    the error log. *)
Lemma analyse_edge_commutes u v k data : commutes (analyse_edge u v k data).
Proof.
  unfold analyse_edge.
  apply commutes_bind; [apply commutes_modify_edge_record_count|]. intros ?.
  apply commutes_bind.
  { unfold subscript. destruct (e_predicate data);
      [apply commutes_ret|apply commutes_raise]. }
  intros p. apply commutes_get_bind.
  { intros w0 w. by rewrite F_predicates. }
  intros w0. apply commutes_bind.
  { destruct (predicates (self w0) !! p);
      [apply commutes_ret|apply commutes_modify_predicates]. }
  intros ?. apply commutes_bind; [apply commutes_add_predicate|]. intros ?.
  apply commutes_get_bind.
  { intros w1 w. by rewrite F_node_catalog. }
  intros w1. destruct (node_catalog (self w1) !! u) as [subj_cats|].
  - apply commutes_bind; [|intros ?; apply commutes_ret].
    apply commutes_for_each. intros i. apply analyse_edge_subject_commutes.
  - apply commutes_bind; [apply commutes_print|]. intros ?.
    apply commutes_bind; [apply commutes_modify_edge_record_count|]. intros ?.
    apply commutes_add_predicate.
Qed.

(** So does a loop that gives every edge of a list to [analyse_edge]. *)
Lemma analyse_edges_commutes (es : list (string * string * string * edge_data)) :
  commutes (Report.for_all es (λ '(u, v, k, data), analyse_edge u v k data)).
Proof.
  unfold Report.for_all.
  apply commutes_bind; [|intros ?; apply commutes_ret].
  apply commutes_for_each. intros [[[u v] k] data].
  apply commutes_bind; [apply analyse_edge_commutes|].
  intros ?. apply commutes_ret.
Qed.

End EdgeFrame.

Section EdgeInsertStable.
Import MKG.
Variable I : world → Prop.
Hypothesis I_edge_record_count : ∀ w f,
  I w → I (on_self (set_edge_record_count f) w).
Hypothesis I_predicates : ∀ w f, I w → I (on_self (set_predicates f) w).
Hypothesis I_association : ∀ w t a,
  I w → I (on_self (set_association_map (<[t := a]>)) w).
Hypothesis I_error_log : ∀ w f, I w → I (on_self (set_error_log f) w).

Lemma get_category_curie_keeps_insert i :
  keeps I (on_catalog (Catalog.get_category_curie i)).
Proof.
  apply hoare_zoom. intros s Hs. unfold Catalog.get_category_curie. run_step.
  destruct (curie_map s !! i); run_step; by rewrite world_eta.
Qed.

Lemma add_predicate_keeps_insert p d : keeps I (add_predicate p d).
Proof.
  apply hoare_zoom. intros s Hs.
  destruct (add_at p d (predicates (self s))) as [d' [[]|e]];
    by apply I_predicates.
Qed.

Lemma analyse_edge_object_keeps_insert data sc p i :
  keeps I (analyse_edge_object data sc p i).
Proof.
  unfold keeps, analyse_edge_object.
  eapply hoare_bind; [apply get_category_curie_keeps_insert|]. intros oc. cbv zeta.
  apply hoare_get_bind. intros w0.
  eapply hoare_weaken with (P' := I) (Q' := λ _, I); [|by intros s [-> ?]|done].
  eapply hoare_bind with (R := λ _, I).
  { destruct (association_map (self w0) !! (sc, p, oc)); [by apply hoare_ret|].
    apply hoare_modify. intros s Hs. by apply I_association. }
  intros ?. eapply hoare_bind with (R := λ _, I); [|intros; by apply hoare_ret].
  intros s Hs. unfold on_association.
  destruct (association_map (self s) !! (sc, p, oc)) as [rec|]; [|done].
  destruct (count_association data rec) as [rec' [[]|e]]; by apply I_association.
Qed.

Lemma analyse_edge_subject_keeps_insert v data p i :
  keeps I (analyse_edge_subject v data p i).
Proof.
  unfold keeps, analyse_edge_subject.
  eapply hoare_bind; [apply get_category_curie_keeps_insert|]. intros sc.
  apply hoare_get_bind. intros w0.
  eapply hoare_weaken with (P' := I) (Q' := λ _, I); [|by intros s [-> ?]|done].
  destruct (node_catalog (self w0) !! v) as [obj_cats|].
  - apply hoare_for_each. intros j _. apply analyse_edge_object_keeps_insert.
  - eapply hoare_bind with (R := λ _, I).
    { apply hoare_modify. intros s Hs. by apply I_error_log. }
    intros ?. eapply hoare_bind with (R := λ _, I).
    { apply hoare_modify. intros s Hs. by apply I_edge_record_count. }
    intros ?. eapply hoare_bind; [apply add_predicate_keeps_insert|].
    intros ?. by apply hoare_ret.
Qed.

(** [analyse_edge] keeps, whether it returns or raises, every property
    of the state that is kept by assigning to the edge counter, to the
    predicate counters and to the error log and by assigning a record to
    a key of the association map. *)
Lemma analyse_edge_keeps_insert u v k data : keeps I (analyse_edge u v k data).
Proof.
  unfold keeps, analyse_edge.
  eapply hoare_bind with (R := λ _, I).
  { apply hoare_modify. intros s Hs. by apply I_edge_record_count. }
  intros ?. eapply hoare_bind with (R := λ _, I).
  { unfold subscript. destruct (e_predicate data);
      [by apply hoare_ret|by apply hoare_raise]. }
  intros p. apply hoare_get_bind. intros w0.
  eapply hoare_weaken with (P' := I) (Q' := λ _, I); [|by intros s [-> ?]|done].
  eapply hoare_bind with (R := λ _, I).
  { destruct (predicates (self w0) !! p); [by apply hoare_ret|].
    apply hoare_modify. intros s Hs. by apply I_predicates. }
  intros ?. eapply hoare_bind; [apply add_predicate_keeps_insert|].
  intros ?. apply hoare_get_bind. intros w1.
  eapply hoare_weaken with (P' := I) (Q' := λ _, I); [|by intros s [-> ?]|done].
  destruct (node_catalog (self w1) !! u) as [subj_cats|].
  - eapply hoare_bind with (R := λ _, I); [|intros; by apply hoare_ret].
    apply hoare_for_each. intros i _. apply analyse_edge_subject_keeps_insert.
  - eapply hoare_bind with (R := λ _, I).
    { apply hoare_modify. intros s Hs. by apply I_error_log. }
    intros ?. eapply hoare_bind with (R := λ _, I).
    { apply hoare_modify. intros s Hs. by apply I_edge_record_count. }
    intros ?. apply add_predicate_keeps_insert.
Qed.

End EdgeInsertStable.

(** ** The edge statistics *)

Section EdgeStats.
Import MKG Report.
Implicit Types (w : world) (n u v k : string) (t : triple).


Lemma deref_fmap (f : association → association) (am : gmap triple association)
    (l : list (triple * association)) :
  (∀ t a, (t, a) ∈ l → am !! t = Some a) →
  deref (f <$> am) l.*1 = f <$> l.*2.
Proof.
  unfold deref. induction l as [|[t a] l IH]; intros Hl; [done|].
  cbn [fmap list_fmap omap list_omap fst snd].
  rewrite lookup_fmap, (Hl t a) by left. simpl. f_equal.
  apply IH. intros t' a' H. apply Hl. by right.
Qed.

Lemma deref_map_to_list (f : association → association)
    (am : gmap triple association) :
  deref (f <$> am) (map_to_list am).*1 = f <$> (map_to_list am).*2.
Proof. apply deref_fmap. intros t a. apply elem_of_map_to_list. Qed.

(** With a non-empty cache [get_edge_stats] changes nothing and returns
    the records the cached references stand for. *)
Lemma get_edge_stats_cached w t l :
  edge_stats (self w) = t :: l →
  get_edge_stats w = (w, Ok (deref (association_map (self w)) (edge_stats (self w)))).
Proof.
  intros He. unfold get_edge_stats. run_step. rewrite He. run_step.
  by rewrite He.
Qed.

(** The run of [get_edge_stats] with nothing cached, as the model has
    it: the records are listed in the key order of the finite map. *)
Lemma get_edge_stats_uncached w :
  edge_stats (self w) = [] →
  ∃ w',
    get_edge_stats w
    = (w', Ok (listify <$> (map_to_list (association_map (self w))).*2))
    ∧ w' = on_self (set_edge_stats (λ _, (map_to_list (association_map (self w))).*1))
             (on_self (set_association_map (fmap listify)) w)
    ∧ get_edge_mapping_count w = (w', Ok (size (association_map (self w))))
    ∧ get_edge_stats w'
      = (w', Ok (listify <$> (map_to_list (association_map (self w))).*2)).
Proof.
  intros He. eexists. split_and!; [| reflexivity | |].
  - unfold get_edge_stats. run_step. rewrite He. run_step. simpl.
    by rewrite deref_map_to_list.
  - unfold get_edge_mapping_count, get_edge_stats. run_step. rewrite He.
    run_step. simpl. rewrite deref_map_to_list.
    by rewrite length_fmap, length_fmap, length_map_to_list.
  - set (w' := on_self (set_edge_stats _) _).
    destruct (edge_stats (self w')) as [|t l] eqn:Hk.
    + assert (association_map (self w) = ∅) as Hempty.
      { apply map_to_list_empty_iff. simpl in Hk. by apply fmap_nil_inv in Hk. }
      unfold get_edge_stats. run_step. rewrite Hk. run_step. subst w'.
      destruct w as [cm []]. simpl in *. subst.
      by rewrite !fmap_empty, map_to_list_empty.
    + rewrite (get_edge_stats_cached w' t l Hk). subst w'. simpl.
      by rewrite deref_map_to_list.
Qed.

(** X10.  The first call of [get_edge_stats] (nothing cached): every record of
    the association map has its relations turned into a list, and the
    list returned holds each record once, in an order that is not
    stated here, so [get_edge_mapping_count] is the number of triples;
    a second call changes nothing and returns the same list. *)
Theorem get_edge_stats_first w :
  edge_stats (self w) = [] →
  ∃ w' stats refs,
    get_edge_stats w = (w', Ok stats)
    ∧ stats ≡ₚ listify <$> (map_to_list (association_map (self w))).*2
    ∧ refs ≡ₚ (map_to_list (association_map (self w))).*1
    ∧ w' = on_self (set_edge_stats (λ _, refs))
             (on_self (set_association_map (fmap listify)) w)
    ∧ get_edge_mapping_count w = (w', Ok (size (association_map (self w))))
    ∧ get_edge_stats w' = (w', Ok stats).
Proof.
  intros He.
  destruct (get_edge_stats_uncached w He) as (w' & Hrun & Hw' & Hcount & Hagain).
  exists w', (listify <$> (map_to_list (association_map (self w))).*2),
    ((map_to_list (association_map (self w))).*1).
  by split_and!.
Qed.

Lemma deref_length (am : gmap triple association) (l : list triple) :
  (∀ t, t ∈ l → is_Some (am !! t)) → length (deref am l) = length l.
Proof.
  unfold deref. induction l as [|t l IH]; intros Hl; [done|].
  destruct (Hl t) as [a Ha]; [left|]. cbn [omap list_omap]. rewrite Ha. simpl.
  f_equal. apply IH. intros t' Ht'. apply Hl. by right.
Qed.

(** X11.  The cache of [get_edge_stats] is never refreshed: once a first call
    has returned a non-empty list, [get_edge_mapping_count] stays the
    number of triples of that moment, whatever edges are observed
    afterwards. *)
Theorem get_edge_mapping_count_stale w
    (es : list (string * string * string * edge_data)) :
  edge_stats (self w) = [] →
  association_map (self w) ≠ ∅ →
  (get_edge_mapping_count
     (for_all es (λ '(u, v, k, data), analyse_edge u v k data)
        (get_edge_stats w).1).1).2
  = Ok (size (association_map (self w))).
Proof.
  intros He Hne.
  destruct (get_edge_stats_uncached w He) as (w1 & Hrun & Hw1 & _ & _).
  rewrite Hrun. cbn [fst].
  set (keys := (map_to_list (association_map (self w))).*1).
  set (I := λ s : world,
    edge_stats (self s) = keys
    ∧ ∀ t, t ∈ keys → is_Some (association_map (self s) !! t)).
  assert (I w1) as Hw1I.
  { subst w1. split; [done|].
    intros t ([t' a'] & -> & Ha%elem_of_map_to_list)%list_elem_of_fmap_1. simpl.
    rewrite lookup_fmap, Ha. by eexists. }
  assert (I (for_all es (λ '(u, v, k, data), analyse_edge u v k data) w1).1)
    as [Hkeys Hres].
  { apply (hoare_final I I); [|done]. unfold for_all.
    eapply hoare_bind with (R := λ _, I); [|intros; by apply hoare_ret].
    apply hoare_for_each. intros [[[u v] k] data] _.
    eapply hoare_bind with (R := λ _, I); [|intros; by apply hoare_ret].
    apply analyse_edge_keeps_insert.
    - by intros s f [? ?].
    - by intros s f [? ?].
    - intros s t a [Hk Hr]. split; [done|]. intros t' Ht'. simpl.
      destruct (decide (t = t')) as [<-|Hd].
      + rewrite lookup_insert_eq. by eexists.
      + rewrite lookup_insert_ne by done. by apply Hr.
    - by intros s f [? ?]. }
  generalize dependent (for_all es (λ '(u, v, k, data), analyse_edge u v k data) w1).1.
  intros w2 Hkeys Hres.
  destruct keys as [|t l] eqn:Hk.
  { exfalso. apply Hne. apply map_to_list_empty_iff.
    by apply fmap_nil_inv in Hk. }
  unfold get_edge_mapping_count.
  rewrite bind_run, (get_edge_stats_cached _ t l Hkeys). run_step. cbn [snd].
  rewrite Hkeys, (deref_length _ _ Hres), <- Hk. unfold keys.
  by rewrite length_fmap, length_map_to_list.
Qed.

(** X12.  After [get_edge_stats] the relations of the records are lists, which
    have no method [add]: an edge that brings a new relation to the
    record of an existing triple raises [AttributeError].  The edge
    counter and the counter of the predicate have been incremented by
    then and stay so; the association map is not changed. *)
Theorem analyse_edge_new_relation_after_get_edge_stats
    w u v k data p r i cu j cv sc oc :
  e_predicate data = Some p →
  e_relation data = Some r →
  node_catalog (self w) !! u = Some (i :: cu) →
  node_catalog (self w) !! v = Some (j :: cv) →
  curie_map w !! i = Some sc →
  curie_map w !! j = Some oc →
  edge_stats (self w) = [] →
  is_Some (association_map (self w) !! (sc, p, oc)) →
  ¬ has_relation (self w) (sc, p, oc) r →
  ∃ w',
    analyse_edge u v k data (get_edge_stats w).1
    = (w', Raise (AttributeError "add"))
    ∧ get_total_edges_count (self w') = get_total_edges_count (self w) + 1
    ∧ get_edge_count_by_predicate (self w') p
      = get_edge_count_by_predicate (self w) p + 1
    ∧ association_map (self w') = association_map (self (get_edge_stats w).1).
Proof.
  intros Hp Hr Hu Hv Hi Hj He [a Ha] Hnew.
  destruct (get_edge_stats_uncached w He) as (w1 & Hrun & Hw1 & _ & _).
  rewrite Hrun. cbn [fst].
  assert (node_catalog (self w1) !! u = Some (i :: cu)) as Hu1 by (by subst w1).
  rewrite (analyse_edge_known_subject w1 u v k data p _ Hp Hu1).
  cbn [for_each]. run_step.
  unfold analyse_edge_subject at 1, on_catalog, Catalog.get_category_curie.
  run_step. subst w1. simpl. rewrite Hi. run_step. simpl. rewrite Hv.
  cbn [for_each]. run_step.
  unfold analyse_edge_object at 1, on_catalog, Catalog.get_category_curie.
  run_step. simpl. rewrite Hj. run_step. simpl.
  rewrite lookup_fmap, Ha. simpl. run_step.
  unfold on_association. simpl. rewrite lookup_fmap, Ha. simpl.
  unfold count_association, subscript, add_relation. rewrite Hr. run_step. simpl.
  unfold has_relation in Hnew. rewrite Ha in Hnew.
  rewrite bool_decide_eq_false_2.
  2:{ destruct (a_relations a); [by rewrite elem_of_elements|done]. }
  run_step. simpl. eexists. split; [reflexivity|].
  unfold get_total_edges_count, get_edge_count_by_predicate. simpl.
  rewrite lookup_insert_eq. split; [done|]. split; [done|].
  apply insert_id. by rewrite lookup_fmap, Ha.
Qed.

End EdgeStats.

(** ** The aggregate count over the mappings *)

Section EdgeTotals.
Import MKG Report.
Implicit Types (w : world) (n u v k : string) (t : triple).

Local Abbreviation sum_counts := (foldl (λ total e, total + a_count e)).
Local Abbreviation total_of am := (sum_counts 0 (map_to_list am).*2).

Lemma sum_counts_perm (l l' : list association) (a : Z) :
  l ≡ₚ l' → sum_counts a l = sum_counts a l'.
Proof.
  intros Hp. revert a.
  induction Hp as [|x l l' _ IH|x y l|l l' l'' _ IH1 _ IH2]; intros a; simpl.
  - done.
  - apply IH.
  - f_equal. lia.
  - by rewrite IH1.
Qed.

Lemma sum_counts_start (l : list association) (a : Z) :
  sum_counts a l = a + sum_counts 0 l.
Proof.
  revert a. induction l as [|x l IH]; intros a; simpl; [lia|].
  rewrite (IH (a + a_count x)), (IH (0 + a_count x)). lia.
Qed.

Lemma sum_counts_listify (l : list association) (a : Z) :
  sum_counts a (listify <$> l) = sum_counts a l.
Proof. revert a. induction l as [|x l IH]; intros a; simpl; [done|apply IH]. Qed.

Lemma total_of_delete (am : gmap triple association) t :
  total_of am
  = match am !! t with Some a => a_count a | None => 0 end
    + total_of (delete t am).
Proof.
  destruct (am !! t) as [a|] eqn:Ha.
  - rewrite (sum_counts_perm _ (a :: (map_to_list (delete t am)).*2)).
    + simpl. by rewrite sum_counts_start.
    + by rewrite <- (map_to_list_delete _ _ _ Ha).
  - rewrite delete_id by done. lia.
Qed.

(** Assigning a record whose count is one higher than the counter of
    its triple raises the aggregate by one. *)
Lemma total_of_insert (m : mkg) t a' :
  a_count a' = triple_count m t + 1 →
  total_of (<[t := a']> (association_map m)) = total_of (association_map m) + 1.
Proof.
  unfold triple_count. intros Hc.
  rewrite (total_of_delete (<[t := a']> _) t), (total_of_delete (association_map m) t).
  rewrite lookup_insert_eq, delete_insert_eq, Hc. lia.
Qed.

Lemma get_total_edge_counts_first w :
  edge_stats (self w) = [] →
  (get_total_edge_counts_across_mappings w).2
  = Ok (total_of (association_map (self w))).
Proof.
  intros He. unfold get_total_edge_counts_across_mappings.
  destruct (get_edge_stats_uncached w He) as (w' & Hrun & _).
  rewrite bind_run, Hrun. run_step. cbn [snd]. by rewrite sum_counts_listify.
Qed.

Lemma same_but_associations_insert w t a :
  same_but_associations w (on_self (set_association_map (<[t := a]>)) w).
Proof. unfold same_but_associations. by destruct w as [cm []]. Qed.

(** The inner loop: one more in the aggregate for every object
    category. *)
Lemma analyse_edge_objects_total data sc p r obj_cats :
  e_relation data = Some r →
  ∀ w, accepting w →
  (∀ j, j ∈ obj_cats → (j < length (curie_map w))%nat) →
  ∃ w', for_each obj_cats (analyse_edge_object data sc p) w = (w', Ok Next)
        ∧ accepting w'
        ∧ same_but_associations w w'
        ∧ total_of (association_map (self w'))
          = total_of (association_map (self w)) + Z.of_nat (length obj_cats).
Proof.
  intros Hr. induction obj_cats as [|j js IH]; intros w Hw Hlt.
  - exists w. split; [done|]. split; [done|].
    split; [apply same_but_associations_refl|]. simpl. lia.
  - destruct (lookup_lt_is_Some_2 (curie_map w) j) as [oc Hoc]; [apply Hlt; left|].
    destruct (analyse_edge_object_run w data sc p r j oc Hw Hr Hoc)
      as (a' & Hrun & Hcount & _).
    pose proof (hoare_final _ _ _ w (accepting_analyse_edge_object data sc p j) Hw)
      as Hw1.
    rewrite Hrun in Hw1. cbn [fst] in Hw1.
    destruct (IH _ Hw1) as (w' & Hloop & Hw' & Hsame & Htotal).
    { intros j' Hj'. simpl. apply Hlt. by right. }
    exists w'. split.
    { cbn [for_each]. run_step. rewrite Hrun. exact Hloop. }
    split; [done|]. split.
    { eapply same_but_associations_trans; [|exact Hsame].
      apply same_but_associations_insert. }
    rewrite Htotal. cbn [self on_self association_map set_association_map].
    rewrite (total_of_insert (self w) _ a' Hcount).
    rewrite length_cons. lia.
Qed.

(** The outer loop: for every subject category, one more for every
    object category. *)
Lemma analyse_edge_subjects_total v data p r cv subj_cats :
  e_relation data = Some r →
  ∀ w, accepting w →
  node_catalog (self w) !! v = Some cv →
  (∀ i, i ∈ subj_cats → (i < length (curie_map w))%nat) →
  ∃ w', for_each subj_cats (analyse_edge_subject v data p) w = (w', Ok Next)
        ∧ same_but_associations w w'
        ∧ total_of (association_map (self w'))
          = total_of (association_map (self w))
            + Z.of_nat (length subj_cats * length cv).
Proof.
  intros Hr. induction subj_cats as [|i cs IH]; intros w Hw Hv Hlt.
  - exists w. split; [done|]. split; [apply same_but_associations_refl|].
    simpl. lia.
  - destruct (lookup_lt_is_Some_2 (curie_map w) i) as [sc Hsc]; [apply Hlt; left|].
    destruct (analyse_edge_objects_total data sc p r cv Hr w Hw)
      as (w1 & Hinner & Hw1 & Hsame1 & Htotal1).
    { intros j Hj. by apply (proj2 (acc_node_catalog _ Hw _ _ Hv)). }
    assert (analyse_edge_subject v data p i w = (w1, Ok Next)) as Hstep.
    { unfold analyse_edge_subject, on_catalog, Catalog.get_category_curie.
      run_step. rewrite Hsc. run_step. rewrite world_eta, Hv. exact Hinner. }
    pose proof Hsame1 as Heq1. unfold same_but_associations in Heq1.
    destruct (IH w1 Hw1) as (w' & Hloop & Hsame & Htotal).
    { rewrite Heq1. exact Hv. }
    { intros i' Hi'. rewrite (same_but_associations_curie_map _ _ Hsame1).
      apply Hlt. by right. }
    exists w'. split.
    { cbn [for_each]. run_step. rewrite Hstep. exact Hloop. }
    split; [by eapply same_but_associations_trans|].
    rewrite Htotal, Htotal1. rewrite length_cons. lia.
Qed.

(** X13.  An edge between a subject with [m] categories and an object with
    [n] categories adds [m * n] to
    [get_total_edge_counts_across_mappings]. *)
Theorem analyse_edge_total_edge_counts w u v k data p r cu cv :
  accepting w →
  edge_stats (self w) = [] →
  e_predicate data = Some p →
  e_relation data = Some r →
  node_catalog (self w) !! u = Some cu →
  node_catalog (self w) !! v = Some cv →
  ∃ x,
    (get_total_edge_counts_across_mappings w).2 = Ok x
    ∧ (get_total_edge_counts_across_mappings (analyse_edge u v k data w).1).2
      = Ok (x + Z.of_nat (length cu * length cv)).
Proof.
  intros Hw He Hp Hr Hu Hv.
  exists (total_of (association_map (self w))).
  split; [by apply get_total_edge_counts_first|].
  rewrite (analyse_edge_known_subject w u v k data p cu Hp Hu).
  set (w0 := on_self (set_predicates _) _).
  assert (accepting w0) as Hw0 by (by apply (accepting_same w)).
  destruct (analyse_edge_subjects_total v data p r cv cu Hr w0 Hw0)
    as (w' & Hloop & Hsame & Htotal); [exact Hv| |].
  { intros i Hi. by apply (proj2 (acc_node_catalog _ Hw _ _ Hu)). }
  assert ((for_each cu (analyse_edge_subject v data p) ≫= λ _, mret tt) w0
          = (w', Ok tt)) as -> by (run_step; by rewrite Hloop).
  cbn [fst]. rewrite get_total_edge_counts_first.
  - by rewrite Htotal.
  - unfold same_but_associations in Hsame. rewrite Hsame. exact He.
Qed.

End EdgeTotals.

(** ** Summarizing a graph *)

Section Summaries.
Import MKG Report.
Variable get_prefix : string → option string.
Implicit Types (w : world) (g : graph).

Local Abbreviation observe_nodes g :=
  (for_all (g_nodes g) (λ '(n, data), analyse_node get_prefix n data)).
Local Abbreviation observe_edges g :=
  (for_all (g_edges g) (λ '(u, v, k, data), analyse_edge u v k data)).

(** What [get_node_stats] does to [self.node_stats]. *)
Local Abbreviation drop_unknown :=
  (λ ns : gmap string Category,
     match ns !! "unknown" with
     | Some c => if bool_decide (count c = 0) then delete "unknown" ns else ns
     | None => ns
     end).

Lemma get_node_stats_eq w :
  get_node_stats w
  = (on_self (set_node_stats drop_unknown) w,
     Ok (drop_unknown (node_stats (self w)))).
Proof.
  unfold get_node_stats. run_step.
  destruct w as [cm [nm nc ns ec pr am es gs log]]. unfold on_self, set_node_stats.
  cbn [self node_stats].
  destruct (ns !! "unknown") as [c|] eqn:Hc; [|by run_step].
  destruct (bool_decide (count c = 0)) eqn:Hz; run_step; by rewrite ?Hc, ?Hz.
Qed.

(** Observing records changes neither the name nor [graph_stats]. *)
Lemma observe_nodes_keeps g (I : world → Prop) :
  (∀ w c, I w → I (World (Catalog.curie_map_add c (curie_map w)) (self w))) →
  (∀ w n cids, I w → I (on_self (set_node_catalog (<[n := cids]>)) w)) →
  (∀ w f, I w → I (on_self (set_node_stats f) w)) →
  (∀ w f, I w → I (on_self (set_error_log f) w)) →
  keeps I (observe_nodes g).
Proof.
  intros H1 H2 H3 H4. unfold keeps, for_all.
  eapply hoare_bind with (R := λ _, I); [|intros; by apply hoare_ret].
  apply hoare_for_each. intros [n data] _.
  eapply hoare_bind with (R := λ _, I); [|intros; by apply hoare_ret].
  by apply analyse_node_keeps.
Qed.

Lemma observe_edges_keeps g (I : world → Prop) :
  (∀ w f, I w → I (on_self (set_edge_record_count f) w)) →
  (∀ w f, I w → I (on_self (set_predicates f) w)) →
  (∀ w t a, I w → I (on_self (set_association_map (<[t := a]>)) w)) →
  (∀ w f, I w → I (on_self (set_error_log f) w)) →
  keeps I (observe_edges g).
Proof.
  intros H1 H2 H3 H4. unfold keeps, for_all.
  eapply hoare_bind with (R := λ _, I); [|intros; by apply hoare_ret].
  apply hoare_for_each. intros [[[u v] k] data] _.
  eapply hoare_bind with (R := λ _, I); [|intros; by apply hoare_ret].
  by apply analyse_edge_keeps_insert.
Qed.

Lemma observe_edges_node_stats g f w :
  observe_edges g (on_self (set_node_stats f) w)
  = (on_self (set_node_stats f) (observe_edges g w).1, (observe_edges g w).2).
Proof. by apply analyse_edges_commutes. Qed.

(** The two ways of summarizing, step by step. *)
Lemma observe_then_summarize_run g name_arg w :
  observe_then_summarize get_prefix g name_arg w
  = match observe_nodes g w with
    | (w1, Ok _) =>
        match observe_edges g w1 with
        | (w2, Ok _) => get_graph_summary name_arg w2
        | (w2, Raise e) => (w2, Raise e)
        end
    | (w1, Raise e) => (w1, Raise e)
    end.
Proof.
  unfold observe_then_summarize. rewrite bind_run.
  destruct (observe_nodes g w) as [w1 [[]|e]]; [|done].
  rewrite bind_run. by destruct (observe_edges g w1) as [w2 [[]|e]].
Qed.

Lemma get_graph_summary_new name_arg w :
  graph_stats (self w) = None →
  get_graph_summary name_arg w
  = (get_edge_stats;;
     modify (on_self (set_graph_stats (λ _,
       Some match truthy name_arg with
            | Some nm => nm
            | None => name (self w)
            end)));;
     w' ← get; mret (read_graph_stats (self w')))
      (on_self (set_node_stats drop_unknown) w).
Proof.
  intros Hg. unfold get_graph_summary. rewrite (bind_run get). unfold get at 1.
  rewrite Hg, !bind_run, get_node_stats_eq.
  run_step. by destruct (get_edge_stats _) as [w3 [stats|e]].
Qed.

Lemma summarize_graph_run g name_arg w :
  graph_stats (self w) = None →
  summarize_graph get_prefix g name_arg w
  = match observe_nodes g w with
    | (w1, Ok _) =>
        match observe_edges g w1 with
        | (w2, Ok _) =>
            (get_edge_stats;;
             modify (on_self (set_graph_stats (λ _,
               Some match truthy name_arg with
                    | Some nm => nm
                    | None => name (self w)
                    end)));;
             w' ← get; mret (read_graph_stats (self w')))
              (on_self (set_node_stats drop_unknown) w2)
        | (w2, Raise e) => (on_self (set_node_stats drop_unknown) w2, Raise e)
        end
    | (w1, Raise e) => (w1, Raise e)
    end.
Proof.
  intros Hg. unfold summarize_graph, summarize_graph_nodes, summarize_graph_edges.
  rewrite (bind_run get). unfold get at 1. rewrite Hg, !bind_run.
  destruct (observe_nodes g w) as [w1 [[]|e]]; [|done].
  rewrite get_node_stats_eq. rewrite !bind_run, observe_edges_node_stats.
  destruct (observe_edges g w1) as [w2 [[]|e]]; [|done]. cbn [fst snd].
  run_step. by destruct (get_edge_stats _) as [w3 [stats|e]].
Qed.

(** X14.  [summarize_graph] on a graph is the streaming use of the class on
    the records of the graph: when giving every node and then every edge
    to the instance and asking for the summary returns, [summarize_graph]
    returns the same summary and leaves the same state; and when the
    former raises, so does [summarize_graph], with the same exception. *)
Theorem summarize_graph_streaming g name_arg w :
  graph_stats (self w) = None →
  match observe_then_summarize get_prefix g name_arg w with
  | (w', Ok s) => summarize_graph get_prefix g name_arg w = (w', Ok s)
  | (_, Raise e) => (summarize_graph get_prefix g name_arg w).2 = Raise e
  end.
Proof.
  intros Hg.
  set (I := λ s : world,
    graph_stats (self s) = None ∧ name (self s) = name (self w)).
  assert (I w) as Hw by done.
  assert (I (observe_nodes g w).1) as HN.
  { apply (hoare_final I I); [|done].
    apply observe_nodes_keeps; by intros ? ? []. }
  rewrite observe_then_summarize_run, (summarize_graph_run g name_arg w Hg).
  destruct (observe_nodes g w) as [w1 [[]|e]]; [|done]. cbn [fst] in HN.
  assert (I (observe_edges g w1).1) as HE.
  { apply (hoare_final I I); [|done].
    apply observe_edges_keeps; by intros ? ? []. }
  destruct (observe_edges g w1) as [w2 [[]|e]]; [|done].
  cbn [fst] in HE. destruct HE as [Hg2 Hname2].
  rewrite (get_graph_summary_new name_arg w2 Hg2), Hname2.
  match goal with
  | |- match ?run with _ => _ end => by destruct run as [w3 [s|e]]
  end.
Qed.

(** X22.  The summary that [get_graph_summary] builds on an instance that has
    neither a summary nor cached edge statistics: its nodes are the
    category statistics without an empty ['unknown'] category, its edges
    are the records of the association map with their relations as
    lists, each once and in an order that is not stated here, and its
    name is the argument, or the name of the instance when the argument
    is [None] or empty. *)
Theorem get_graph_summary_content name_arg w :
  graph_stats (self w) = None →
  edge_stats (self w) = [] →
  ∃ w' s,
    get_graph_summary name_arg w = (w', Ok (Some s))
    ∧ read_graph_stats (self w') = Some s
    ∧ s_nodes s
      = match node_stats (self w) !! "unknown" with
        | Some c =>
            if bool_decide (count c = 0)
            then delete "unknown" (node_stats (self w))
            else node_stats (self w)
        | None => node_stats (self w)
        end
    ∧ s_edges s ≡ₚ listify <$> (map_to_list (association_map (self w))).*2
    ∧ s_name s = match name_arg with
                 | Some "" | None => name (self w)
                 | Some nm => nm
                 end.
Proof.
  intros Hg He.
  rewrite (get_graph_summary_new name_arg w Hg).
  set (w1 := on_self (set_node_stats drop_unknown) w).
  destruct (get_edge_stats_uncached w1) as (w2 & Hrun & Hw2 & _); [by subst w1|].
  rewrite bind_run, Hrun. run_step.
  eexists _, _. split; [reflexivity|].
  unfold read_graph_stats. subst w2 w1.
  cbn [self on_self set_graph_stats set_edge_stats set_association_map
       set_node_stats graph_stats node_stats association_map edge_stats
       s_nodes s_edges s_name].
  split; [done|]. split; [done|].
  split; [by rewrite deref_map_to_list|].
  by destruct name_arg as [[|c nm]|].
Qed.

End Summaries.

(** ** Counting by source *)

Section Sources.
Import MKG Report.
Variable get_prefix : string → option string.
Implicit Types (w : world) (n : string) (d : gmap string Z).

(** The loop [for s in data['provided_by']] over a [count_by_source]
    dictionary: every source is counted as often as it occurs. *)
Lemma tally_sources_lookup d (sources : list string) (s : string) :
  default 0 (foldl tally_source d sources !! s)
  = default 0 (d !! s) + Z.of_nat (length (filter (λ x, x = s) sources)).
Proof.
  revert d. induction sources as [|x sources IH]; intros d; simpl; [lia|].
  rewrite IH, filter_cons. unfold tally_source.
  destruct (decide (x = s)) as [->|Hne].
  - destruct (d !! s) as [k|] eqn:Hk; rewrite lookup_insert_eq; simpl; lia.
  - destruct (d !! x) as [k|]; rewrite lookup_insert_ne by done; lia.
Qed.

(** X15.  [Category.analyse_node_category] for a node identifier with a
    prefix: the count is one higher, the prefix is among the prefixes,
    and in [count_by_source] every source of the node's ['provided_by']
    is counted as often as the list names it; a node without
    ['provided_by'] is counted under ['unknown']. *)
Theorem analyse_node_category_counts n data c prefix :
  truthy (get_prefix n) = Some prefix →
  is_Some (count_by_source c !! "unknown") →
  ∃ c',
    analyse_node_category get_prefix n data c = (c', Ok tt)
    ∧ category c' = category c
    ∧ count c' = count c + 1
    ∧ id_prefixes c' = id_prefixes c ∪ {[prefix]}
    ∧ ∀ s, default 0 (count_by_source c' !! s)
           = default 0 (count_by_source c !! s)
             + Z.of_nat (length (filter (λ x, x = s)
                 match n_provided_by data with
                 | Some sources => sources
                 | None => ["unknown"]
                 end)).
Proof.
  intros Hp [k Hu]. unfold analyse_node_category. run_step. rewrite Hp. run_step.
  destruct (n_provided_by data) as [sources|]; run_step; simpl.
  - eexists. split; [reflexivity|]. simpl. split_and!; try done.
    intros s. apply tally_sources_lookup.
  - unfold add_at. run_step. rewrite Hu. run_step.
    eexists. split; [reflexivity|]. simpl. split_and!; try done.
    intros s. rewrite filter_cons.
    destruct (decide ("unknown" = s)) as [<-|Hne].
    + rewrite lookup_insert_eq, Hu. simpl. lia.
    + rewrite lookup_insert_ne by done. simpl. lia.
Qed.

(** X16.  A new node without ['category'] whose identifier has a prefix: the
    call returns normally; the node is counted under ['unknown'] and
    under no other category; it enters the node catalog without a
    category index; one line is printed. *)
Theorem analyse_node_without_category w n data prefix :
  accepting w →
  node_catalog (self w) !! n = None →
  n_category data = None →
  truthy (get_prefix n) = Some prefix →
  is_Some (node_stats (self w) !! "unknown") →
  ∃ w' line,
    analyse_node get_prefix n data w = (w', Ok tt)
    ∧ get_node_count_by_category (self w') "unknown"
      = get_node_count_by_category (self w) "unknown" + 1
    ∧ (∀ c, c ≠ "unknown" →
         node_stats (self w') !! c = node_stats (self w) !! c)
    ∧ node_catalog (self w') = <[n := []]> (node_catalog (self w))
    ∧ curie_map w' = curie_map w
    ∧ error_log (self w') = error_log (self w) ++ [line].
Proof.
  intros Hw Hn Hcat Hp [c Hc].
  destruct (acc_node_stats _ Hw _ _ Hc) as (_ & _ & Hu).
  destruct (analyse_node_category_run get_prefix n data c prefix Hp Hu)
    as (c' & Hrun & _ & Hcount).
  unfold analyse_node. run_step. rewrite Hn. run_step. rewrite Hcat.
  unfold on_category, print. run_step. simpl. rewrite Hc, Hrun. run_step.
  eexists _, _. split; [reflexivity|]. simpl.
  unfold get_node_count_by_category. simpl.
  rewrite lookup_insert_eq, Hc. split_and!; try done.
  intros c0 Hc0. by rewrite lookup_insert_ne.
Qed.

End Sources.

(** ** The alphabet of a normalised source *)

Section InforesAlphabet.
Import Infores Charset.
Implicit Types (s repl : string) (P : ascii → bool).

Lemma all_chars_app P s1 s2 :
  all_chars P (s1 +:+ s2) = all_chars P s1 && all_chars P s2.
Proof.
  induction s1 as [|c s1 IH]; simpl; [done|]. by rewrite IH, andb_assoc.
Qed.

Lemma all_chars_ext P Q s :
  (∀ c, P c = Q c) → all_chars P s = all_chars Q s.
Proof. intros H. induction s as [|c s IH]; simpl; [done|]. by rewrite H, IH. Qed.

(** [re.sub] brings no character that is neither in the text nor in the
    replacement. *)
Lemma all_chars_sub_from P r repl k s :
  all_chars P repl = true → all_chars P s = true →
  all_chars P (sub_from r repl k s) = true.
Proof.
  intros Hrepl. revert k. induction s as [|c s IH]; intros k Hs; [done|].
  simpl in Hs. apply andb_true_iff in Hs as [Hc Hs]. simpl.
  destruct k as [|k]; [|by apply IH].
  destruct (match_length r (String c s)) as [[|k]|].
  - simpl. rewrite Hc. by apply IH.
  - rewrite all_chars_app, Hrepl. by apply IH.
  - simpl. rewrite Hc. by apply IH.
Qed.

Lemma all_chars_lstrip P s :
  all_chars P s = true → all_chars P (lstrip s) = true.
Proof.
  induction s as [|c s IH]; [done|]. intros Hs. simpl.
  destruct (is_space c); [|done].
  simpl in Hs. apply andb_true_iff in Hs as [_ Hs]. by apply IH.
Qed.

Lemma all_chars_rstrip P s :
  all_chars P s = true → all_chars P (rstrip s) = true.
Proof.
  induction s as [|c s IH]; [done|]. intros Hs.
  simpl in Hs. apply andb_true_iff in Hs as [Hc Hs]. simpl.
  specialize (IH Hs). destruct (rstrip s) as [|c' r].
  - destruct (is_space c); simpl; [done|by rewrite Hc].
  - simpl in *. by rewrite Hc.
Qed.

Lemma lower_char_not_upper c : between 65 90 (lower_char c) = false.
Proof. by destruct c as [[] [] [] [] [] [] [] []]. Qed.

(** [str.lower] leaves no upper-case letter. *)
Lemma all_chars_lower s :
  all_chars (λ c, negb (between 65 90 c)) (lower s) = true.
Proof.
  induction s as [|c s IH]; [done|]. simpl.
  by rewrite lower_char_not_upper, IH.
Qed.

(** Deleting the matches of a character class leaves no character of
    the class. *)
Lemma all_chars_delete_class (class : ascii → bool) s :
  all_chars (λ c, negb (class c)) (re_sub (OneOf class) "" s) = true.
Proof.
  unfold re_sub. induction s as [|c s IH]; [done|]. simpl.
  destruct (class c) eqn:Hc; simpl; [done|]. by rewrite Hc, IH.
Qed.

Lemma all_chars_and P Q s :
  all_chars P s = true → all_chars Q s = true →
  all_chars (λ c, P c && Q c) s = true.
Proof.
  induction s as [|c s IH]; [done|]. simpl.
  intros [-> ?]%andb_true_iff [-> ?]%andb_true_iff. by apply IH.
Qed.

Lemma word_char_infores c :
  is_word c && negb (between 65 90 c) = true →
  c ≠ "_"%char →
  is_infores_char c = true.
Proof.
  by destruct c as [[] [] [] [] [] [] [] []].
Qed.

(** Replacing the underscores of a text of lower-case word characters by
    hyphens gives a text of lower-case letters, digits and hyphens. *)
Lemma all_chars_hyphenate s :
  all_chars (λ c, is_word c && negb (between 65 90 c)) s = true →
  all_chars is_infores_char (re_sub (Literal "_") "-" s) = true.
Proof.
  unfold re_sub. induction s as [|c s IH]; [done|]. intros Hs.
  simpl in Hs. apply andb_true_iff in Hs as [Hc Hs]. specialize (IH Hs).
  cbn [sub_from match_length String.prefix].
  destruct (ascii_dec "_" c) as [<-|Hu].
  - assert (String.prefix "" s = true) as -> by (by destruct s).
    exact IH.
  - cbn [all_chars]. rewrite IH, (word_char_infores c Hc); [done|].
    by intros ->.
Qed.

(** X17.  A normalised source consists of lower-case letters, digits and
    hyphens: for text in the ASCII range, and for every rewrite rule of
    the model, that is, a pattern without metacharacters and, with such
    a pattern, a replacement without backslash. *)
Theorem process_infores_alphabet (rule : option (list string)) (rw : rewrite)
    (source : string) :
  rewrite_of rule = Some rw →
  all_chars is_ascii source = true →
  all_chars is_ascii (_substr rw) = true →
  all_chars is_ascii (_prefix rw) = true →
  all_chars is_infores_char (_process_infores rw source) = true.
Proof.
  intros _ _ _ _. unfold _process_infores. cbv zeta.
  apply all_chars_hyphenate. apply all_chars_and.
  - rewrite (all_chars_ext is_word (λ c, negb (negb (is_word c))))
      by (intros c; by rewrite negb_involutive).
    apply (all_chars_delete_class (λ c, negb (is_word c))).
  - apply all_chars_sub_from; [done|].
    apply all_chars_sub_from; [done|]. apply all_chars_lower.
Qed.

End InforesAlphabet.

(** ** The list parser and the catalog of sources *)

Section ParserList.
Import Infores Charset.
Implicit Types (rw : rewrite) (st : source_state) (sources : list string).

Lemma infores_to_catalog_run infores source st :
  _infores_to_catalog infores source st
  = (SourceState (default_provenance st)
       (<[infores := default ∅ (_infores_catalog st !! infores) ∪ {[source]}]>
          (_infores_catalog st)),
     Ok tt).
Proof. done. Qed.

(** The loop of [parser_list]: the identifiers that are not empty, in the
    order of the sources; and the catalog holds, under every identifier,
    what it held before and the sources that gave this identifier. *)
Lemma parser_list_loop_run rw sources st :
  ∃ st',
    parser_list_loop rw sources st
    = (st', Ok (filter (λ i, i ≠ "") (_process_infores rw <$> sources)))
    ∧ default_provenance st' = default_provenance st
    ∧ ∀ infores raw,
        raw ∈ default ∅ (_infores_catalog st' !! infores)
        ↔ raw ∈ default ∅ (_infores_catalog st !! infores)
          ∨ (raw ∈ sources ∧ _process_infores rw raw = infores ∧ infores ≠ "").
Proof.
  revert st. induction sources as [|source sources IH]; intros st.
  - exists st. split; [done|]. split; [done|]. intros infores raw.
    split; [by left|]. by intros [?|[?%elem_of_nil _]].
  - cbn [parser_list_loop fmap list_fmap]. cbv zeta. rewrite filter_cons.
    destruct (_process_infores rw source) as [|c i] eqn:Hi.
    + destruct (IH st) as (st' & Hrun & Hd & Hcat).
      exists st'. rewrite decide_False by (by intros H; apply H).
      split; [done|]. split; [done|]. intros infores raw.
      rewrite Hcat, elem_of_cons. split.
      * intros [?|(? & ? & ?)]; [by left|right; by auto].
      * intros [?|([->|?] & Heq & Hne)]; [by left| |right; by auto].
        rewrite Hi in Heq. by subst.
    + rewrite decide_True by done.
      destruct (IH (SourceState (default_provenance st)
                      (<[String c i := default ∅ (_infores_catalog st !! String c i)
                                        ∪ {[source]}]> (_infores_catalog st))))
        as (st' & Hrun & Hd & Hcat).
      exists st'. split.
      { run_step. rewrite infores_to_catalog_run. run_step. rewrite Hrun.
        by run_step. }
      split; [done|]. intros infores raw.
      rewrite Hcat, elem_of_cons. cbn [_infores_catalog].
      destruct (decide (infores = String c i)) as [->|Hne].
      * rewrite lookup_insert_eq. cbn [default]. unfold id.
        rewrite elem_of_union, elem_of_singleton. split.
        -- intros [[?| ->]|(? & ? & ?)]; [by left|right|right; by auto].
           by split_and!; [left|..].
        -- intros [?|([->|?] & ? & ?)]; [by left; left|by left; right|].
           right. by auto.
      * rewrite lookup_insert_ne by done. split.
        -- intros [?|(? & ? & ?)]; [by left|right; by auto].
        -- intros [?|([->|?] & Heq & ?)]; [by left| |right; by auto].
           rewrite Hi in Heq. by subst.
Qed.

(** X18.  [parser_list], for text in the ASCII range and a rewrite rule
    of the model (a pattern without metacharacters and, with such a
    pattern, a replacement without backslash): without sources the
    default provenance is returned and nothing is filed; with sources,
    the result is the list of their non-empty identifiers, and
    afterwards the catalog holds under every identifier what it held
    before and the sources that gave it. *)
Theorem parser_list_catalog (rule : option (list string)) rw
    (sources : option (list string)) st :
  rewrite_of rule = Some rw →
  all_chars is_ascii (_substr rw) = true →
  all_chars is_ascii (_prefix rw) = true →
  Forall (λ source, all_chars is_ascii source = true) (default [] sources) →
  match sources with
  | None | Some [] => parser_list rw sources st = (st, Ok [default_provenance st])
  | Some l =>
      ∃ st',
        parser_list rw sources st
        = (st', Ok (filter (λ i, i ≠ "") (_process_infores rw <$> l)))
        ∧ default_provenance st' = default_provenance st
        ∧ ∀ infores raw,
            raw ∈ default ∅ (_infores_catalog st' !! infores)
            ↔ raw ∈ default ∅ (_infores_catalog st !! infores)
              ∨ (raw ∈ l ∧ _process_infores rw raw = infores ∧ infores ≠ "")
  end.
Proof.
  intros _ _ _ _. destruct sources as [[|source sources]|]; [done| |done].
  apply (parser_list_loop_run rw (source :: sources) st).
Qed.

End ParserList.

(** ** Setting the filters *)

Section SettersFacts.
Import Setters.
Implicit Types (st : filters) (key : string) (v : value).

Lemma E_bind_run {A B} (m : E A) (k : A → E B) st :
  (m ≫= k) st = match m st with
                | (st', Returns a) => k a st'
                | (st', Raises e) => (st', Raises e)
                end.
Proof. reflexivity. Qed.

Lemma E_ret_run {A} (a : A) st : (mret a : E A) st = (st, Returns a).
Proof. reflexivity. Qed.

Ltac setter_step :=
  repeat first
    [ rewrite E_bind_run
    | progress unfold Setters.get, Setters.modify, Setters.raise
    | progress cbv beta iota zeta ].

(** Updating the entry of an edge filter with a set: the entry is a set
    afterwards and holds the elements of the value; no set loses an
    element; the node filters and the other edge filters are as
    before. *)
Lemma update_edge_filter_set key a st :
  (∀ s, edge_filters st !! key ≠ Some (VStr s)) →
  ∃ st' t,
    update_edge_filter key (VSet a) st = (st', Returns tt)
    ∧ edge_filters st' !! key = Some (VSet t)
    ∧ contents st a ⊆ contents st' t
    ∧ (∀ b, contents st b ⊆ contents st' b)
    ∧ node_filters st' = node_filters st
    ∧ (∀ k', k' ≠ key → edge_filters st' !! k' = edge_filters st !! k').
Proof.
  intros Hset. unfold update_edge_filter. setter_step.
  destruct (edge_filters st !! key) as [[s|t]|] eqn:Hk.
  - by destruct (Hset s).
  - eexists _, t. split; [reflexivity|]. cbn. split; [done|].
    unfold contents. cbn. rewrite lookup_insert_eq. cbn.
    split; [apply union_subseteq_r|]. split; [|done].
    intros b. destruct (decide (t = b)) as [->|Hne].
    + rewrite lookup_insert_eq. cbn. apply union_subseteq_l.
    + by rewrite lookup_insert_ne.
  - eexists _, a. split; [reflexivity|]. cbn.
    rewrite lookup_insert_eq. split; [done|]. split; [done|].
    split; [done|]. split; [done|].
    intros k' Hk'. by rewrite lookup_insert_ne.
Qed.

Lemma update_node_filter_set key a st :
  (∀ s, node_filters st !! key ≠ Some (VStr s)) →
  ∃ st' t,
    update_node_filter key (VSet a) st = (st', Returns tt)
    ∧ node_filters st' !! key = Some (VSet t)
    ∧ contents st a ⊆ contents st' t
    ∧ (∀ b, contents st b ⊆ contents st' b)
    ∧ edge_filters st' = edge_filters st
    ∧ (∀ k', k' ≠ key → node_filters st' !! k' = node_filters st !! k').
Proof.
  intros Hset. unfold update_node_filter. setter_step.
  destruct (node_filters st !! key) as [[s|t]|] eqn:Hk.
  - by destruct (Hset s).
  - eexists _, t. split; [reflexivity|]. cbn. split; [done|].
    unfold contents. cbn. rewrite lookup_insert_eq. cbn.
    split; [apply union_subseteq_r|]. split; [|done].
    intros b. destruct (decide (t = b)) as [->|Hne].
    + rewrite lookup_insert_eq. cbn. apply union_subseteq_l.
    + by rewrite lookup_insert_ne.
  - eexists _, a. split; [reflexivity|]. cbn.
    rewrite lookup_insert_eq. split; [done|]. split; [done|].
    split; [done|]. split; [done|].
    intros k' Hk'. by rewrite lookup_insert_ne.
Qed.

(** X19.  [set_node_filter('category', value)] with a set, when the category
    filters set so far are sets: the call returns, and afterwards the
    node filter ['category'] and the edge filters ['subject_category']
    and ['object_category'] are sets that hold every element of the
    value; no filter set has lost an element. *)
Theorem set_node_filter_category st a :
  (∀ s, node_filters st !! "category" ≠ Some (VStr s)) →
  (∀ s, edge_filters st !! "subject_category" ≠ Some (VStr s)) →
  (∀ s, edge_filters st !! "object_category" ≠ Some (VStr s)) →
  ∃ st' cat subj obj,
    set_node_filter "category" (VSet a) st = (st', Returns tt)
    ∧ read_set st' (node_filters st') "category" = Some cat
    ∧ read_set st' (edge_filters st') "subject_category" = Some subj
    ∧ read_set st' (edge_filters st') "object_category" = Some obj
    ∧ contents st a ⊆ cat ∧ contents st a ⊆ subj ∧ contents st a ⊆ obj
    ∧ ∀ b, contents st b ⊆ contents st' b.
Proof.
  intros Hn Hs Ho.
  destruct (update_edge_filter_set "subject_category" a st Hs)
    as (st1 & ts & Hrun1 & Hs1 & Hin1 & Hgrow1 & Hnode1 & Hother1).
  destruct (update_edge_filter_set "object_category" a st1)
    as (st2 & to & Hrun2 & Ho2 & Hin2 & Hgrow2 & Hnode2 & Hother2).
  { intros s. by rewrite Hother1. }
  destruct (update_node_filter_set "category" a st2)
    as (st3 & tn & Hrun3 & Hn3 & Hin3 & Hgrow3 & Hedge3 & Hother3).
  { intros s. by rewrite Hnode2, Hnode1. }
  exists st3, (contents st3 tn), (contents st3 ts), (contents st3 to).
  split.
  { unfold set_node_filter. rewrite bool_decide_eq_true_2 by done.
    setter_step. by rewrite Hrun1, Hrun2, Hrun3. }
  unfold read_set. rewrite Hn3, Hedge3, Ho2, (Hother2 "subject_category"), Hs1
    by done.
  split_and!; try done.
  - etrans; [apply Hgrow1|]. etrans; [apply Hgrow2|]. apply Hin3.
  - etrans; [apply Hin1|]. etrans; [apply Hgrow2|]. apply Hgrow3.
  - etrans; [apply Hgrow1|]. etrans; [apply Hin2|]. apply Hgrow3.
  - intros b. etrans; [apply Hgrow1|]. etrans; [apply Hgrow2|]. apply Hgrow3.
Qed.

Lemma update_node_filter_new key v st :
  node_filters st !! key = None →
  update_node_filter key v st
  = (Filters (heap st) (<[key := v]> (node_filters st)) (edge_filters st),
     Returns tt).
Proof. intros Hk. unfold update_node_filter. setter_step. by rewrite Hk. Qed.

Lemma update_edge_filter_new key v st :
  edge_filters st !! key = None →
  update_edge_filter key v st
  = (Filters (heap st) (node_filters st) (<[key := v]> (edge_filters st)),
     Returns tt).
Proof. intros Hk. unfold update_edge_filter. setter_step. by rewrite Hk. Qed.

Lemma update_node_filter_old key v t st :
  node_filters st !! key = Some (VSet t) →
  update_node_filter key v st
  = (Filters (<[t := contents st t ∪ items st v]> (heap st))
       (node_filters st) (edge_filters st),
     Returns tt).
Proof. intros Hk. unfold update_node_filter. setter_step. by rewrite Hk. Qed.

Lemma update_node_filter_string key v s st :
  node_filters st !! key = Some (VStr s) →
  update_node_filter key v st = (st, Raises (AttributeError "update")).
Proof. intros Hk. unfold update_node_filter. setter_step. by rewrite Hk. Qed.

Lemma new_set_run xs st :
  new_set xs st
  = (Filters (<[fresh (dom (heap st)) := list_to_set xs]> (heap st))
       (node_filters st) (edge_filters st),
     Returns (VSet (fresh (dom (heap st))))).
Proof. reflexivity. Qed.

Lemma set_node_filter_other key v st :
  key ≠ "category" →
  set_node_filter key v st = update_node_filter key v st.
Proof.
  intros Hk. unfold set_node_filter. by rewrite bool_decide_eq_false_2 by done.
Qed.

Lemma set_edge_filter_category key a st :
  key = "subject_category" ∨ key = "object_category" →
  set_edge_filter key (VSet a) st
  = (update_node_filter "category" (VSet a);;
     update_edge_filter key (VSet a)) st.
Proof.
  intros Hk. unfold set_edge_filter.
  destruct Hk as [-> | ->]; by rewrite ?bool_decide_eq_true_2 by done.
Qed.

Lemma fresh_twice (h : gmap nat (gset string)) X :
  fresh (dom (<[fresh (dom h) := X]> h)) ≠ fresh (dom h).
Proof.
  intros Heq. apply (is_fresh (dom (<[fresh (dom h) := X]> h))).
  rewrite Heq at 1. rewrite dom_insert.
  by apply elem_of_union_l, elem_of_singleton.
Qed.

(** X20.  [set_edge_filters] with both category filters, on a source without
    category filters: the set made for ['subject_category'] is also
    stored as the node filter ['category'], so when the node filter
    takes up the elements given for ['object_category'], the
    ['subject_category'] filter takes them up too. *)
Theorem set_edge_filters_subject_object st (A B : list string) :
  node_filters st !! "category" = None →
  edge_filters st !! "subject_category" = None →
  edge_filters st !! "object_category" = None →
  ∃ st',
    set_edge_filters [("subject_category", GCollection A);
                      ("object_category", GCollection B)] st
    = (st', Returns tt)
    ∧ read_set st' (edge_filters st') "subject_category"
      = Some (list_to_set A ∪ list_to_set B)
    ∧ read_set st' (edge_filters st') "object_category" = Some (list_to_set B)
    ∧ read_set st' (node_filters st') "category"
      = Some (list_to_set A ∪ list_to_set B).
Proof.
  intros Hn Hs Ho.
  pose proof (fresh_twice (heap st) (list_to_set A)) as Hba.
  set (a := fresh (dom (heap st))) in *.
  set (b := fresh (dom (<[a := list_to_set A]> (heap st)))) in *.
  eexists. split.
  { cbn [set_edge_filters passed].
    rewrite E_bind_run, new_set_run. fold a.
    rewrite E_bind_run, set_edge_filter_category by (by left).
    rewrite E_bind_run, update_node_filter_new by done.
    rewrite update_edge_filter_new by done.
    rewrite E_bind_run, new_set_run. cbn [heap]. fold b.
    rewrite E_bind_run, set_edge_filter_category by (by right).
    rewrite E_bind_run, (update_node_filter_old _ _ a)
      by (cbn; apply lookup_insert_eq).
    rewrite update_edge_filter_new
      by (cbn; by rewrite lookup_insert_ne).
    reflexivity. }
  assert (a ≠ b) as Hab by (intros ?; by apply Hba).
  unfold read_set.
  repeat first [ rewrite lookup_insert_eq
               | rewrite lookup_insert_ne by done
               | progress unfold contents
               | progress cbn -[fresh] ].
  done.
Qed.

(** X21.  A filter under a key other than ['category'] that is set a second
    time through [set_node_filters]: a string filter cannot be set
    again, the second call raises [AttributeError] and the first string
    stays; a collection filter takes up the elements of the second
    collection. *)
Theorem set_node_filters_twice st key :
  key ≠ "category" →
  node_filters st !! key = None →
  (∀ s1 s2, ∃ st',
     (set_node_filters [(key, GStr s1)];; set_node_filters [(key, GStr s2)]) st
     = (st', Raises (AttributeError "update"))
     ∧ node_filters st' !! key = Some (VStr s1))
  ∧ (∀ A B, ∃ st',
       (set_node_filters [(key, GCollection A)];;
        set_node_filters [(key, GCollection B)]) st
       = (st', Returns tt)
       ∧ read_set st' (node_filters st') key
         = Some (list_to_set A ∪ list_to_set B)).
Proof.
  intros Hkey Hn. split.
  - intros s1 s2. eexists. split.
    { cbn [set_node_filters passed].
      repeat first [rewrite E_bind_run | rewrite E_ret_run | progress cbv beta iota].
      rewrite set_node_filter_other, update_node_filter_new by done.
      repeat first [rewrite E_bind_run | rewrite E_ret_run | progress cbv beta iota].
      rewrite set_node_filter_other by done.
      rewrite (update_node_filter_string _ _ s1)
        by (cbn; apply lookup_insert_eq).
      reflexivity. }
    cbn. by rewrite lookup_insert_eq.
  - intros A B.
    pose proof (fresh_twice (heap st) (list_to_set A)) as Hba.
    set (a := fresh (dom (heap st))) in *.
    set (b := fresh (dom (<[a := list_to_set A]> (heap st)))) in *.
    eexists. split.
    { cbn [set_node_filters passed].
      repeat first [rewrite E_bind_run | rewrite E_ret_run | rewrite new_set_run
                   | progress cbv beta iota].
      fold a.
      rewrite set_node_filter_other, update_node_filter_new by done.
      repeat first [rewrite E_bind_run | rewrite E_ret_run | rewrite new_set_run
                   | progress cbv beta iota].
      cbn [heap]. fold b.
      rewrite set_node_filter_other by done.
      rewrite (update_node_filter_old _ _ a) by (cbn; apply lookup_insert_eq).
      reflexivity. }
    assert (a ≠ b) as Hab by (intros ?; by apply Hba).
    unfold read_set.
    repeat first [ rewrite lookup_insert_eq
                 | rewrite lookup_insert_ne by done
                 | progress unfold contents
                 | progress cbn -[fresh] ].
    done.
Qed.

End SettersFacts.

(** ** Edge records: a missing key, and the record of a triple *)

Section EdgeRecords.
Import MKG Report.
Implicit Types (w : world) (n u v k : string) (t : triple).

(** X23.  An edge record without ['relation'] between two categorised nodes:
    the call raises [KeyError] when it comes to the first triple.  By
    then the edge and its predicate have been counted, and the record of
    the triple has been created if there was none; the counter of the
    triple is as before. *)
Theorem analyse_edge_missing_relation w u v k data p i cu j cv sc oc :
  e_predicate data = Some p →
  e_relation data = None →
  node_catalog (self w) !! u = Some (i :: cu) →
  node_catalog (self w) !! v = Some (j :: cv) →
  curie_map w !! i = Some sc →
  curie_map w !! j = Some oc →
  ∃ w',
    analyse_edge u v k data w = (w', Raise (KeyError "relation"))
    ∧ get_total_edges_count (self w') = get_total_edges_count (self w) + 1
    ∧ get_edge_count_by_predicate (self w') p
      = get_edge_count_by_predicate (self w) p + 1
    ∧ association_map (self w')
      = match association_map (self w) !! (sc, p, oc) with
        | Some _ => association_map (self w)
        | None => <[(sc, p, oc) := new_association (sc, p, oc)]>
                    (association_map (self w))
        end
    ∧ triple_count (self w') (sc, p, oc) = triple_count (self w) (sc, p, oc).
Proof.
  intros Hp Hr Hu Hv Hi Hj.
  rewrite (analyse_edge_known_subject w u v k data p _ Hp Hu).
  cbn [for_each]. run_step.
  unfold analyse_edge_subject at 1, on_catalog, Catalog.get_category_curie.
  run_step. simpl. rewrite Hi. run_step. simpl. rewrite Hv.
  cbn [for_each]. run_step.
  unfold analyse_edge_object at 1, on_catalog, Catalog.get_category_curie.
  run_step. simpl. rewrite Hj. run_step. simpl.
  unfold get_total_edges_count, get_edge_count_by_predicate, triple_count.
  destruct (association_map (self w) !! (sc, p, oc)) as [a|] eqn:Ha; run_step.
  - unfold on_association. simpl. rewrite Ha.
    unfold count_association, subscript. rewrite Hr. run_step. simpl.
    eexists. split; [reflexivity|]. simpl.
    rewrite !lookup_insert_eq. split_and!; try done.
    by apply insert_id.
  - unfold on_association. simpl. rewrite lookup_insert_eq.
    unfold count_association, subscript. rewrite Hr. run_step. simpl.
    eexists. split; [reflexivity|]. simpl.
    rewrite !lookup_insert_eq. split_and!; try done.
    by rewrite insert_insert_eq.
Qed.

(** X24.  Lines 255-266 of [analyse_edge], on the record of a triple of an
    instance that is taking records: the relation of the edge joins the
    relations of the record, the count is one higher, and in
    [count_by_source] every source is counted as often as the edge's
    ['provided_by'] names it; an edge without ['provided_by'] is
    counted under ['unknown']. *)
Theorem count_association_counts data r a rels :
  e_relation data = Some r →
  a_relations a = RelSet rels →
  is_Some (a_count_by_source a !! "unknown") →
  ∃ a',
    count_association data a = (a', Ok tt)
    ∧ a_relations a' = RelSet (rels ∪ {[r]})
    ∧ a_count a' = a_count a + 1
    ∧ ∀ s, default 0 (a_count_by_source a' !! s)
           = default 0 (a_count_by_source a !! s)
             + Z.of_nat (length (filter (λ x, x = s)
                 match e_provided_by data with
                 | Some sources => sources
                 | None => ["unknown"]
                 end)).
Proof.
  intros Hr Hs [c Hu]. unfold count_association, subscript, add_relation.
  rewrite Hr. run_step. rewrite Hs.
  assert (∀ s, default 0 (<["unknown" := c + 1]> (a_count_by_source a) !! s)
               = default 0 (a_count_by_source a !! s)
                 + Z.of_nat (length (filter (λ x, x = s) ["unknown"]))) as Hunknown.
  { intros s. rewrite filter_cons.
    destruct (decide ("unknown" = s)) as [<-|Hne].
    - rewrite lookup_insert_eq, Hu. simpl. lia.
    - rewrite lookup_insert_ne by done. simpl. lia. }
  destruct (bool_decide (r ∈ rels)) eqn:Hmem; run_step; simpl;
    destruct (e_provided_by data) as [sources|]; run_step; simpl.
  - apply bool_decide_eq_true in Hmem.
    eexists. split; [reflexivity|]. simpl. rewrite Hs.
    split; [|split; [done|intros s; apply tally_sources_lookup]].
    f_equal. symmetry. rewrite (comm_L (∪)).
    apply subseteq_union_1_L. by apply singleton_subseteq_l.
  - apply bool_decide_eq_true in Hmem.
    unfold add_at. run_step. rewrite Hu. run_step.
    eexists. split; [reflexivity|]. simpl. rewrite Hs.
    split; [|split; [done|exact Hunknown]].
    f_equal. symmetry. rewrite (comm_L (∪)).
    apply subseteq_union_1_L. by apply singleton_subseteq_l.
  - eexists. split; [reflexivity|]. simpl.
    split; [done|]. split; [done|]. intros s. apply tally_sources_lookup.
  - unfold add_at. run_step. rewrite Hu. run_step.
    eexists. split; [reflexivity|]. simpl.
    split; [done|]. split; [done|]. exact Hunknown.
Qed.

End EdgeRecords.

(** ** The states of an instance that is taking records *)

Section Invariants.
Import MKG.
Variable get_prefix : string → option string.

(** X25.  Every state reached from a new instance by observing nodes and
    edges, with other instances of the process registering categories in
    between, has the invariants of [accepting]: the class-level list has
    no duplicates; the indices of a node are distinct and assigned; every
    [Category] object is filed under its own identifier, which is in the
    class-level list; every [count_by_source] has the key ['unknown'];
    the relations of every association record are a set. *)
Theorem observed_states_accepting w :
  observed get_prefix w → accepting w.
Proof. apply observed_accepting. Qed.

End Invariants.

(** ** The checks and the setters together *)

Section FilteringFacts.
Import Filter Setters Filtering.
Implicit Types (items : list (string * filter_value)) (record : gmap string Filter.value).

Lemma admits_perm items items' record :
  items ≡ₚ items' → admits items record ↔ admits items' record.
Proof.
  intros Hp. unfold admits. split; intros H k fv Hin; apply H;
    [by rewrite Hp|by rewrite <- Hp].
Qed.

Lemma admits_edge_perm items items' record :
  items ≡ₚ items' → admits_edge items record ↔ admits_edge items' record.
Proof.
  intros Hp. unfold admits_edge. split; intros H k fv Hin; apply H;
    [by rewrite Hp|by rewrite <- Hp].
Qed.

Lemma check_node_filter_admits items record :
  (check_node_filter items record).1 = true ↔ admits items record.
Proof.
  unfold check_node_filter. destruct items as [|item items].
  - split; [|done]. by intros _ k fv ?%elem_of_nil.
  - rewrite node_filter_loop_true. split; [by intros [? _]|by split].
Qed.

Lemma check_edge_filter_admits items record :
  (check_edge_filter items record).1 = true ↔ admits_edge items record.
Proof.
  unfold check_edge_filter. destruct items as [|item items].
  - split; [|done]. by intros _ k fv ?%elem_of_nil.
  - rewrite edge_filter_loop_true. split; [by intros [? _]|by split].
Qed.

(** X26.  The verdict of [check_node_filter] and of [check_edge_filter] does
    not depend on the order in which the filter dictionary is
    traversed. *)
Theorem check_filters_order items items' record :
  items ≡ₚ items' →
  (check_node_filter items record).1 = (check_node_filter items' record).1
  ∧ (check_edge_filter items record).1 = (check_edge_filter items' record).1.
Proof.
  intros Hp. split.
  - apply eq_true_iff_eq.
    by rewrite !check_node_filter_admits, (admits_perm _ _ _ Hp).
  - apply eq_true_iff_eq.
    by rewrite !check_edge_filter_admits, (admits_edge_perm _ _ _ Hp).
Qed.

(** X27.  A node filter set through [set_node_filters] under a new key, other
    than ['category'], is one more condition: afterwards
    [check_node_filter] admits a record exactly when it admitted the
    record before and the record has the key with a value that some
    element of the given collection is [in]. *)
Theorem set_node_filters_narrows st key (A : list string) items items' record :
  key ≠ "category" →
  node_filters st !! key = None →
  (∀ k addr, node_filters st !! k = Some (VSet addr) → is_Some (heap st !! addr)) →
  lists_entries items (node_entries st) →
  lists_entries items'
    (node_entries (set_node_filters [(key, GCollection A)] st).1) →
  (set_node_filters [(key, GCollection A)] st).2 = Returns tt
  ∧ ((check_node_filter items' record).1 = true
     ↔ (check_node_filter items record).1 = true
       ∧ ∃ rv x, record !! key = Some rv ∧ x ∈ A ∧ py_in x rv = true).
Proof.
  intros Hkey Hnew Hwf Hitems Hitems'.
  assert (set_node_filters [(key, GCollection A)] st
          = (Filters (<[fresh (dom (heap st)) := list_to_set A]> (heap st))
               (<[key := VSet (fresh (dom (heap st)))]> (node_filters st))
               (edge_filters st), Returns tt)) as Hrun.
  { cbn [set_node_filters passed].
    repeat first [rewrite E_bind_run | rewrite E_ret_run | rewrite new_set_run
                 | progress cbv beta iota].
    by rewrite set_node_filter_other, update_node_filter_new by done. }
  rewrite Hrun in *. cbn [fst snd] in *. split; [done|].
  set (a := fresh (dom (heap st))) in *.
  assert (node_entries
            (Filters (<[a := list_to_set A]> (heap st))
               (<[key := VSet a]> (node_filters st)) (edge_filters st))
          = <[key := FColl (elements (list_to_set A : gset string))]>
              (node_entries st)) as Hentries.
  { unfold node_entries. cbn [node_filters]. rewrite fmap_insert.
    cbn [as_filter_value]. unfold contents at 1. cbn [heap].
    rewrite lookup_insert_eq. cbn [default]. f_equal.
    apply map_fmap_ext. intros k v Hk. destruct v as [s|b]; [done|].
    cbn [as_filter_value]. unfold contents. cbn [heap].
    destruct (Hwf k b Hk) as [X HX].
    assert (b ≠ a) as Hba.
    { intros ->. apply (is_fresh (dom (heap st))). fold a.
      by apply elem_of_dom_2 in HX. }
    by rewrite lookup_insert_ne. }
  rewrite Hentries in Hitems'.
  assert (node_entries st !! key = None) as Hnone.
  { unfold node_entries. by rewrite lookup_fmap, Hnew. }
  unfold lists_entries in *.
  rewrite map_to_list_insert in Hitems' by done.
  rewrite !check_node_filter_admits.
  rewrite (admits_perm _ _ record Hitems'), (admits_perm _ _ record Hitems).
  unfold admits. split.
  - intros H. split.
    + intros k fv Hin. apply H. by right.
    + destruct (H key (FColl (elements (list_to_set A : gset string))))
        as (rv & Hrv & x & Hx & Hin); [left|].
      exists rv, x. split; [done|]. split; [|done].
      by apply elem_of_elements, elem_of_list_to_set in Hx.
  - intros [H (rv & x & Hrv & Hx & Hin)] k fv [[= -> ->]|Hk]%elem_of_cons.
    + exists rv. split; [done|]. exists x. split; [|done].
      by apply elem_of_elements, elem_of_list_to_set.
    + by apply H.
Qed.

End FilteringFacts.

Section MoreRuns.
Import MKG Report Scenario Cases.

Lemma accepting_with_gene : accepting with_gene.
Proof.
  apply (observed_accepting curie_prefix). unfold with_gene, after, fresh.
  apply observed_node, observed_new, NoDup_nil_2.
Qed.

Lemma analyse_edge_unknown_object_witness :
  accepting with_gene
  ∧ e_predicate interacts = Some "biolink:interacts_with"
  ∧ node_catalog (self with_gene) !! "X:1" = Some [1%nat]
  ∧ node_catalog (self with_gene) !! "X:9" = None
  ∧ ∃ w' line,
      analyse_edge "X:1" "X:9" "e1" interacts with_gene = (w', Ok tt)
      ∧ get_total_edges_count (self w') = get_total_edges_count (self with_gene)
      ∧ (∀ q, get_edge_count_by_predicate (self w') q
              = get_edge_count_by_predicate (self with_gene) q)
      ∧ association_map (self w') = association_map (self with_gene)
      ∧ error_log (self w') = error_log (self with_gene) ++ [line].
Proof.
  split; [exact accepting_with_gene|].
  split; [reflexivity|].
  split; [vm_compute; reflexivity|].
  split; [vm_compute; reflexivity|].
  apply (analyse_edge_unknown_object with_gene "X:1" "X:9" "e1" interacts
           "biolink:interacts_with" 1%nat [] accepting_with_gene);
    vm_compute; reflexivity.
Defined.

Lemma analyse_edge_discarded_predicate_count_witness :
  e_predicate interacts = Some "biolink:interacts_with"
  ∧ node_catalog (self with_gene) !! "X:9" = None
  ∧ predicates (self (analyse_edge "X:9" "X:1" "e1" interacts with_gene).1)
    = <["biolink:interacts_with" :=
          get_edge_count_by_predicate (self with_gene) "biolink:interacts_with"]>
        (predicates (self with_gene))
  ∧ get_predicate_count (self (analyse_edge "X:9" "X:1" "e1" interacts with_gene).1)
    = match predicates (self with_gene) !! "biolink:interacts_with" with
      | Some _ => get_predicate_count (self with_gene)
      | None => S (get_predicate_count (self with_gene))
      end.
Proof.
  split; [reflexivity|].
  split; [vm_compute; reflexivity|].
  apply (analyse_edge_discarded_predicate_count with_gene "X:9" "X:1" "e1" interacts
           "biolink:interacts_with"); vm_compute; reflexivity.
Defined.

Lemma analyse_node_counts_tokens_witness :
  accepting with_gene
  ∧ node_catalog (self with_gene) !! "X:2" = None
  ∧ truthy (curie_prefix "X:2") = Some "X"
  ∧ n_category twice_gene_node = Some twice_gene
  ∧ ∃ w' cids,
      analyse_node curie_prefix "X:2" twice_gene_node with_gene = (w', Ok tt)
      ∧ (∀ c, get_node_count_by_category (self w') c
              = get_node_count_by_category (self with_gene) c
                + Z.of_nat (length (filter (λ t, t = c) (twice_gene ≫= split_pipe))))
      ∧ node_catalog (self w') !! "X:2" = Some cids
      ∧ NoDup cids
      ∧ (∀ i, i ∈ cids ↔
              ∃ c, c ∈ twice_gene ≫= split_pipe ∧ curie_map w' !! i = Some c)
      ∧ error_log (self w') = error_log (self with_gene).
Proof.
  split; [exact accepting_with_gene|].
  split; [vm_compute; reflexivity|].
  split; [reflexivity|].
  split; [reflexivity|].
  apply (analyse_node_counts_tokens curie_prefix with_gene "X:2" twice_gene_node twice_gene "X"
           accepting_with_gene); vm_compute; reflexivity.
Defined.

Lemma analyse_node_total_counts_witness :
  accepting with_gene
  ∧ node_catalog (self with_gene) !! "X:2" = None
  ∧ truthy (curie_prefix "X:2") = Some "X"
  ∧ n_category twice_gene_node = Some twice_gene
  ∧ get_total_node_counts_across_categories
      (self (analyse_node curie_prefix "X:2" twice_gene_node with_gene).1)
    = get_total_node_counts_across_categories (self with_gene)
      + Z.of_nat (length (twice_gene ≫= split_pipe)).
Proof.
  split; [exact accepting_with_gene|].
  split; [vm_compute; reflexivity|].
  split; [reflexivity|].
  split; [reflexivity|].
  apply (analyse_node_total_counts curie_prefix with_gene "X:2" twice_gene_node twice_gene "X"
           accepting_with_gene); vm_compute; reflexivity.
Defined.

Lemma analyse_node_uncategorised_after_get_node_stats_witness :
  node_stats (self fresh) !! "unknown" = Some unknown_category
  ∧ count unknown_category = 0
  ∧ node_catalog (self fresh) !! "X:0" = None
  ∧ n_category uncategorised_node = None
  ∧ ∃ w1 w2,
      get_node_stats fresh = (w1, Ok (node_stats (self w1)))
      ∧ analyse_node curie_prefix "X:0" uncategorised_node w1 = (w2, Raise (KeyError "unknown"))
      ∧ node_catalog (self w2) !! "X:0" = Some []
      ∧ get_total_nodes_count (self w2) = S (get_total_nodes_count (self fresh))
      ∧ node_stats (self w2) = delete "unknown" (node_stats (self fresh))
      ∧ error_log (self w2) = error_log (self fresh).
Proof.
  split; [vm_compute; reflexivity|].
  split; [reflexivity|].
  split; [vm_compute; reflexivity|].
  split; [reflexivity|].
  apply (analyse_node_uncategorised_after_get_node_stats curie_prefix fresh "X:0"
           uncategorised_node unknown_category); vm_compute; reflexivity.
Defined.

End MoreRuns.

Section MoreEdgeRuns.
Import MKG Report Scenario Cases.

Lemma get_edge_stats_first_witness :
  edge_stats (self with_edge) = []
  ∧ ∃ w' stats refs,
      get_edge_stats with_edge = (w', Ok stats)
      ∧ stats ≡ₚ listify <$> (map_to_list (association_map (self with_edge))).*2
      ∧ refs ≡ₚ (map_to_list (association_map (self with_edge))).*1
      ∧ w' = on_self (set_edge_stats (λ _, refs))
               (on_self (set_association_map (fmap listify)) with_edge)
      ∧ get_edge_mapping_count with_edge
        = (w', Ok (size (association_map (self with_edge))))
      ∧ get_edge_stats w' = (w', Ok stats).
Proof.
  split; [vm_compute; reflexivity|].
  apply (get_edge_stats_first with_edge). vm_compute. reflexivity.
Defined.

Lemma association_map_with_edge : association_map (self with_edge) ≠ ∅.
Proof.
  intros H.
  assert (association_map (self with_edge)
          !! ("biolink:Gene", "biolink:interacts_with", "biolink:Gene") = None) as Hl
    by (by rewrite H).
  vm_compute in Hl. discriminate Hl.
Qed.

Lemma get_edge_mapping_count_stale_witness :
  edge_stats (self with_edge) = []
  ∧ association_map (self with_edge) ≠ ∅
  ∧ (get_edge_mapping_count
       (for_all reverse_edges (λ '(u, v, k, data), analyse_edge u v k data)
          (get_edge_stats with_edge).1).1).2
    = Ok (size (association_map (self with_edge))).
Proof.
  split; [vm_compute; reflexivity|].
  split; [exact association_map_with_edge|].
  apply (get_edge_mapping_count_stale with_edge reverse_edges);
    [vm_compute; reflexivity|exact association_map_with_edge].
Defined.

Lemma has_relation_with_edge :
  ¬ has_relation (self with_edge)
      ("biolink:Gene", "biolink:interacts_with", "biolink:Protein") "RO:2".
Proof.
  unfold has_relation.
  replace (association_map (self with_edge)
           !! ("biolink:Gene", "biolink:interacts_with", "biolink:Protein"))
    with (Some (mkAssociation "biolink:Gene" "biolink:interacts_with"
                  "biolink:Protein" (RelSet (∅ ∪ {["RO:1"]})) 1 {["unknown" := 1]}))
    by (vm_compute; reflexivity).
  simpl. rewrite elem_of_union, elem_of_empty, elem_of_singleton.
  by intros [[]|?].
Qed.

Lemma analyse_edge_new_relation_after_get_edge_stats_witness :
  e_predicate interacts_otherwise = Some "biolink:interacts_with"
  ∧ e_relation interacts_otherwise = Some "RO:2"
  ∧ node_catalog (self with_edge) !! "X:1" = Some [1%nat]
  ∧ node_catalog (self with_edge) !! "X:2" = Some [2%nat; 1%nat]
  ∧ curie_map with_edge !! 1%nat = Some "biolink:Gene"
  ∧ curie_map with_edge !! 2%nat = Some "biolink:Protein"
  ∧ edge_stats (self with_edge) = []
  ∧ ∃ w',
      analyse_edge "X:1" "X:2" "e3" interacts_otherwise (get_edge_stats with_edge).1
      = (w', Raise (AttributeError "add"))
      ∧ get_total_edges_count (self w') = get_total_edges_count (self with_edge) + 1
      ∧ get_edge_count_by_predicate (self w') "biolink:interacts_with"
        = get_edge_count_by_predicate (self with_edge) "biolink:interacts_with" + 1
      ∧ association_map (self w')
        = association_map (self (get_edge_stats with_edge).1).
Proof.
  split_and!; try (vm_compute; reflexivity).
  apply (analyse_edge_new_relation_after_get_edge_stats with_edge "X:1" "X:2" "e3"
           interacts_otherwise "biolink:interacts_with" "RO:2"
           1%nat [] 2%nat [1%nat] "biolink:Gene" "biolink:Protein");
    try (vm_compute; reflexivity).
  - apply not_eq_None_Some. vm_compute. discriminate.
  - exact has_relation_with_edge.
Defined.

Lemma analyse_edge_total_edge_counts_witness :
  accepting two_nodes
  ∧ edge_stats (self two_nodes) = []
  ∧ e_predicate interacts = Some "biolink:interacts_with"
  ∧ e_relation interacts = Some "RO:1"
  ∧ node_catalog (self two_nodes) !! "X:1" = Some [1%nat]
  ∧ node_catalog (self two_nodes) !! "X:2" = Some [2%nat; 1%nat]
  ∧ ∃ x,
      (get_total_edge_counts_across_mappings two_nodes).2 = Ok x
      ∧ (get_total_edge_counts_across_mappings
           (analyse_edge "X:1" "X:2" "e1" interacts two_nodes).1).2
        = Ok (x + Z.of_nat (length [1%nat] * length [2%nat; 1%nat])).
Proof.
  assert (accepting two_nodes) as Hacc
    by exact (observed_accepting curie_prefix two_nodes observed_two_nodes).
  split; [exact Hacc|].
  split; [vm_compute; reflexivity|].
  split; [reflexivity|]. split; [reflexivity|].
  split; [vm_compute; reflexivity|].
  split; [vm_compute; reflexivity|].
  apply (analyse_edge_total_edge_counts two_nodes "X:1" "X:2" "e1" interacts
           "biolink:interacts_with" "RO:1" [1%nat] [2%nat; 1%nat] Hacc);
    vm_compute; reflexivity.
Defined.

Lemma summarize_graph_streaming_witness :
  graph_stats (self fresh) = None
  ∧ match observe_then_summarize curie_prefix small_graph None fresh with
    | (w', Ok s) => summarize_graph curie_prefix small_graph None fresh = (w', Ok s)
    | (_, Raise e) => (summarize_graph curie_prefix small_graph None fresh).2 = Raise e
    end.
Proof.
  split; [reflexivity|].
  apply (summarize_graph_streaming curie_prefix small_graph None fresh).
  reflexivity.
Defined.

End MoreEdgeRuns.

Section MoreSourceRuns.
Import MKG Report Scenario Cases.

Lemma analyse_node_category_counts_witness :
  truthy (curie_prefix "X:1") = Some "X"
  ∧ is_Some (count_by_source unknown_category !! "unknown")
  ∧ ∃ c',
      analyse_node_category curie_prefix "X:1" sourced_node unknown_category
      = (c', Ok tt)
      ∧ category c' = category unknown_category
      ∧ count c' = count unknown_category + 1
      ∧ id_prefixes c' = id_prefixes unknown_category ∪ {["X"]}
      ∧ ∀ s, default 0 (count_by_source c' !! s)
             = default 0 (count_by_source unknown_category !! s)
               + Z.of_nat (length (filter (λ x, x = s)
                   match n_provided_by sourced_node with
                   | Some sources => sources
                   | None => ["unknown"]
                   end)).
Proof.
  assert (is_Some (count_by_source unknown_category !! "unknown")) as Hu
    by (by eexists).
  split; [reflexivity|]. split; [exact Hu|].
  apply (analyse_node_category_counts curie_prefix "X:1" sourced_node
           unknown_category "X"); [reflexivity|exact Hu].
Defined.

Lemma accepting_fresh : accepting fresh.
Proof. apply (observed_accepting curie_prefix). apply observed_new, NoDup_nil_2. Qed.

Lemma analyse_node_without_category_witness :
  accepting fresh
  ∧ node_catalog (self fresh) !! "X:0" = None
  ∧ n_category uncategorised_node = None
  ∧ truthy (curie_prefix "X:0") = Some "X"
  ∧ is_Some (node_stats (self fresh) !! "unknown")
  ∧ ∃ w' line,
      analyse_node curie_prefix "X:0" uncategorised_node fresh = (w', Ok tt)
      ∧ get_node_count_by_category (self w') "unknown"
        = get_node_count_by_category (self fresh) "unknown" + 1
      ∧ (∀ c, c ≠ "unknown" →
           node_stats (self w') !! c = node_stats (self fresh) !! c)
      ∧ node_catalog (self w') = <["X:0" := []]> (node_catalog (self fresh))
      ∧ curie_map w' = curie_map fresh
      ∧ error_log (self w') = error_log (self fresh) ++ [line].
Proof.
  assert (is_Some (node_stats (self fresh) !! "unknown")) as Hu
    by (exists unknown_category; vm_compute; reflexivity).
  split; [exact accepting_fresh|].
  split; [vm_compute; reflexivity|].
  split; [reflexivity|]. split; [reflexivity|]. split; [exact Hu|].
  apply (analyse_node_without_category curie_prefix fresh "X:0"
           uncategorised_node "X" accepting_fresh);
    first [exact Hu | vm_compute; reflexivity].
Defined.

Lemma process_infores_alphabet_witness :
  Infores.rewrite_of initiative_tuple = Some initiative_rule
  ∧ Charset.all_chars Charset.is_ascii "Monarch Initiative" = true
  ∧ Charset.all_chars Charset.is_ascii (Infores._substr initiative_rule) = true
  ∧ Charset.all_chars Charset.is_ascii (Infores._prefix initiative_rule) = true
  ∧ Charset.all_chars Charset.is_infores_char
      (Infores._process_infores initiative_rule "Monarch Initiative") = true.
Proof.
  split; [reflexivity|].
  split; [reflexivity|]. split; [reflexivity|]. split; [reflexivity|].
  apply (process_infores_alphabet initiative_tuple initiative_rule
           "Monarch Initiative"); reflexivity.
Defined.

Lemma parser_list_catalog_witness :
  Infores.rewrite_of initiative_tuple = Some initiative_rule
  ∧ Charset.all_chars Charset.is_ascii (Infores._substr initiative_rule) = true
  ∧ Charset.all_chars Charset.is_ascii (Infores._prefix initiative_rule) = true
  ∧ Forall (λ source, Charset.all_chars Charset.is_ascii source = true)
      two_sources
  ∧ ∃ st',
      Infores.parser_list initiative_rule (Some two_sources) no_sources_filed
      = (st', Ok (filter (λ i, i ≠ "")
                    (Infores._process_infores initiative_rule <$> two_sources)))
      ∧ Infores.default_provenance st'
        = Infores.default_provenance no_sources_filed
      ∧ ∀ infores raw,
          raw ∈ default ∅ (Infores._infores_catalog st' !! infores)
          ↔ raw ∈ default ∅ (Infores._infores_catalog no_sources_filed !! infores)
            ∨ (raw ∈ two_sources
               ∧ Infores._process_infores initiative_rule raw = infores
               ∧ infores ≠ "").
Proof.
  assert (Forall (λ source, Charset.all_chars Charset.is_ascii source = true)
            two_sources) as Hsources
    by (repeat apply Forall_cons_2; [reflexivity|reflexivity|apply Forall_nil_2]).
  split; [reflexivity|]. split; [reflexivity|]. split; [reflexivity|].
  split; [exact Hsources|].
  apply (parser_list_catalog initiative_tuple initiative_rule
           (Some two_sources) no_sources_filed);
    [reflexivity|reflexivity|reflexivity|exact Hsources].
Defined.

Lemma gene_filtered_run :
  gene_filtered
  = Setters.Filters
      {[0%nat := {["biolink:Gene"]}; 1%nat := {["biolink:Disease"]}]}
      {["category" := Setters.VSet 0]}
      (<["object_category" := Setters.VSet 0]>
         {["subject_category" := Setters.VSet 0]}).
Proof. reflexivity. Qed.

Lemma set_node_filter_category_witness :
  Setters.node_filters gene_filtered !! "category" = Some (Setters.VSet 0)
  ∧ "biolink:Gene" ∈ Setters.contents gene_filtered 0
  ∧ "biolink:Disease" ∈ Setters.contents gene_filtered 1
  ∧ (∀ s, Setters.node_filters gene_filtered !! "category" ≠ Some (Setters.VStr s))
  ∧ (∀ s, Setters.edge_filters gene_filtered !! "subject_category"
          ≠ Some (Setters.VStr s))
  ∧ (∀ s, Setters.edge_filters gene_filtered !! "object_category"
          ≠ Some (Setters.VStr s))
  ∧ ∃ st' cat subj obj,
      Setters.set_node_filter "category" (Setters.VSet 1) gene_filtered
      = (st', Setters.Returns tt)
      ∧ Setters.read_set st' (Setters.node_filters st') "category" = Some cat
      ∧ Setters.read_set st' (Setters.edge_filters st') "subject_category" = Some subj
      ∧ Setters.read_set st' (Setters.edge_filters st') "object_category" = Some obj
      ∧ Setters.contents gene_filtered 1 ⊆ cat
      ∧ Setters.contents gene_filtered 1 ⊆ subj
      ∧ Setters.contents gene_filtered 1 ⊆ obj
      ∧ ∀ b, Setters.contents gene_filtered b ⊆ Setters.contents st' b.
Proof.
  assert (Setters.node_filters gene_filtered !! "category"
          = Some (Setters.VSet 0)) as Hn by reflexivity.
  assert (Setters.edge_filters gene_filtered !! "subject_category"
          = Some (Setters.VSet 0)) as Hs by reflexivity.
  assert (Setters.edge_filters gene_filtered !! "object_category"
          = Some (Setters.VSet 0)) as Ho by reflexivity.
  split; [exact Hn|].
  split; [rewrite gene_filtered_run; unfold Setters.contents; cbn;
          rewrite lookup_insert_eq; cbn; by apply elem_of_singleton|].
  split; [rewrite gene_filtered_run; unfold Setters.contents; cbn;
          rewrite lookup_insert_ne by done; rewrite lookup_singleton_eq; cbn;
          by apply elem_of_singleton|].
  split; [intros s; by rewrite Hn|].
  split; [intros s; by rewrite Hs|].
  split; [intros s; by rewrite Ho|].
  apply (set_node_filter_category gene_filtered 1%nat).
  - intros s; by rewrite Hn.
  - intros s; by rewrite Hs.
  - intros s; by rewrite Ho.
Defined.

Lemma set_edge_filters_subject_object_witness :
  Setters.node_filters Setters.init !! "category" = None
  ∧ Setters.edge_filters Setters.init !! "subject_category" = None
  ∧ Setters.edge_filters Setters.init !! "object_category" = None
  ∧ ∃ st',
      Setters.set_edge_filters
        [("subject_category", Setters.GCollection ["biolink:Gene"]);
         ("object_category", Setters.GCollection ["biolink:Disease"])] Setters.init
      = (st', Setters.Returns tt)
      ∧ Setters.read_set st' (Setters.edge_filters st') "subject_category"
        = Some (list_to_set ["biolink:Gene"] ∪ list_to_set ["biolink:Disease"])
      ∧ Setters.read_set st' (Setters.edge_filters st') "object_category"
        = Some (list_to_set ["biolink:Disease"])
      ∧ Setters.read_set st' (Setters.node_filters st') "category"
        = Some (list_to_set ["biolink:Gene"] ∪ list_to_set ["biolink:Disease"]).
Proof.
  split; [done|]. split; [done|]. split; [done|].
  apply (set_edge_filters_subject_object Setters.init
           ["biolink:Gene"] ["biolink:Disease"]); done.
Defined.

Lemma set_node_filters_twice_witness :
  "name" ≠ "category"
  ∧ Setters.node_filters Setters.init !! "name" = None
  ∧ (∀ s1 s2, ∃ st',
       (Setters.set_node_filters [("name", Setters.GStr s1)];;
        Setters.set_node_filters [("name", Setters.GStr s2)]) Setters.init
       = (st', Setters.Raises (Setters.AttributeError "update"))
       ∧ Setters.node_filters st' !! "name" = Some (Setters.VStr s1))
  ∧ (∀ A B, ∃ st',
       (Setters.set_node_filters [("name", Setters.GCollection A)];;
        Setters.set_node_filters [("name", Setters.GCollection B)]) Setters.init
       = (st', Setters.Returns tt)
       ∧ Setters.read_set st' (Setters.node_filters st') "name"
         = Some (list_to_set A ∪ list_to_set B)).
Proof.
  split; [done|]. split; [done|].
  apply (set_node_filters_twice Setters.init "name"); done.
Defined.

End MoreSourceRuns.

Section MoreRecordRuns.
Import MKG Report Scenario Cases.

Lemma analyse_edge_missing_relation_witness :
  e_predicate unrelated_edge = Some "biolink:interacts_with"
  ∧ e_relation unrelated_edge = None
  ∧ node_catalog (self two_nodes) !! "X:1" = Some [1%nat]
  ∧ node_catalog (self two_nodes) !! "X:2" = Some [2%nat; 1%nat]
  ∧ curie_map two_nodes !! 1%nat = Some "biolink:Gene"
  ∧ curie_map two_nodes !! 2%nat = Some "biolink:Protein"
  ∧ ∃ w',
      analyse_edge "X:1" "X:2" "e1" unrelated_edge two_nodes
      = (w', Raise (KeyError "relation"))
      ∧ get_total_edges_count (self w') = get_total_edges_count (self two_nodes) + 1
      ∧ get_edge_count_by_predicate (self w') "biolink:interacts_with"
        = get_edge_count_by_predicate (self two_nodes) "biolink:interacts_with" + 1
      ∧ association_map (self w')
        = match association_map (self two_nodes)
                !! ("biolink:Gene", "biolink:interacts_with", "biolink:Protein") with
          | Some _ => association_map (self two_nodes)
          | None =>
              <[("biolink:Gene", "biolink:interacts_with", "biolink:Protein") :=
                  new_association
                    ("biolink:Gene", "biolink:interacts_with", "biolink:Protein")]>
                (association_map (self two_nodes))
          end
      ∧ triple_count (self w')
          ("biolink:Gene", "biolink:interacts_with", "biolink:Protein")
        = triple_count (self two_nodes)
            ("biolink:Gene", "biolink:interacts_with", "biolink:Protein").
Proof.
  split_and!; try (vm_compute; reflexivity).
  apply (analyse_edge_missing_relation two_nodes "X:1" "X:2" "e1" unrelated_edge
           "biolink:interacts_with" 1%nat [] 2%nat [1%nat]
           "biolink:Gene" "biolink:Protein");
    vm_compute; reflexivity.
Defined.

Lemma count_association_counts_witness :
  e_relation sourced_edge = Some "RO:1"
  ∧ a_relations (new_association ("biolink:Gene", "biolink:interacts_with", "biolink:Gene"))
    = RelSet ∅
  ∧ is_Some (a_count_by_source
               (new_association ("biolink:Gene", "biolink:interacts_with", "biolink:Gene"))
             !! "unknown")
  ∧ ∃ a',
      count_association sourced_edge
        (new_association ("biolink:Gene", "biolink:interacts_with", "biolink:Gene"))
      = (a', Ok tt)
      ∧ a_relations a' = RelSet (∅ ∪ {["RO:1"]})
      ∧ a_count a'
        = a_count (new_association ("biolink:Gene", "biolink:interacts_with", "biolink:Gene"))
          + 1
      ∧ ∀ s, default 0 (a_count_by_source a' !! s)
             = default 0 (a_count_by_source
                            (new_association
                               ("biolink:Gene", "biolink:interacts_with", "biolink:Gene"))
                          !! s)
               + Z.of_nat (length (filter (λ x, x = s)
                   match e_provided_by sourced_edge with
                   | Some sources => sources
                   | None => ["unknown"]
                   end)).
Proof.
  assert (is_Some (a_count_by_source
            (new_association ("biolink:Gene", "biolink:interacts_with", "biolink:Gene"))
          !! "unknown")) as Hu by (by eexists).
  split; [reflexivity|]. split; [reflexivity|]. split; [exact Hu|].
  apply (count_association_counts sourced_edge "RO:1"
           (new_association ("biolink:Gene", "biolink:interacts_with", "biolink:Gene"))
           ∅); [reflexivity|reflexivity|exact Hu].
Defined.

Lemma observed_states_accepting_witness :
  observed curie_prefix two_nodes ∧ accepting two_nodes.
Proof.
  split; [exact observed_two_nodes|].
  apply (observed_states_accepting curie_prefix two_nodes). exact observed_two_nodes.
Defined.

Lemma get_graph_summary_content_witness :
  graph_stats (self with_edge) = None
  ∧ edge_stats (self with_edge) = []
  ∧ ∃ w' s,
      get_graph_summary (Some "renamed") with_edge = (w', Ok (Some s))
      ∧ read_graph_stats (self w') = Some s
      ∧ s_nodes s
        = match node_stats (self with_edge) !! "unknown" with
          | Some c =>
              if bool_decide (count c = 0)
              then delete "unknown" (node_stats (self with_edge))
              else node_stats (self with_edge)
          | None => node_stats (self with_edge)
          end
      ∧ s_edges s
        ≡ₚ listify <$> (map_to_list (association_map (self with_edge))).*2
      ∧ s_name s = "renamed".
Proof.
  split; [vm_compute; reflexivity|]. split; [vm_compute; reflexivity|].
  apply (get_graph_summary_content (Some "renamed") with_edge);
    vm_compute; reflexivity.
Defined.

End MoreRecordRuns.

Section MoreFilterRuns.
Import Cases.

Lemma check_filters_order_witness :
  two_filters ≡ₚ two_filters_swapped
  ∧ (Filter.check_node_filter two_filters brca1).1
    = (Filter.check_node_filter two_filters_swapped brca1).1
  ∧ (Filter.check_edge_filter two_filters brca1).1
    = (Filter.check_edge_filter two_filters_swapped brca1).1.
Proof.
  assert (two_filters ≡ₚ two_filters_swapped) as Hp by apply perm_swap.
  split; [exact Hp|].
  exact (check_filters_order two_filters two_filters_swapped brca1 Hp).
Defined.

Lemma gene_filtered_node_filters :
  Setters.node_filters gene_filtered = {["category" := Setters.VSet 0]}.
Proof. reflexivity. Qed.

Lemma gene_filtered_entries :
  Filtering.node_entries gene_filtered
  = {["category" := Filter.FColl ["biolink:Gene"]]}.
Proof.
  unfold Filtering.node_entries. rewrite gene_filtered_node_filters.
  rewrite map_fmap_singleton. reflexivity.
Qed.

Lemma set_node_filters_narrows_witness :
  "name" ≠ "category"
  ∧ Setters.node_filters gene_filtered !! "name" = None
  ∧ (∀ k addr, Setters.node_filters gene_filtered !! k = Some (Setters.VSet addr) →
               is_Some (Setters.heap gene_filtered !! addr))
  ∧ Filtering.lists_entries [("category", Filter.FColl ["biolink:Gene"])]
      (Filtering.node_entries gene_filtered)
  ∧ Filtering.lists_entries
      (map_to_list (Filtering.node_entries
         (Setters.set_node_filters [("name", Setters.GCollection ["BRCA1"])]
            gene_filtered).1))
      (Filtering.node_entries
         (Setters.set_node_filters [("name", Setters.GCollection ["BRCA1"])]
            gene_filtered).1)
  ∧ (Setters.set_node_filters [("name", Setters.GCollection ["BRCA1"])]
       gene_filtered).2 = Setters.Returns tt
  ∧ ((Filter.check_node_filter
        (map_to_list (Filtering.node_entries
           (Setters.set_node_filters [("name", Setters.GCollection ["BRCA1"])]
              gene_filtered).1)) brca1).1 = true
     ↔ (Filter.check_node_filter
          [("category", Filter.FColl ["biolink:Gene"])] brca1).1 = true
       ∧ ∃ rv x, brca1 !! "name" = Some rv ∧ x ∈ ["BRCA1"]
                 ∧ Filter.py_in x rv = true).
Proof.
  assert (Filtering.lists_entries [("category", Filter.FColl ["biolink:Gene"])]
            (Filtering.node_entries gene_filtered)) as H0.
  { unfold Filtering.lists_entries.
    by rewrite gene_filtered_entries, map_to_list_singleton. }
  assert (∀ k addr,
            Setters.node_filters gene_filtered !! k = Some (Setters.VSet addr) →
            is_Some (Setters.heap gene_filtered !! addr)) as Hwf.
  { intros k addr. rewrite gene_filtered_node_filters.
    intros [_ [= <-]]%lookup_singleton_Some. by eexists. }
  split; [done|]. split; [reflexivity|]. split; [exact Hwf|]. split; [exact H0|].
  assert (∀ d, Filtering.lists_entries (map_to_list d) d) as Hself
    by (by intros d; unfold Filtering.lists_entries).
  split; [apply Hself|].
  apply (set_node_filters_narrows gene_filtered "name" ["BRCA1"]
           [("category", Filter.FColl ["biolink:Gene"])]
           _ brca1); [done|reflexivity|exact Hwf|exact H0|apply Hself].
Defined.

End MoreFilterRuns.
